(** * Context-rot detection: degradation curves, health assessment,
      recommendations and the HuggingFace profile resolver

    A shallow embedding of the TypeScript sources
    [degradation-curves.ts], [quality-estimation.ts], [recommendations.ts]
    and [huggingface-resolver.ts], followed by the properties the
    specification states about them.

    Numbers.  A JavaScript [number] is modelled as a real number extended
    with the IEEE special values [Infinity], [-Infinity] and [NaN];
    division by zero, comparisons with [NaN] and the behaviour of
    [Math.max], [Math.min] and [Math.round] on special values follow
    ECMAScript.  Zero is the positive zero.  The fields of a profile and
    the numbers of an assessment input are finite.

    Rounding.  Where the value a caller sees depends on the rounding of
    binary64 arithmetic, each operation is followed by [binary64], the
    rounding to the nearest double with ties to even: in the utilization
    percentage and in the two products of [generateHeuristicProfile].  The
    two degradation curves and the health score are evaluated over the
    reals; what is stated about them are bounds, monotonicity and the
    values on the constant branches, which rounding preserves.
    [Math.pow(x, 1.5)] is [x * sqrt x].

    Collaborators.  The SQLite cache is a table that is either absent
    ([db = null]) or answers every statement; a stored profile, whose
    fields are finite, is read back as it was written.  A context length
    beyond the binary64 range, which [JSON.parse] turns into [Infinity] and
    [JSON.stringify] stores as [null], is outside the model.  The logger
    does nothing observable. *)

From Stdlib Require Import Reals Lra Lia ZArith Ascii.
From stdpp Require Import gmap strings list sorting.

Open Scope R_scope.

(** ** JavaScript numbers *)

Module JSNumber.

#[global] Instance Rle_decision : RelDecision Rle := Rle_dec.
#[global] Instance Rlt_decision : RelDecision Rlt := Rlt_dec.
#[global] Instance Rge_decision : RelDecision Rge := Rge_dec.
#[global] Instance Rgt_decision : RelDecision Rgt := Rgt_dec.
#[global] Instance Req_decision : EqDecision R := Req_dec_T.

Inductive num : Type :=
  | Fin (x : R)
  | PInf
  | NInf
  | NaN.

Definition is_finite (a : num) : bool :=
  match a with Fin _ => true | _ => false end.

(** Picks [pos], [neg] or [NaN] by the sign of [x]; used for [x / 0] and
    [x * Infinity]. *)
Definition by_sign (x : R) (pos neg : num) : num :=
  if decide (0 < x) then pos
  else if decide (x < 0) then neg
  else NaN.

Definition nneg (a : num) : num :=
  match a with
  | Fin x => Fin (- x)
  | PInf => NInf
  | NInf => PInf
  | NaN => NaN
  end.

Definition nadd (a b : num) : num :=
  match a, b with
  | NaN, _ | _, NaN => NaN
  | Fin x, Fin y => Fin (x + y)
  | PInf, NInf | NInf, PInf => NaN
  | PInf, _ | _, PInf => PInf
  | NInf, _ | _, NInf => NInf
  end.

Definition nsub (a b : num) : num := nadd a (nneg b).

Definition nmul (a b : num) : num :=
  match a, b with
  | NaN, _ | _, NaN => NaN
  | Fin x, Fin y => Fin (x * y)
  | Fin x, PInf | PInf, Fin x => by_sign x PInf NInf
  | Fin x, NInf | NInf, Fin x => by_sign x NInf PInf
  | PInf, PInf | NInf, NInf => PInf
  | PInf, NInf | NInf, PInf => NInf
  end.

Definition ndiv (a b : num) : num :=
  match a, b with
  | NaN, _ | _, NaN => NaN
  | Fin x, Fin y => if decide (y = 0) then by_sign x PInf NInf else Fin (x / y)
  | Fin _, (PInf | NInf) => Fin 0
  | PInf, Fin y => if decide (y < 0) then NInf else PInf
  | NInf, Fin y => if decide (y < 0) then PInf else NInf
  | (PInf | NInf), (PInf | NInf) => NaN
  end.

(** Relational operators: every comparison with [NaN] is [false]. *)
Definition nle (a b : num) : bool :=
  match a, b with
  | NaN, _ | _, NaN => false
  | Fin x, Fin y => bool_decide (x <= y)
  | NInf, _ | _, PInf => true
  | _, _ => false
  end.

Definition nlt (a b : num) : bool :=
  match a, b with
  | NaN, _ | _, NaN => false
  | Fin x, Fin y => bool_decide (x < y)
  | PInf, _ | _, NInf => false
  | _, _ => true
  end.

Definition nge (a b : num) : bool := nle b a.
Definition ngt (a b : num) : bool := nlt b a.

(** [Math.max] and [Math.min] return [NaN] as soon as one argument is. *)
Definition Math_max (a b : num) : num :=
  match a, b with
  | NaN, _ | _, NaN => NaN
  | _, _ => if nle a b then b else a
  end.

Definition Math_min (a b : num) : num :=
  match a, b with
  | NaN, _ | _, NaN => NaN
  | _, _ => if nle a b then a else b
  end.

(** [Math.round]: the nearest integer, ties towards [+Infinity]. *)
Definition round_half_up (x : R) : Z := Zfloor (x + / 2).

Definition Math_round (a : num) : num :=
  match a with
  | Fin x => Fin (IZR (round_half_up x))
  | _ => a
  end.

(** [Math.pow(a, 1.5)], the only exponent the sources use.  For a finite
    base [x >= 0] the value is [x * sqrt x]; a negative finite base has no
    real power and yields [NaN]; both infinities yield [Infinity]. *)
Definition Math_pow_1_5 (a : num) : num :=
  match a with
  | Fin x => if decide (x < 0) then NaN else Fin (x * sqrt x)
  | PInf | NInf => PInf
  | NaN => NaN
  end.

Coercion Fin : R >-> num.

Declare Scope num_scope.
Delimit Scope num_scope with num.
Bind Scope num_scope with num.
Infix "+" := nadd : num_scope.
Infix "-" := nsub : num_scope.
Infix "*" := nmul : num_scope.
Infix "/" := ndiv : num_scope.
Infix "<=?" := nle : num_scope.
Infix "<?" := nlt : num_scope.
Infix ">=?" := nge : num_scope.
Infix ">?" := ngt : num_scope.

(** *** binary64 rounding *)

(** The exponent [e] of the binade of [x]: [2^e <= |x| < 2^(e+1)]. *)
Definition exponent (x : R) : Z := Zfloor (ln (Rabs x) / ln 2).

(** The nearest integer, ties to the even one. *)
Definition round_half_even (y : R) : Z :=
  let f := Zfloor y in
  if decide (y - IZR f < / 2) then f
  else if decide (/ 2 < y - IZR f) then (f + 1)%Z
  else if Z.even f then f else (f + 1)%Z.

(** The spacing of the doubles around [x]: [2^(e-52)]; below [2^-1022]
    (the subnormal numbers) it stays [2^-1074]. *)
Definition ulp (x : R) : R := powerRZ 2 (Z.max (exponent x) (-1022) - 52).

(** [x] rounded to the nearest double, ties to the even significand,
    before the test for overflow. *)
Definition binary64R (x : R) : R :=
  if decide (x = 0) then 0 else IZR (round_half_even (x / ulp x)) * ulp x.

(** [x] as a double: what rounds to [2^1024] or beyond is an infinity. *)
Definition binary64 (x : R) : num :=
  let y := binary64R x in
  if decide (powerRZ 2 1024 <= Rabs y) then (if decide (0 < x) then PInf else NInf)
  else Fin y.

(** The result of an arithmetic operation as the machine delivers it. *)
Definition rounded (a : num) : num :=
  match a with
  | Fin x => binary64 x
  | _ => a
  end.

(** [a * b] and [a / b] in binary64. *)
Definition fmul (a b : num) : num := rounded (a * b)%num.
Definition fdiv (a b : num) : num := rounded (a / b)%num.

End JSNumber.
Export JSNumber.

(** ** degradation-curves.ts *)

Module DegradationCurves.

Record ModelProfile : Type := {
  name : string;
  maxTokens : R;
  degradationOnset : R;
  dangerZone : R;
  middleLossCoefficient : R;
  baseRetrievalAccuracy : R
}.

Definition mkProfile (n : string) (mx onset danger coeff base : R) : ModelProfile :=
  {| name := n; maxTokens := mx; degradationOnset := onset; dangerZone := danger;
     middleLossCoefficient := coeff; baseRetrievalAccuracy := base |}.

(** The object literal [MODEL_PROFILES], as its own properties in source
    order. *)
Definition MODEL_PROFILES : list (string * ModelProfile) :=
  [ ("claude-3.5-sonnet", mkProfile "Claude 3.5 Sonnet" 200000 120000 152000 0.35 0.95);
    ("claude-3.7-sonnet", mkProfile "Claude 3.7 Sonnet" 200000 130000 160000 0.30 0.96);
    ("claude-sonnet-4", mkProfile "Claude Sonnet 4" 200000 135000 165000 0.28 0.96);
    ("claude-opus-4", mkProfile "Claude Opus 4" 200000 140000 170000 0.25 0.97);
    ("claude-opus-4-5", mkProfile "Claude Opus 4.5" 200000 145000 175000 0.22 0.97);
    ("claude-haiku-3.5", mkProfile "Claude Haiku 3.5" 200000 100000 130000 0.40 0.92);
    ("gpt-4o", mkProfile "GPT-4o" 128000 80000 105000 0.40 0.93);
    ("gpt-4o-mini", mkProfile "GPT-4o Mini" 128000 70000 95000 0.45 0.90);
    ("gpt-4.1", mkProfile "GPT-4.1" 1000000 200000 500000 0.38 0.94);
    ("gpt-4.1-mini", mkProfile "GPT-4.1 Mini" 1000000 180000 450000 0.42 0.91);
    ("o3", mkProfile "o3" 200000 120000 160000 0.30 0.95);
    ("o4-mini", mkProfile "o4-mini" 200000 110000 150000 0.35 0.93);
    ("gemini-2.0-flash", mkProfile "Gemini 2.0 Flash" 1000000 200000 500000 0.50 0.88);
    ("gemini-2.5-pro", mkProfile "Gemini 2.5 Pro" 1000000 250000 600000 0.42 0.92);
    ("gemini-2.5-flash", mkProfile "Gemini 2.5 Flash" 1000000 220000 520000 0.48 0.89);
    ("other", mkProfile "Unknown Model" 128000 80000 100000 0.40 0.90) ].

(** Property names every object literal inherits from [Object.prototype]. *)
Definition Object_prototype_keys : list string :=
  [ "constructor"; "__defineGetter__"; "__defineSetter__"; "hasOwnProperty";
    "__lookupGetter__"; "__lookupSetter__"; "isPrototypeOf";
    "propertyIsEnumerable"; "toString"; "valueOf"; "__proto__";
    "toLocaleString" ].

(** What the expression [MODEL_PROFILES[key]] can evaluate to: an own
    property (a profile), a member inherited from [Object.prototype] (a
    function, or the prototype object itself for [__proto__]), or
    [undefined]. *)
Inductive JSValue : Type :=
  | VProfile (p : ModelProfile)
  | VInherited (key : string)
  | VUndefined.

Fixpoint own_property (o : list (string * ModelProfile)) (key : string)
  : option ModelProfile :=
  match o with
  | [] => None
  | (k, p) :: rest => if String.eqb k key then Some p else own_property rest key
  end.

(** [o[key]] for an object literal [o]: own properties first, then the
    prototype. *)
Definition get_property (o : list (string * ModelProfile)) (key : string) : JSValue :=
  match own_property o key with
  | Some p => VProfile p
  | None => if bool_decide (key ∈ Object_prototype_keys) then VInherited key
            else VUndefined
  end.

(** [a ?? b]: [b] only when [a] is [undefined] (or [null]). *)
Definition nullish_coalesce (a b : JSValue) : JSValue :=
  match a with
  | VUndefined => b
  | _ => a
  end.

(** [Object.keys(MODEL_PROFILES).filter((k) => k !== "other")] *)
Definition KNOWN_MODELS : list string :=
  filter (fun k => k ≠ "other") (map fst MODEL_PROFILES).

Definition getModelProfile (model : string) : JSValue :=
  nullish_coalesce (get_property MODEL_PROFILES model)
                   (get_property MODEL_PROFILES "other").

(** The entry [MODEL_PROFILES["other"]]. *)
Definition other_profile : ModelProfile :=
  mkProfile "Unknown Model" 128000 80000 100000 0.40 0.90.

(** The two products are machine products: the literals [0.65] and [0.80]
    are the doubles nearest to them, and each product is rounded before
    [Math.round] sees it (a product of a double by one of them does not
    overflow). *)
Definition generateHeuristicProfile (name : string) (maxTokens : R) : ModelProfile :=
  {| name := name;
     maxTokens := maxTokens;
     degradationOnset := IZR (round_half_up (binary64R (maxTokens * binary64R 0.65)));
     dangerZone := IZR (round_half_up (binary64R (maxTokens * binary64R 0.80)));
     middleLossCoefficient := 0.40;
     baseRetrievalAccuracy := 0.90 |}.

Definition calculateQualityMultiplier (tokenCount : R) (profile : ModelProfile) : num :=
  if (tokenCount <=? degradationOnset profile)%num then 1
  else if (tokenCount >=? maxTokens profile)%num then 0.2
  else
    let range := (maxTokens profile - degradationOnset profile)%num in
    let progress := ((tokenCount - degradationOnset profile) / range)%num in
    let degradation := Math_pow_1_5 progress in
    Math_max 0.2 (1 - degradation * 0.8)%num.

Definition estimateRetrievalAccuracy (tokenCount : R) (profile : ModelProfile) : num :=
  let qualityMult := calculateQualityMultiplier tokenCount profile in
  let middlePenalty : num :=
    if (tokenCount >? degradationOnset profile)%num
    then (middleLossCoefficient profile *
          ((tokenCount - degradationOnset profile) /
           (maxTokens profile - degradationOnset profile)))%num
    else 0 in
  Math_max 0.1 (baseRetrievalAccuracy profile * qualityMult - middlePenalty)%num.

End DegradationCurves.
Export DegradationCurves.

(** ** quality-estimation.ts *)

Module QualityEstimation.

Inductive RiskLevel : Type := low | moderate | high | critical.
Inductive RetrievalStatus : Type := excellent | good | degrading | poor.
Inductive HealthStatus : Type := healthy | warning | danger.

#[global] Instance RiskLevel_eq_dec : EqDecision RiskLevel.
Proof. solve_decision. Defined.
#[global] Instance HealthStatus_eq_dec : EqDecision HealthStatus.
Proof. solve_decision. Defined.

Record QualityEstimate : Type := {
  retrieval_accuracy : RetrievalStatus;
  middle_content_risk : RiskLevel;
  estimated_hallucination_risk : RiskLevel
}.

Record TokenUtilization : Type := {
  current : R;
  max_effective : R;
  percentage : num;
  danger_zone_starts_at : R
}.

Record SessionFatigue : Type := {
  tool_call_burden : RiskLevel;
  session_length_risk : RiskLevel;
  recommendation : string
}.

Record HealthAssessment : Type := {
  health_score : num;
  status : HealthStatus;
  token_utilization : TokenUtilization;
  quality_estimate : QualityEstimate;
  session_fatigue : SessionFatigue
}.

(** The optional fields [sessionDurationMinutes] and [toolCallsCount] are
    [None] when absent; [contextSummary] is never read. *)
Record AssessmentInput : Type := {
  tokenCount : R;
  model : string;
  sessionDurationMinutes : option R;
  toolCallsCount : option R
}.

Definition calculateMiddleContentRisk (tokenCount : R) (profile : ModelProfile)
  : RiskLevel :=
  let ratio := (tokenCount / maxTokens profile)%num in
  if (ratio <? 0.3)%num then low
  else if (ratio <? 0.5)%num then moderate
  else if (ratio <? 0.75)%num then high
  else critical.

Definition calculateHallucinationRisk (retrievalAccuracy : num)
    (toolCallBurden : RiskLevel) : RiskLevel :=
  let toolPenalty : R :=
    if decide (toolCallBurden = critical) then 0.15
    else if decide (toolCallBurden = high) then 0.1
    else if decide (toolCallBurden = moderate) then 0.05
    else 0 in
  let adjustedAccuracy := (retrievalAccuracy - toolPenalty)%num in
  if (adjustedAccuracy >? 0.85)%num then low
  else if (adjustedAccuracy >? 0.7)%num then moderate
  else if (adjustedAccuracy >? 0.5)%num then high
  else critical.

Definition calculateToolCallBurden (toolCallsCount : R) : RiskLevel :=
  if (toolCallsCount <=? 5)%num then low
  else if (toolCallsCount <=? 15)%num then moderate
  else if (toolCallsCount <=? 30)%num then high
  else critical.

Definition calculateSessionLengthRisk (durationMinutes : R) : RiskLevel :=
  if (durationMinutes <=? 15)%num then low
  else if (durationMinutes <=? 45)%num then moderate
  else if (durationMinutes <=? 90)%num then high
  else critical.

Definition retrievalAccuracyToStatus (accuracy : num) : RetrievalStatus :=
  if (accuracy >? 0.9)%num then excellent
  else if (accuracy >? 0.75)%num then good
  else if (accuracy >? 0.55)%num then degrading
  else poor.

Definition sessionFatigueRecommendation (toolBurden sessionRisk : RiskLevel) : string :=
  if bool_decide (toolBurden = critical) || bool_decide (sessionRisk = critical)
  then "Session is critically fatigued. Strongly recommend starting a fresh session or performing aggressive context compaction immediately."
  else if bool_decide (toolBurden = high) || bool_decide (sessionRisk = high)
  then "Significant session fatigue detected. Consider summarizing completed work and removing stale context before continuing."
  else if bool_decide (toolBurden = moderate) || bool_decide (sessionRisk = moderate)
  then "Consider breaking into sub-tasks if complexity increases."
  else "Session fatigue is low. Continue as normal.".

Definition toolScore (toolCallsCount : R) : R :=
  if (toolCallsCount <=? 5)%num then 20
  else if (toolCallsCount <=? 15)%num then 15
  else if (toolCallsCount <=? 30)%num then 8
  else 3.

Definition sessionScore (sessionDurationMinutes : R) : R :=
  if (sessionDurationMinutes <=? 15)%num then 15
  else if (sessionDurationMinutes <=? 45)%num then 12
  else if (sessionDurationMinutes <=? 90)%num then 6
  else 2.

Definition computeHealthScore (qualityMultiplier retrievalAccuracy : num)
    (toolCallsCount sessionDurationMinutes : R) : num :=
  let tokenScore := (qualityMultiplier * 40)%num in
  let retrievalScore := (retrievalAccuracy * 25)%num in
  Math_round
    (Math_max 0
       (Math_min 100
          (tokenScore + retrievalScore + toolScore toolCallsCount
           + sessionScore sessionDurationMinutes)%num)).

Definition scoreToStatus (score : num) : HealthStatus :=
  if (score >=? 70)%num then healthy
  else if (score >=? 40)%num then warning
  else danger.

(** [assessHealth] once the profile is known: the source first obtains
    [profile] from the resolver (or from [getModelProfile]) and then runs
    this body.  The percentage is computed in binary64, operation by
    operation. *)
Definition assessHealth (input : AssessmentInput) (profile : ModelProfile)
  : HealthAssessment :=
  let toolCalls := default 0 (toolCallsCount input) in
  let sessionMinutes := default 0 (sessionDurationMinutes input) in
  let qualityMultiplier := calculateQualityMultiplier (tokenCount input) profile in
  let retrievalAccuracy := estimateRetrievalAccuracy (tokenCount input) profile in
  let toolBurden := calculateToolCallBurden toolCalls in
  let sessionRisk := calculateSessionLengthRisk sessionMinutes in
  let healthScore :=
    computeHealthScore qualityMultiplier retrievalAccuracy toolCalls sessionMinutes in
  let middleRisk := calculateMiddleContentRisk (tokenCount input) profile in
  let hallucinationRisk := calculateHallucinationRisk retrievalAccuracy toolBurden in
  {| health_score := healthScore;
     status := scoreToStatus healthScore;
     token_utilization :=
       {| current := tokenCount input;
          max_effective := dangerZone profile;
          percentage :=
            fdiv (Math_round (fmul (fdiv (tokenCount input) (dangerZone profile)) 1000))
                 10;
          danger_zone_starts_at := dangerZone profile |};
     quality_estimate :=
       {| retrieval_accuracy := retrievalAccuracyToStatus retrievalAccuracy;
          middle_content_risk := middleRisk;
          estimated_hallucination_risk := hallucinationRisk |};
     session_fatigue :=
       {| tool_call_burden := toolBurden;
          session_length_risk := sessionRisk;
          recommendation := sessionFatigueRecommendation toolBurden sessionRisk |} |}.

End QualityEstimation.
Export QualityEstimation.

(** ** The same functions on whatever the lookup returned

    [getModelProfile] is typed [ModelProfile], but for a name inherited
    from [Object.prototype] it returns a function (or the prototype
    object).  The functions below are the bodies of
    [calculateQualityMultiplier], [estimateRetrievalAccuracy] and of the
    score and status of [assessHealth] with every read [profile.field]
    made explicit; on a profile object they are the functions above. *)

Module Untyped.

(** [profile.field] as a number.  The members inherited from
    [Object.prototype] have none of the five numeric properties, so the read
    gives [undefined], which the arithmetic and relational operators convert
    to [NaN].  ([getModelProfile] never returns [undefined] itself, so no
    read throws.) *)
Definition read (field : ModelProfile -> R) (profile : JSValue) : num :=
  match profile with
  | VProfile p => Fin (field p)
  | VInherited _ | VUndefined => NaN
  end.

Definition calculateQualityMultiplier (tokenCount : R) (profile : JSValue) : num :=
  if (tokenCount <=? read degradationOnset profile)%num then 1
  else if (tokenCount >=? read maxTokens profile)%num then 0.2
  else
    let range := (read maxTokens profile - read degradationOnset profile)%num in
    let progress := ((tokenCount - read degradationOnset profile) / range)%num in
    let degradation := Math_pow_1_5 progress in
    Math_max 0.2 (1 - degradation * 0.8)%num.

Definition estimateRetrievalAccuracy (tokenCount : R) (profile : JSValue) : num :=
  let qualityMult := calculateQualityMultiplier tokenCount profile in
  let middlePenalty : num :=
    if (tokenCount >? read degradationOnset profile)%num
    then (read middleLossCoefficient profile *
          ((tokenCount - read degradationOnset profile) /
           (read maxTokens profile - read degradationOnset profile)))%num
    else 0 in
  Math_max 0.1 (read baseRetrievalAccuracy profile * qualityMult - middlePenalty)%num.

(** The constant [healthScore] of [assessHealth], returned as
    [health_score], and the [status] computed from it. *)
Definition healthScore (input : AssessmentInput) (profile : JSValue) : num :=
  let toolCalls := default 0 (toolCallsCount input) in
  let sessionMinutes := default 0 (sessionDurationMinutes input) in
  let qualityMultiplier := calculateQualityMultiplier (tokenCount input) profile in
  let retrievalAccuracy := estimateRetrievalAccuracy (tokenCount input) profile in
  computeHealthScore qualityMultiplier retrievalAccuracy toolCalls sessionMinutes.

Definition healthStatus (input : AssessmentInput) (profile : JSValue) : HealthStatus :=
  scoreToStatus (healthScore input profile).

End Untyped.

(** ** recommendations.ts *)

Module Recommendations.

Inductive Priority : Type := prio_critical | prio_high | prio_medium | prio_low.

#[global] Instance Priority_eq_dec : EqDecision Priority.
Proof. solve_decision. Defined.

Record Recommendation : Type := {
  priority : Priority;
  action : string;
  reason : string;
  estimated_quality_gain : Z
}.

#[global] Instance Recommendation_eq_dec : EqDecision Recommendation.
Proof. solve_decision. Defined.

Definition riskToPriority (risk : RiskLevel) : Priority :=
  match risk with
  | critical => prio_critical
  | high => prio_high
  | moderate => prio_medium
  | low => prio_low
  end.

Definition priorityWeight (p : Priority) : Z :=
  match p with
  | prio_critical => 0
  | prio_high => 1
  | prio_medium => 2
  | prio_low => 3
  end.

(** The comparator handed to [recs.sort]. *)
Definition compareRecs (a b : Recommendation) : Z :=
  let pw := (priorityWeight (priority a) - priorityWeight (priority b))%Z in
  if bool_decide (pw ≠ 0%Z) then pw
  else (estimated_quality_gain b - estimated_quality_gain a)%Z.

(** [Array.prototype.sort] is stable: an element moves behind exactly the
    elements the comparator puts strictly before it. *)
Fixpoint sort_insert (cmp : Recommendation -> Recommendation -> Z)
    (x : Recommendation) (l : list Recommendation) : list Recommendation :=
  match l with
  | [] => [x]
  | y :: l' => if (cmp x y <=? 0)%Z then x :: y :: l' else y :: sort_insert cmp x l'
  end.

Definition Array_sort (cmp : Recommendation -> Recommendation -> Z)
    (l : list Recommendation) : list Recommendation :=
  foldr (sort_insert cmp) [] l.

Definition rec_immediate_context_reset : Recommendation :=
  {| priority := prio_critical;
     action := "immediate_context_reset";
     reason := "You have exceeded the effective quality threshold. Context quality is severely degraded. Save critical state to external memory and start a fresh session immediately.";
     estimated_quality_gain := 40 |}.

Definition rec_compact_context_critical : Recommendation :=
  {| priority := prio_critical;
     action := "compact_context";
     reason := "You are deep in the danger zone. Aggressively summarize all older context, remove completed task details, and retain only active task information.";
     estimated_quality_gain := 25 |}.

Definition rec_compact_context_high : Recommendation :=
  {| priority := prio_high;
     action := "compact_context";
     reason := "You are approaching the effective quality threshold. Summarize older context and remove completed task details.";
     estimated_quality_gain := 15 |}.

Definition rec_plan_compaction : Recommendation :=
  {| priority := prio_medium;
     action := "plan_compaction";
     reason := "Token usage is moderate. Begin planning which context can be safely summarized or offloaded before you reach the degradation zone.";
     estimated_quality_gain := 5 |}.

Definition rec_offload_to_memory (risk : RiskLevel) : Recommendation :=
  {| priority := riskToPriority risk;
     action := "offload_to_memory";
     reason := "High risk of lost-in-the-middle effect. Key decisions and facts in the middle of your context may already be unretrievable. Store critical information to external memory before it is effectively lost.";
     estimated_quality_gain := 8 |}.

Definition rec_break_into_subtasks (risk : RiskLevel) : Recommendation :=
  {| priority := riskToPriority risk;
     action := "break_into_subtasks";
     reason := "High number of tool calls has accumulated significant context overhead. Break remaining work into independent sub-tasks that can each start with a fresh, focused context.";
     estimated_quality_gain := 12 |}.

Definition rec_session_checkpoint (risk : RiskLevel) : Recommendation :=
  {| priority := riskToPriority risk;
     action := "session_checkpoint";
     reason := "This session has been running for a long time. Create a checkpoint by documenting current state, decisions made, and next steps — then consider continuing in a fresh session.";
     estimated_quality_gain := 10 |}.

Definition rec_verify_outputs (risk : RiskLevel) : Recommendation :=
  {| priority := riskToPriority risk;
     action := "verify_outputs";
     reason := "Elevated hallucination risk detected. Double-check facts, re-read source material before citing it, and consider re-verifying recent conclusions against original data.";
     estimated_quality_gain := 5 |}.

Definition rec_continue : Recommendation :=
  {| priority := prio_low;
     action := "continue";
     reason := "Context health is good. No immediate action needed. Continue your current task.";
     estimated_quality_gain := 0 |}.

(** The token-utilization [if ... else if ...] chain: what it pushes. *)
Definition utilizationRecs (utilPct : num) : list Recommendation :=
  if (utilPct >=? 100)%num then [rec_immediate_context_reset]
  else if (utilPct >=? 80)%num then [rec_compact_context_critical]
  else if (utilPct >=? 60)%num then [rec_compact_context_high]
  else if (utilPct >=? 40)%num then [rec_plan_compaction]
  else [].

Definition is_high_or_critical (risk : RiskLevel) : bool :=
  bool_decide (risk = high) || bool_decide (risk = critical).

(** The pushes of one risk-driven [if] block. *)
Definition riskRecs (risk : RiskLevel) (mk : RiskLevel -> Recommendation)
  : list Recommendation :=
  if is_high_or_critical risk then [mk risk] else [].

(** The array [recs] just before it is sorted. *)
Definition pushedRecs (assessment : HealthAssessment) : list Recommendation :=
  let recs :=
    utilizationRecs (percentage (token_utilization assessment))
    ++ riskRecs (middle_content_risk (quality_estimate assessment)) rec_offload_to_memory
    ++ riskRecs (tool_call_burden (session_fatigue assessment)) rec_break_into_subtasks
    ++ riskRecs (session_length_risk (session_fatigue assessment)) rec_session_checkpoint
    ++ riskRecs (estimated_hallucination_risk (quality_estimate assessment))
         rec_verify_outputs in
  if bool_decide (length recs = 0%nat) then recs ++ [rec_continue] else recs.

Definition generateRecommendations (assessment : HealthAssessment)
  : list Recommendation :=
  Array_sort compareRecs (pushedRecs assessment).

End Recommendations.
Export Recommendations.

(** ** huggingface-resolver.ts

    [resolveModelProfile] is an [async] method.  JavaScript runs each
    stretch of code between two suspension points to completion, so the
    method is embedded as the three stretches it consists of, each a
    function on the resolver's state:
    - [resolveModelProfile]: from the call up to [await promise] (or up to
      an earlier [return]); it includes the synchronous start of
      [fetchAndCache], where [fetch(url)] is issued;
    - [settle]: the network has answered; the rest of
      [fetchHuggingFaceConfig] and of [fetchAndCache] runs and the promise
      [fetchAndCache] returned is settled;
    - [finalize]: the [finally] block of the caller that started the fetch.
    Any number of other calls may run between these stretches. *)

Module HuggingFaceResolver.

(** [model.split("/")] *)
Fixpoint split_slash (s : string) : list string :=
  match s with
  | EmptyString => [EmptyString]
  | String c rest =>
      if Ascii.eqb c "/"%char then EmptyString :: split_slash rest
      else match split_slash rest with
           | [] => [String c EmptyString]
           | h :: t => String c h :: t
           end
  end.

Definition looksLikeHuggingFaceRepoId (model : string) : bool :=
  match split_slash model with
  | [p0; p1] => (0 <? String.length p0)%nat && (0 <? String.length p1)%nat
  | _ => false
  end.

(** A field of the fetched [config.json]; a number is finite. *)
Inductive JsonValue : Type :=
  | JAbsent                (* the field is missing: [undefined] *)
  | JNull
  | JNumber (x : R)
  | JOther.                (* a string, boolean, array or object *)

Record HFConfig : Type := {
  max_position_embeddings : JsonValue;
  n_positions : JsonValue;
  max_seq_len : JsonValue
}.

Definition json_coalesce (a b : JsonValue) : JsonValue :=
  match a with
  | JAbsent | JNull => b
  | _ => a
  end.

(** The first of the three fields that is neither missing nor [null]
    (the constant [value] of [extractMaxTokens]). *)
Definition contextLengthField (config : HFConfig) : JsonValue :=
  json_coalesce (max_position_embeddings config)
    (json_coalesce (n_positions config)
       (json_coalesce (max_seq_len config) JNull)).

Definition extractMaxTokens (config : HFConfig) : option R :=
  let value := contextLengthField config in
  match value with
  | JNumber x => if (x <=? 0)%num then None else Some x
  | _ => None
  end.

(** What the network does with one [fetch(url, ...)]. *)
Inductive FetchOutcome : Type :=
  | FetchRejects           (* network error, or the 5000 ms abort signal fires *)
  | ResponseNotOk          (* a response whose [ok] is false *)
  | BodyNotJson            (* [response.json()] rejects, or yields [null] *)
  | BodyJson (config : HFConfig).


(** Normal or abrupt completion of a stretch of code. *)
Inductive Completion (A : Type) : Type :=
  | Normal (a : A)
  | Throws.
Arguments Normal {A} a.
Arguments Throws {A}.

Definition try_catch {A : Type} (body : Completion A) (handler : A) : Completion A :=
  match body with
  | Normal a => Normal a
  | Throws => Normal handler
  end.

(** [fetchHuggingFaceConfig] after the network has answered. *)
Definition fetchHuggingFaceConfig (outcome : FetchOutcome) : Completion (option R) :=
  try_catch
    match outcome with
    | FetchRejects => Throws
    | ResponseNotOk => Normal None
    | BodyNotJson => Throws
    | BodyJson config => Normal (extractMaxTokens config)
    end
    None.

(** A row of [hf_model_cache]; [profile_json] holds the profile that
    [JSON.parse] gives back from the stored text. *)
Record CacheRow : Type := {
  max_tokens : R;
  profile_json : ModelProfile
}.

Inductive IOEvent : Type :=
  | NetFetch (repoId : string)
  | DbSelect (repoId : string)
  | DbInsert (repoId : string).

#[global] Instance IOEvent_eq_dec : EqDecision IOEvent.
Proof. solve_decision. Defined.

(** A promise returned by [fetchAndCache]: the key it was started for, its
    settlement once the fetch has answered, and whether the [finally] block
    of the call that started it has run. *)
Record FetchPromise : Type := {
  repo_id : string;
  settlement : option (Completion JSValue);
  finalized : bool
}.

Record Resolver : Type := {
  db : option (gmap string CacheRow);
  inFlightRequests : gmap string nat;
  promises : list FetchPromise;
  io : list IOEvent
}.

Definition newResolver (database : option (gmap string CacheRow)) : Resolver :=
  {| db := database; inFlightRequests := ∅; promises := []; io := [] |}.

Definition log_io (e : IOEvent) (st : Resolver) : Resolver :=
  {| db := db st; inFlightRequests := inFlightRequests st;
     promises := promises st; io := io st ++ [e] |}.

Definition getCached (repoId : string) (st : Resolver) : option ModelProfile * Resolver :=
  match db st with
  | None => (None, st)
  | Some table => (profile_json <$> table !! repoId, log_io (DbSelect repoId) st)
  end.

Definition cacheProfile (repoId : string) (maxTokens : R) (profile : ModelProfile)
    (st : Resolver) : Resolver :=
  match db st with
  | None => st
  | Some table =>
      {| db := Some (<[repoId := {| max_tokens := maxTokens; profile_json := profile |}]> table);
         inFlightRequests := inFlightRequests st;
         promises := promises st;
         io := io st ++ [DbInsert repoId] |}
  end.

(** The synchronous start of [fetchAndCache]: the request goes out and a
    pending promise is returned. *)
Definition fetchAndCache_start (repoId : string) (st : Resolver) : nat * Resolver :=
  (length (promises st),
   {| db := db st; inFlightRequests := inFlightRequests st;
      promises := promises st
                  ++ [{| repo_id := repoId; settlement := None; finalized := false |}];
      io := io st ++ [NetFetch repoId] |}).

(** The rest of [fetchAndCache], after [await this.fetchHuggingFaceConfig]. *)
Definition fetchAndCache_rest (repoId : string) (fetched : Completion (option R))
    (st : Resolver) : Completion JSValue * Resolver :=
  match fetched with
  | Throws => (Throws, st)
  | Normal None => (Normal (getModelProfile "other"), st)
  | Normal (Some maxTokens) =>
      let profile := generateHeuristicProfile repoId maxTokens in
      (Normal (VProfile profile), cacheProfile repoId maxTokens profile st)
  end.

(** [curated.name !== "Unknown Model"]; the members inherited from
    [Object.prototype] carry their own function name or none. *)
Definition name_is_not (n : string) (v : JSValue) : bool :=
  match v with
  | VProfile p => negb (String.eqb (name p) n)
  | _ => true
  end.

(** How a call of [resolveModelProfile] stands when it first gives up
    control: it has returned [v], or it waits for the fetch promise [pid];
    [started] tells whether this call started that fetch. *)
Inductive CallResult : Type :=
  | Returned (v : JSValue)
  | AwaitsFetch (pid : nat) (started : bool).

Definition resolveModelProfile (model : string) (st : Resolver) : CallResult * Resolver :=
  let curated := getModelProfile model in
  if name_is_not "Unknown Model" curated then (Returned curated, st)
  else if negb (looksLikeHuggingFaceRepoId model) then (Returned curated, st)
  else
    let '(cached, st1) := getCached model st in
    match cached with
    | Some profile => (Returned (VProfile profile), st1)
    | None =>
        match inFlightRequests st1 !! model with
        | Some existing => (AwaitsFetch existing false, st1)
        | None =>
            let '(promise, st2) := fetchAndCache_start model st1 in
            (AwaitsFetch promise true,
             {| db := db st2;
                inFlightRequests := <[model := promise]> (inFlightRequests st2);
                promises := promises st2;
                io := io st2 |})
        end
    end.

Definition set_promise (pid : nat) (p : FetchPromise) (st : Resolver) : Resolver :=
  {| db := db st; inFlightRequests := inFlightRequests st;
     promises := <[pid := p]> (promises st); io := io st |}.

(** The fetch behind promise [pid] is answered with [outcome]. *)
Definition settle (pid : nat) (outcome : FetchOutcome) (st : Resolver) : option Resolver :=
  match promises st !! pid with
  | Some p =>
      match settlement p with
      | Some _ => None
      | None =>
          let '(result, st1) :=
            fetchAndCache_rest (repo_id p) (fetchHuggingFaceConfig outcome) st in
          Some (set_promise pid
                  {| repo_id := repo_id p; settlement := Some result;
                     finalized := finalized p |} st1)
      end
  | None => None
  end.

(** The [finally] block of the call that started promise [pid]; it runs
    once, after the promise is settled. *)
Definition finalize (pid : nat) (st : Resolver) : option Resolver :=
  match promises st !! pid with
  | Some p =>
      match settlement p, finalized p with
      | Some result, false =>
          Some {| db := db st;
                  inFlightRequests := delete (repo_id p) (inFlightRequests st);
                  promises :=
                    <[pid := {| repo_id := repo_id p; settlement := Some result;
                                finalized := true |}]> (promises st);
                  io := io st |}
      | _, _ => None
      end
  | None => None
  end.

(** What the caller's own promise is settled with, as far as [st] knows. *)
Definition received (r : CallResult) (st : Resolver) : option (Completion JSValue) :=
  match r with
  | Returned v => Some (Normal v)
  | AwaitsFetch pid _ => p ← promises st !! pid; settlement p
  end.

(** One caller at a time: [await resolver.resolveModelProfile(model)] with
    the network answering [outcome] if a request goes out. *)
Definition resolveModelProfile_await (model : string) (outcome : FetchOutcome)
    (st : Resolver) : option (Completion JSValue * Resolver) :=
  let '(r, st1) := resolveModelProfile model st in
  match r with
  | Returned v => Some (Normal v, st1)
  | AwaitsFetch pid true =>
      st2 ← settle pid outcome st1;
      st3 ← finalize pid st2;
      result ← received r st3;
      Some (result, st3)
  | AwaitsFetch pid false =>
      result ← received r st1;
      Some (result, st1)
  end.

(** Interleavings: the stretches above, in any order the event loop may
    run them. *)
Inductive Event : Type :=
  | ECall (model : string)
  | EResponse (pid : nat) (outcome : FetchOutcome)
  | EFinally (pid : nat).

Definition step (e : Event) (st : Resolver)
  : option (list (string * CallResult) * Resolver) :=
  match e with
  | ECall model =>
      let '(r, st') := resolveModelProfile model st in Some ([(model, r)], st')
  | EResponse pid outcome => st' ← settle pid outcome st; Some ([], st')
  | EFinally pid => st' ← finalize pid st; Some ([], st')
  end.

(** Runs a schedule; yields the calls it made with their results, in
    order. *)
Fixpoint run (events : list Event) (st : Resolver)
  : option (list (string * CallResult) * Resolver) :=
  match events with
  | [] => Some ([], st)
  | e :: rest =>
      '(calls, st1) ← step e st;
      '(calls', st2) ← run rest st1;
      Some (calls ++ calls', st2)
  end.

(** The states a resolver created by [new HuggingFaceResolver(db)] can be
    in. *)
Definition reachable (st : Resolver) : Prop :=
  exists database events calls, run events (newResolver database) = Some (calls, st).

(** The fetch promises for [repoId] whose request is still unanswered. *)
Definition is_outstanding (repoId : string) (p : FetchPromise) : bool :=
  String.eqb (repo_id p) repoId
  && match settlement p with None => true | Some _ => false end.

Definition outstanding (repoId : string) (st : Resolver) : list FetchPromise :=
  List.filter (is_outstanding repoId) (promises st).

(** The number of network calls issued so far for [repoId]. *)
Definition fetches (repoId : string) (st : Resolver) : nat :=
  length (List.filter (fun e => bool_decide (e = NetFetch repoId)) (io st)).

End HuggingFaceResolver.
Export HuggingFaceResolver.

(** ** Auxiliary definitions used in the statements and proofs *)

(** The curves as functions on the reals, where they are finite. *)
Definition progress (t : R) (p : ModelProfile) : R :=
  (t - degradationOnset p) / (maxTokens p - degradationOnset p).

Definition quality (t : R) (p : ModelProfile) : R :=
  if decide (t <= degradationOnset p) then 1
  else if decide (maxTokens p <= t) then 0.2
  else Rmax 0.2 (1 - progress t p * sqrt (progress t p) * 0.8).

Definition penalty (t : R) (p : ModelProfile) : R :=
  if decide (degradationOnset p < t) then middleLossCoefficient p * progress t p else 0.

Definition retrieval (t : R) (p : ModelProfile) : R :=
  Rmax 0.1 (baseRetrievalAccuracy p * quality t p - penalty t p).

(** The sum [computeHealthScore] clamps and rounds. *)
Definition weightedSum (q r tools minutes : R) : R :=
  q * 40 + r * 25 + toolScore tools + sessionScore minutes.

(** Sample inputs. *)
Definition claude_opus_4 : ModelProfile :=
  mkProfile "Claude Opus 4" 200000 140000 170000 0.25 0.97.

(** What a [config.json] announcing a one-token context window resolves
    to. *)
Definition one_token_profile : ModelProfile := generateHeuristicProfile "org/model" 1.

Definition opus_past_danger : AssessmentInput :=
  {| tokenCount := 195000; model := "claude-opus-4";
     sessionDurationMinutes := None; toolCallsCount := None |}.



(** 85085 tokens against a danger zone of 170000: 50.05 percent. *)
Definition opus_at_a_tie : AssessmentInput :=
  {| tokenCount := 85085; model := "claude-opus-4";
     sessionDurationMinutes := None; toolCallsCount := None |}.

(** A request naming the model "constructor". *)
Definition inherited_name_input (t : R) (minutes tools : option R) : AssessmentInput :=
  {| tokenCount := t; model := "constructor";
     sessionDurationMinutes := minutes; toolCallsCount := tools |}.

(** The integer [Math.round] returns inside the percentage of
    [assessHealth]: the quotient and the product are rounded to binary64
    before it. *)
Definition tenths (t dz : R) : Z :=
  round_half_up (binary64R (binary64R (t / dz) * 1000)).

Definition past_danger_zone : HealthAssessment :=
  {| health_score := Fin 31;
     status := danger;
     token_utilization :=
       {| current := 195000; max_effective := 170000; percentage := Fin 114.7;
          danger_zone_starts_at := 170000 |};
     quality_estimate :=
       {| retrieval_accuracy := poor; middle_content_risk := critical;
          estimated_hallucination_risk := critical |};
     session_fatigue :=
       {| tool_call_burden := low; session_length_risk := low;
          recommendation := "Session fatigue is low. Continue as normal." |} |}.

Definition ladder : list Recommendation :=
  [ rec_immediate_context_reset; rec_compact_context_critical;
    rec_compact_context_high; rec_plan_compaction ].

Definition llama_config : HFConfig :=
  {| max_position_embeddings := JNumber 131072; n_positions := JAbsent;
     max_seq_len := JAbsent |}.

Definition cached_row : CacheRow :=
  {| max_tokens := 8192; profile_json := generateHeuristicProfile "org/model" 8192 |}.

Definition empty_cache : Resolver := newResolver (Some ∅).
Definition warm_cache : Resolver := newResolver (Some {[ "org/model" := cached_row ]}).

Definition two_more_callers : list Event := [ECall "org/model"; ECall "org/model"].
Definition two_callers_plain_name : list Event := [ECall "llama-4"; ECall "llama-4"].

(** The cached row for a key, if there is a database and it has one. *)
Definition cache_lookup (key : string) (st : Resolver) : option CacheRow :=
  table ← db st; table !! key.

(** The state right after the call that starts a fetch for [model]. *)
Definition fetch_started (model : string) (st : Resolver) : Resolver :=
  {| db := db st;
     inFlightRequests := <[model := length (promises st)]> (inFlightRequests st);
     promises := promises st
                 ++ [{| repo_id := model; settlement := None; finalized := false |}];
     io := io (snd (getCached model st)) ++ [NetFetch model] |}.

(** The fetch behind promise [pid], started for [model], is unanswered. *)
Definition Pending (pid : nat) (model : string) (st : Resolver) : Prop :=
  exists p, promises st !! pid = Some p /\ repo_id p = model /\ settlement p = None.

(** What holds in every state the resolver can reach. *)
Record Invariant (st : Resolver) : Prop := {
  inv_in_flight :
    forall pid p, promises st !! pid = Some p -> finalized p = false ->
                  inFlightRequests st !! repo_id p = Some pid;
  inv_pending_not_cached :
    forall pid p, promises st !! pid = Some p -> settlement p = None ->
                  cache_lookup (repo_id p) st = None;
  inv_pending_not_finalized :
    forall pid p, promises st !! pid = Some p -> settlement p = None ->
                  finalized p = false;
  inv_fulfilled :
    forall pid p c, promises st !! pid = Some p -> settlement p = Some c ->
                    exists v, c = Normal v
}.


(** Definitions used by the further properties below. *)

(** [a] may stand before [b] in a sorted array. *)
Definition rec_le (a b : Recommendation) : Prop := (compareRecs a b <= 0)%Z.

(** The key [compareRecs] orders by. *)
Definition rec_key (a : Recommendation) : Z * Z :=
  (priorityWeight (priority a), (- estimated_quality_gain a)%Z).

(** No two entries of a list compare equal. *)
Definition no_ties (l : list Recommendation) : bool :=
  bool_decide (NoDup (rec_key <$> l)).

(** [pushedRecs] as a function of what the utilization chain pushed and of
    the four risk levels. *)
Definition pushes (u : list Recommendation) (m t s h : RiskLevel) : list Recommendation :=
  let recs :=
    u ++ riskRecs m rec_offload_to_memory ++ riskRecs t rec_break_into_subtasks
      ++ riskRecs s rec_session_checkpoint ++ riskRecs h rec_verify_outputs in
  if bool_decide (length recs = 0%nat) then recs ++ [rec_continue] else recs.

Definition utilization_options : list (list Recommendation) :=
  [ [rec_immediate_context_reset]; [rec_compact_context_critical];
    [rec_compact_context_high]; [rec_plan_compaction]; [] ].

(** At least one and at most five entries; gains within [0, 40]; only
    [continue] has priority low; and [continue] stands alone. *)
Definition well_shaped (l : list Recommendation) : bool :=
  bool_decide (1 <= length l <= 5)%nat
  && forallb (fun x => bool_decide (0 <= estimated_quality_gain x <= 40)%Z
                       && (bool_decide (priority x <> prio_low)
                           || bool_decide (x = rec_continue))) l
  && (bool_decide (rec_continue ∉ l) || bool_decide (l = [rec_continue])).

(** The four risk levels in increasing order. *)
Definition risk_rank (r : RiskLevel) : nat :=
  match r with low => 0 | moderate => 1 | high => 2 | critical => 3 end.

(** The worse of two risk levels. *)
Definition worse (a b : RiskLevel) : RiskLevel :=
  if decide (risk_rank a <= risk_rank b)%nat then b else a.

Definition opus_mid_session : AssessmentInput :=
  {| tokenCount := 150000; model := "claude-opus-4";
     sessionDurationMinutes := Some 30; toolCallsCount := Some 10 |}.

Definition opus_late_session : AssessmentInput :=
  {| tokenCount := 195000; model := "claude-opus-4";
     sessionDurationMinutes := Some 120; toolCallsCount := Some 40 |}.

(** [parts.join("/")] *)
Fixpoint join_slash (parts : list string) : string :=
  match parts with
  | [] => EmptyString
  | [s] => s
  | s :: rest => String.append s (String "/" (join_slash rest))
  end.

Fixpoint has_slash (s : string) : bool :=
  match s with
  | EmptyString => false
  | String c rest => Ascii.eqb c "/"%char || has_slash rest
  end.

(** Every entry of the in-flight map points to a promise for its key whose
    [finally] block has not run. *)
Definition InFlightLive (st : Resolver) : Prop :=
  forall k pid, inFlightRequests st !! k = Some pid ->
                exists p, promises st !! pid = Some p /\ repo_id p = k
                          /\ finalized p = false.




(** * Properties *)

(** ** Arithmetic on finite numbers *)

Section NumFacts.

Lemma ndiv_fin (x y : R) : y <> 0 -> (Fin x / Fin y)%num = Fin (x / y).
Proof. intros Hy. unfold ndiv. destruct (decide (y = 0)); [contradiction | reflexivity]. Qed.

Lemma nsub_fin (x y : R) : (Fin x - Fin y)%num = Fin (x - y).
Proof. reflexivity. Qed.

Lemma nadd_fin (x y : R) : (Fin x + Fin y)%num = Fin (x + y).
Proof. reflexivity. Qed.

Lemma nmul_fin (x y : R) : (Fin x * Fin y)%num = Fin (x * y).
Proof. reflexivity. Qed.

Lemma nle_fin (x y : R) : (Fin x <=? Fin y)%num = true <-> x <= y.
Proof. unfold nle. apply bool_decide_eq_true. Qed.

Lemma nle_fin_false (x y : R) : (Fin x <=? Fin y)%num = false <-> y < x.
Proof. unfold nle. rewrite bool_decide_eq_false. lra. Qed.

Lemma nlt_fin (x y : R) : (Fin x <? Fin y)%num = true <-> x < y.
Proof. unfold nlt. apply bool_decide_eq_true. Qed.

Lemma nlt_fin_false (x y : R) : (Fin x <? Fin y)%num = false <-> y <= x.
Proof. unfold nlt. rewrite bool_decide_eq_false. lra. Qed.

Lemma Math_max_fin (x y : R) : Math_max (Fin x) (Fin y) = Fin (Rmax x y).
Proof.
  unfold Math_max, nle. case_bool_decide.
  - now rewrite Rmax_right.
  - rewrite Rmax_left; [reflexivity | lra].
Qed.

Lemma Math_min_fin (x y : R) : Math_min (Fin x) (Fin y) = Fin (Rmin x y).
Proof.
  unfold Math_min, nle. case_bool_decide.
  - now rewrite Rmin_left.
  - rewrite Rmin_right; [reflexivity | lra].
Qed.

Lemma Math_pow_1_5_fin (x : R) : 0 <= x -> Math_pow_1_5 (Fin x) = Fin (x * sqrt x).
Proof. intros Hx. unfold Math_pow_1_5. destruct (decide (x < 0)); [lra | reflexivity]. Qed.

(** [x * sqrt x] is the real power [x ^ 1.5]. *)
Lemma pow_1_5_Rpower (x : R) : 0 < x -> x * sqrt x = Rpower x 1.5.
Proof.
  intros Hx. replace 1.5 with (1 + / 2) by lra.
  rewrite Rpower_plus, Rpower_1, Rpower_sqrt; auto.
Qed.

Lemma pow_1_5_mono (x y : R) : 0 <= x -> x <= y -> x * sqrt x <= y * sqrt y.
Proof.
  intros Hx Hxy.
  apply Rmult_le_compat; [lra | apply sqrt_pos | lra | now apply sqrt_le_1_alt].
Qed.

Lemma pow_1_5_nonneg (x : R) : 0 <= x -> 0 <= x * sqrt x.
Proof. intros Hx. apply Rmult_le_pos; [lra | apply sqrt_pos]. Qed.

End NumFacts.

(** ** binary64 rounding *)

Section Binary64Facts.

Lemma ln_2_pos : 0 < ln 2.
Proof. pose proof ln_lt_2. lra. Qed.

Lemma powerRZ_2_exp (e : Z) : powerRZ 2 e = exp (IZR e * ln 2).
Proof. rewrite powerRZ_Rpower by lra. reflexivity. Qed.

Lemma powerRZ_2_pos (e : Z) : 0 < powerRZ 2 e.
Proof. apply powerRZ_lt. lra. Qed.

Lemma powerRZ_2_plus (a b : Z) : powerRZ 2 (a + b) = powerRZ 2 a * powerRZ 2 b.
Proof. apply powerRZ_add. lra. Qed.

Lemma powerRZ_2_IZR (z : Z) : (0 <= z)%Z -> powerRZ 2 z = IZR (2 ^ z).
Proof.
  intros Hz. rewrite <- (Z2Nat.id z Hz) at 1. rewrite <- pow_powerRZ.
  rewrite pow_IZR. now rewrite Z2Nat.id.
Qed.

Lemma powerRZ_2_Zpos (p : positive) (n : Z) :
  n = (2 ^ Zpos p)%Z -> powerRZ 2 (Zpos p) = IZR n.
Proof. intros ->. apply powerRZ_2_IZR. lia. Qed.

Lemma powerRZ_2_Zneg (p : positive) (n : Z) :
  n = (2 ^ Zpos p)%Z -> powerRZ 2 (Zneg p) = / IZR n.
Proof.
  intros ->. change (Zneg p) with (- Zpos p)%Z.
  rewrite powerRZ_neg', powerRZ_2_IZR by lia. reflexivity.
Qed.

Lemma powerRZ_2_le (a b : Z) : (a <= b)%Z -> powerRZ 2 a <= powerRZ 2 b.
Proof.
  intros Hab. replace b with (a + (b - a))%Z by lia. rewrite powerRZ_2_plus.
  pose proof (powerRZ_2_pos a).
  assert (1 <= powerRZ 2 (b - a)).
  { rewrite powerRZ_2_IZR by lia. apply IZR_le.
    pose proof (Z.pow_pos_nonneg 2 (b - a) ltac:(lia) ltac:(lia)). lia. }
  nra.
Qed.

Lemma powerRZ_2_lt (a b : Z) : (a < b)%Z -> powerRZ 2 a < powerRZ 2 b.
Proof.
  intros Hab. rewrite !powerRZ_2_exp. apply exp_increasing.
  apply Rmult_lt_compat_r; [apply ln_2_pos | now apply IZR_lt].
Qed.

Lemma exponent_bound (x : R) :
  x <> 0 -> powerRZ 2 (exponent x) <= Rabs x < powerRZ 2 (exponent x + 1).
Proof.
  intros Hx. pose proof (Rabs_pos_lt x Hx) as Hpos. pose proof ln_2_pos as H2.
  unfold exponent. set (L := ln (Rabs x) / ln 2).
  pose proof (Zfloor_bound L) as [Hlo Hhi].
  assert (HL : L * ln 2 = ln (Rabs x)) by (unfold L; field; lra).
  assert (Hexp : exp (L * ln 2) = Rabs x) by (rewrite HL; now apply exp_ln).
  rewrite !powerRZ_2_exp, plus_IZR. split.
  - rewrite <- Hexp. destruct Hlo as [Hlt | Heq].
    + left. apply exp_increasing. now apply Rmult_lt_compat_r.
    + right. now rewrite Heq.
  - rewrite <- Hexp. apply exp_increasing. now apply Rmult_lt_compat_r.
Qed.

Lemma exponent_eq (x : R) (e : Z) :
  powerRZ 2 e <= Rabs x < powerRZ 2 (e + 1) -> exponent x = e.
Proof.
  intros [Hlo Hhi]. pose proof (powerRZ_2_pos e) as Hpe.
  assert (Hx : x <> 0) by (intros ->; rewrite Rabs_R0 in Hlo; lra).
  destruct (exponent_bound x Hx) as [Hlo' Hhi'].
  destruct (Z.lt_trichotomy (exponent x) e) as [Hlt | [Heq | Hgt]]; [| exact Heq |].
  - pose proof (powerRZ_2_le (exponent x + 1) e ltac:(lia)). lra.
  - pose proof (powerRZ_2_le (e + 1) (exponent x) ltac:(lia)). lra.
Qed.

Lemma round_half_even_cases (y : R) :
  let f := Zfloor y in
  IZR f <= y < IZR f + 1
  /\ ((round_half_even y = f /\ y - IZR f <= / 2)
      \/ (round_half_even y = (f + 1)%Z /\ / 2 <= y - IZR f)).
Proof.
  intros f. split; [apply Zfloor_bound |]. unfold round_half_even. fold f.
  destruct (decide (y - IZR f < / 2)); [left; split; [reflexivity | lra] |].
  destruct (decide (/ 2 < y - IZR f)); [right; split; [reflexivity | lra] |].
  destruct (Z.even f); [left | right]; split; try reflexivity; lra.
Qed.

Lemma round_half_even_error (y : R) : Rabs (IZR (round_half_even y) - y) <= / 2.
Proof.
  destruct (round_half_even_cases y) as [Hb [[-> H] | [-> H]]];
    rewrite ?plus_IZR; apply Rabs_le; lra.
Qed.

Lemma round_half_even_ge (y : R) (j : Z) : IZR j <= y -> (j <= round_half_even y)%Z.
Proof.
  intros Hj. pose proof (Zfloor_lub j y Hj).
  destruct (round_half_even_cases y) as [_ [[-> _] | [-> _]]]; lia.
Qed.

Lemma round_half_even_le (y : R) (j : Z) : y <= IZR j -> (round_half_even y <= j)%Z.
Proof.
  intros Hj. destruct (round_half_even_cases y) as [[Hlo Hhi] [[-> H] | [-> H]]].
  - apply le_IZR. lra.
  - assert (Hlt : (Zfloor y < j)%Z) by (apply lt_IZR; lra). lia.
Qed.

Lemma round_half_even_eq (y : R) (m : Z) :
  IZR m - / 2 < y < IZR m + / 2 -> round_half_even y = m.
Proof.
  intros [Hlo Hhi].
  destruct (round_half_even_cases y) as [[Flo Fhi] [[-> H] | [-> H]]].
  - assert ((Zfloor y < m + 1)%Z) by (apply lt_IZR; rewrite plus_IZR; lra).
    assert ((m - 1 < Zfloor y)%Z) by (apply lt_IZR; rewrite minus_IZR; lra). lia.
  - assert ((Zfloor y < m)%Z) by (apply lt_IZR; lra).
    assert ((m - 2 < Zfloor y)%Z) by (apply lt_IZR; rewrite minus_IZR; lra). lia.
Qed.

Lemma ulp_eq (x : R) (e : Z) :
  (-1022 <= e)%Z -> powerRZ 2 e <= Rabs x < powerRZ 2 (e + 1) ->
  ulp x = powerRZ 2 (e - 52).
Proof.
  intros He Hx. unfold ulp. rewrite (exponent_eq x e Hx). f_equal. lia.
Qed.

Lemma exponent_normal (x : R) : powerRZ 2 (-1022) <= Rabs x -> (-1022 <= exponent x)%Z.
Proof.
  intros Hx. pose proof (powerRZ_2_pos (-1022)).
  assert (Hne : x <> 0) by (intros ->; rewrite Rabs_R0 in Hx; lra).
  destruct (exponent_bound x Hne) as [_ Hhi].
  destruct (Z_lt_le_dec (exponent x) (-1022)) as [Hlt |]; [| assumption].
  pose proof (powerRZ_2_le (exponent x + 1) (-1022) ltac:(lia)). lra.
Qed.

(** [binary64R] evaluated, once the binade [e] of [x] and the significand
    [m] are known. *)
Lemma binary64R_eval (x : R) (e m : Z) :
  (-1022 <= e)%Z -> powerRZ 2 e <= Rabs x < powerRZ 2 (e + 1) ->
  IZR m - / 2 < x * powerRZ 2 (52 - e) < IZR m + / 2 ->
  binary64R x = IZR m * powerRZ 2 (e - 52).
Proof.
  intros He Hx Hm. pose proof (powerRZ_2_pos e).
  assert (Hne : x <> 0) by (intros ->; rewrite Rabs_R0 in Hx; lra).
  unfold binary64R. destruct (decide (x = 0)); [contradiction |].
  rewrite (ulp_eq x e He Hx).
  replace (x / powerRZ 2 (e - 52)) with (x * powerRZ 2 (52 - e));
    [now rewrite (round_half_even_eq _ m Hm) |].
  replace (52 - e)%Z with (- (e - 52))%Z by lia. now rewrite powerRZ_neg'.
Qed.

(** The relative error of rounding a number of the normal range is at most
    [2^-53]. *)
Lemma binary64R_error (x : R) :
  powerRZ 2 (-1022) <= Rabs x -> Rabs (binary64R x - x) <= Rabs x * powerRZ 2 (-53).
Proof.
  intros Hx. pose proof (powerRZ_2_pos (-1022)).
  assert (Hne : x <> 0) by (intros ->; rewrite Rabs_R0 in Hx; lra).
  pose proof (exponent_normal x Hx) as He.
  destruct (exponent_bound x Hne) as [Hlo Hhi].
  unfold binary64R. destruct (decide (x = 0)); [contradiction |].
  rewrite (ulp_eq x (exponent x) He (conj Hlo Hhi)).
  set (e := exponent x) in *. set (u := powerRZ 2 (e - 52)).
  assert (Hu : 0 < u) by apply powerRZ_2_pos.
  pose proof (round_half_even_error (x / u)) as Herr.
  replace (IZR (round_half_even (x / u)) * u - x)
    with ((IZR (round_half_even (x / u)) - x / u) * u) by (field; lra).
  rewrite Rabs_mult, (Rabs_pos_eq u) by lra.
  assert (Hhalf : u * / 2 = powerRZ 2 e * powerRZ 2 (-53)).
  { unfold u. replace (e - 52)%Z with (e + -53 + 1)%Z by lia.
    rewrite !powerRZ_2_plus. change (powerRZ 2 1) with (2 * 1). field. }
  pose proof (powerRZ_2_pos (-53)).
  apply Rle_trans with (/ 2 * u); [apply Rmult_le_compat_r; lra |].
  rewrite Rmult_comm, Hhalf. apply Rmult_le_compat_r; lra.
Qed.

(** Rounding never crosses a double: a double [j * 2^s] below [x] stays
    below the rounded [x], one above stays above. *)
Lemma binary64R_ge (x : R) (j s : Z) :
  powerRZ 2 (-1022) <= x -> (0 < j < 2 ^ 53)%Z ->
  IZR j * powerRZ 2 s <= x -> IZR j * powerRZ 2 s <= binary64R x.
Proof.
  intros Hx Hj Hg. pose proof (powerRZ_2_pos (-1022)).
  assert (Hne : x <> 0) by lra.
  assert (Habs : Rabs x = x) by (apply Rabs_pos_eq; lra).
  pose proof (exponent_normal x ltac:(rewrite Habs; exact Hx)) as He.
  destruct (exponent_bound x Hne) as [Hlo Hhi]. rewrite Habs in Hlo, Hhi.
  unfold binary64R. destruct (decide (x = 0)); [contradiction |].
  rewrite (ulp_eq x (exponent x) He ltac:(rewrite Habs; split; assumption)).
  set (e := exponent x) in *. set (u := powerRZ 2 (e - 52)).
  assert (Hu : 0 < u) by apply powerRZ_2_pos.
  assert (Hxu : x / u * u = x) by (field; lra).
  destruct (Z_le_gt_dec (e - 52) s) as [Hs | Hs].
  - assert (Hgrid : IZR j * powerRZ 2 s = IZR (j * 2 ^ (s - (e - 52))) * u).
    { rewrite mult_IZR, <- powerRZ_2_IZR by lia. unfold u.
      rewrite Rmult_assoc, <- powerRZ_2_plus. do 2 f_equal. lia. }
    rewrite Hgrid in *. apply Rmult_le_compat_r; [lra |].
    apply IZR_le, round_half_even_ge.
    apply (Rmult_le_reg_r u); [exact Hu |]. lra.
  - assert (Hbig : IZR (2 ^ 52) * u = powerRZ 2 e).
    { rewrite <- powerRZ_2_IZR by lia. unfold u. rewrite <- powerRZ_2_plus.
      f_equal. lia. }
    assert (Hsmall : IZR j * powerRZ 2 s <= powerRZ 2 e).
    { pose proof (powerRZ_2_pos s).
      assert (IZR j <= powerRZ 2 53)
        by (rewrite powerRZ_2_IZR by lia; apply IZR_le; lia).
      pose proof (powerRZ_2_le (53 + s) e ltac:(lia)) as Hle.
      rewrite powerRZ_2_plus in Hle.
      apply Rle_trans with (powerRZ 2 53 * powerRZ 2 s); [| exact Hle].
      apply Rmult_le_compat_r; lra. }
    apply Rle_trans with (powerRZ 2 e); [exact Hsmall |].
    rewrite <- Hbig. apply Rmult_le_compat_r; [lra |].
    apply IZR_le, round_half_even_ge.
    apply (Rmult_le_reg_r u); [exact Hu |]. lra.
Qed.

Lemma binary64R_le (x : R) (j s : Z) :
  powerRZ 2 (-1022) <= x -> (0 < j < 2 ^ 53)%Z ->
  x <= IZR j * powerRZ 2 s -> binary64R x <= IZR j * powerRZ 2 s.
Proof.
  intros Hx Hj Hg. pose proof (powerRZ_2_pos (-1022)).
  assert (Hne : x <> 0) by lra.
  assert (Habs : Rabs x = x) by (apply Rabs_pos_eq; lra).
  pose proof (exponent_normal x ltac:(rewrite Habs; exact Hx)) as He.
  destruct (exponent_bound x Hne) as [Hlo Hhi]. rewrite Habs in Hlo, Hhi.
  unfold binary64R. destruct (decide (x = 0)); [contradiction |].
  rewrite (ulp_eq x (exponent x) He ltac:(rewrite Habs; split; assumption)).
  set (e := exponent x) in *. set (u := powerRZ 2 (e - 52)).
  assert (Hu : 0 < u) by apply powerRZ_2_pos.
  assert (Hxu : x / u * u = x) by (field; lra).
  destruct (Z_le_gt_dec (e - 52) s) as [Hs | Hs].
  - assert (Hgrid : IZR j * powerRZ 2 s = IZR (j * 2 ^ (s - (e - 52))) * u).
    { rewrite mult_IZR, <- powerRZ_2_IZR by lia. unfold u.
      rewrite Rmult_assoc, <- powerRZ_2_plus. do 2 f_equal. lia. }
    rewrite Hgrid in *. apply Rmult_le_compat_r; [lra |].
    apply IZR_le, round_half_even_le.
    apply (Rmult_le_reg_r u); [exact Hu |]. lra.
  - exfalso. pose proof (powerRZ_2_pos s).
    assert (IZR j < powerRZ 2 53)
      by (rewrite powerRZ_2_IZR by lia; apply IZR_lt; lia).
    pose proof (powerRZ_2_le (53 + s) e ltac:(lia)) as Hle.
    rewrite powerRZ_2_plus in Hle.
    assert (IZR j * powerRZ 2 s < powerRZ 2 53 * powerRZ 2 s)
      by (apply Rmult_lt_compat_r; lra).
    lra.
Qed.

End Binary64Facts.

(** Replaces the powers of two of a goal by their values. *)
Ltac pow2 :=
  repeat match goal with
         | |- context [powerRZ 2 ?z] =>
             lazymatch z with
             | Z0 => fail
             | Zpos _ => fail
             | Zneg _ => fail
             | _ => let z' := eval vm_compute in z in
                    change (powerRZ 2 z) with (powerRZ 2 z')
             end
         end;
  repeat match goal with
         | |- context [powerRZ 2 (Zpos ?p)] =>
             let n := eval vm_compute in (2 ^ Zpos p)%Z in
             rewrite (powerRZ_2_Zpos p n eq_refl)
         | |- context [powerRZ 2 (Zneg ?p)] =>
             let n := eval vm_compute in (2 ^ Zpos p)%Z in
             rewrite (powerRZ_2_Zneg p n eq_refl)
         | |- context [powerRZ 2 0] => rewrite powerRZ_O
         end.

Section Binary64Values.

(** Numbers from [2^-64] up are normal. *)
Lemma normal_range (x : R) : / 18446744073709551616 <= x -> powerRZ 2 (-1022) <= x.
Proof.
  intros Hx. pose proof (powerRZ_2_le (-1022) (-64) ltac:(lia)) as Hle.
  assert (H64 : powerRZ 2 (-64) = / 18446744073709551616) by (pow2; reflexivity).
  lra.
Qed.

Lemma binary64R_bounds (x : R) :
  / 18446744073709551616 <= x ->
  x * (1 - / 9007199254740992) <= binary64R x <= x * (1 + / 9007199254740992).
Proof.
  intros Hx. pose proof (normal_range x Hx) as Hn.
  pose proof (binary64R_error x) as Herr. rewrite (Rabs_pos_eq x) in Herr by lra.
  specialize (Herr Hn).
  assert (H53 : powerRZ 2 (-53) = / 9007199254740992) by (pow2; reflexivity).
  rewrite H53 in Herr. revert Herr. unfold Rabs. destruct (Rcase_abs _); lra.
Qed.

(** Numbers up to [10^19] are far from overflow. *)
Lemma binary64_finite (x : R) :
  / 18446744073709551616 <= x -> x <= 10000000000000000000 ->
  binary64 x = Fin (binary64R x).
Proof.
  intros Hlo Hhi. pose proof (binary64R_bounds x Hlo) as [B1 B2].
  unfold binary64. cbv zeta.
  destruct (decide (powerRZ 2 1024 <= Rabs (binary64R x))) as [Hov |]; [| reflexivity].
  exfalso. rewrite Rabs_pos_eq in Hov by lra.
  pose proof (powerRZ_2_le 65 1024 ltac:(lia)) as Hle.
  assert (H65 : powerRZ 2 65 = 36893488147419103232) by (pow2; reflexivity).
  lra.
Qed.

Lemma binary64_zero : binary64 0 = Fin 0.
Proof.
  unfold binary64, binary64R. destruct (decide (0 = 0)); [| lra]. cbv zeta.
  destruct (decide (powerRZ 2 1024 <= Rabs 0)) as [Hov |]; [| reflexivity].
  exfalso. rewrite Rabs_R0 in Hov. pose proof (powerRZ_2_pos 1024). lra.
Qed.

(** The literals [0.65] and [0.80] as doubles. *)
Lemma binary64R_0_65 : binary64R 0.65 = 5854679515581645 / 9007199254740992.
Proof.
  rewrite (binary64R_eval 0.65 (-1) 5854679515581645); [pow2; lra | lia | |].
  - rewrite Rabs_pos_eq by lra. pow2. lra.
  - pow2. lra.
Qed.

Lemma binary64R_0_80 : binary64R 0.80 = 7205759403792794 / 9007199254740992.
Proof.
  rewrite (binary64R_eval 0.80 (-1) 7205759403792794); [pow2; lra | lia | |].
  - rewrite Rabs_pos_eq by lra. pow2. lra.
  - pow2. lra.
Qed.

(** A product by a rounded constant, rounded. *)
Lemma rounded_product_bounds (x c : R) :
  / 2147483648 <= x -> / 2147483648 <= c ->
  x * c * (1 - / 2251799813685248)
  <= binary64R (x * binary64R c)
  <= x * c * (1 + / 2251799813685248).
Proof.
  intros Hx Hc.
  pose proof (binary64R_bounds c ltac:(lra)) as [C1 C2].
  set (c' := binary64R c) in *.
  assert (Hp : / 2147483648 * / 2147483648 <= x * c) by nra.
  assert (Hxc1 : x * c * (1 - / 9007199254740992) <= x * c').
  { replace (x * c * (1 - / 9007199254740992))
      with (x * (c * (1 - / 9007199254740992))) by ring.
    apply Rmult_le_compat_l; lra. }
  assert (Hxc2 : x * c' <= x * c * (1 + / 9007199254740992)).
  { replace (x * c * (1 + / 9007199254740992))
      with (x * (c * (1 + / 9007199254740992))) by ring.
    apply Rmult_le_compat_l; lra. }
  assert (Hsmall : / 18446744073709551616 <= x * c') by lra.
  pose proof (binary64R_bounds (x * c') Hsmall) as [P1 P2].
  set (y := binary64R (x * c')) in *. set (P := x * c) in *. set (A := x * c') in *.
  lra.
Qed.

End Binary64Values.

(** ** The degradation curves *)

Lemma progress_range t p :
  degradationOnset p < t -> t < maxTokens p -> 0 < progress t p < 1.
Proof.
  intros H1 H2. unfold progress.
  assert (Hr : 0 < maxTokens p - degradationOnset p) by lra.
  split.
  - apply Rdiv_lt_0_compat; lra.
  - apply (Rmult_lt_reg_r (maxTokens p - degradationOnset p)); [lra |].
    unfold Rdiv. rewrite Rmult_assoc, Rinv_l by lra. lra.
Qed.

Lemma progress_mono t1 t2 p :
  degradationOnset p < maxTokens p -> t1 <= t2 -> progress t1 p <= progress t2 p.
Proof.
  intros Hr H. unfold progress, Rdiv.
  apply Rmult_le_compat_r; [| lra].
  left. apply Rinv_0_lt_compat. lra.
Qed.

Lemma calculateQualityMultiplier_real t p :
  calculateQualityMultiplier t p = Fin (quality t p).
Proof.
  unfold calculateQualityMultiplier, quality, nge.
  destruct (decide (t <= degradationOnset p)) as [H1 | H1].
  - apply nle_fin in H1. now rewrite H1.
  - assert (H1' : degradationOnset p < t) by lra.
    apply nle_fin_false in H1'. rewrite H1'. apply nle_fin_false in H1'.
    destruct (decide (maxTokens p <= t)) as [H2 | H2].
    + apply nle_fin in H2. now rewrite H2.
    + assert (H2' : t < maxTokens p) by lra.
      apply nle_fin_false in H2'. rewrite H2'. apply nle_fin_false in H2'.
      pose proof (progress_range t p H1' H2') as Hp.
      rewrite !nsub_fin, ndiv_fin by lra. fold (progress t p).
      rewrite Math_pow_1_5_fin by lra.
      now rewrite nmul_fin, nsub_fin, Math_max_fin.
Qed.

Lemma quality_bounds t p : 0.2 <= quality t p <= 1.
Proof.
  unfold quality.
  destruct (decide (t <= degradationOnset p)); [lra |].
  destruct (decide (maxTokens p <= t)); [lra |].
  assert (Hp : 0 < progress t p < 1) by (apply progress_range; lra).
  pose proof (pow_1_5_nonneg (progress t p) ltac:(lra)) as Hn.
  split; [apply Rmax_l |].
  apply Rmax_lub; lra.
Qed.

Lemma quality_mono t1 t2 p : t1 <= t2 -> quality t2 p <= quality t1 p.
Proof.
  intros Hle.
  pose proof (quality_bounds t2 p) as [Hlo2 Hhi2].
  pose proof (quality_bounds t1 p) as [Hlo1 Hhi1].
  unfold quality in *.
  destruct (decide (t1 <= degradationOnset p)) as [H1 | H1]; [exact Hhi2 |].
  destruct (decide (t2 <= degradationOnset p)) as [H2 | H2]; [lra |].
  destruct (decide (maxTokens p <= t2)) as [H3 | H3]; [exact Hlo1 |].
  destruct (decide (maxTokens p <= t1)) as [H4 | H4]; [lra |].
  assert (Hp1 : 0 < progress t1 p < 1) by (apply progress_range; lra).
  pose proof (progress_mono t1 t2 p ltac:(lra) Hle) as Hpm.
  pose proof (pow_1_5_mono (progress t1 p) (progress t2 p) ltac:(lra) Hpm) as Hm.
  apply Rle_max_compat_l. lra.
Qed.

Lemma estimateRetrievalAccuracy_real t p :
  maxTokens p <> degradationOnset p \/ t <= degradationOnset p ->
  estimateRetrievalAccuracy t p = Fin (retrieval t p).
Proof.
  intros Hdom. unfold estimateRetrievalAccuracy, retrieval, penalty, ngt.
  rewrite calculateQualityMultiplier_real.
  destruct (decide (degradationOnset p < t)) as [H | H].
  - apply nlt_fin in H as Hb. rewrite Hb.
    rewrite !nsub_fin, ndiv_fin by (destruct Hdom; lra).
    fold (progress t p).
    now rewrite !nmul_fin, nsub_fin, Math_max_fin.
  - assert (Hb : t <= degradationOnset p) by lra.
    apply nlt_fin_false in Hb. rewrite Hb.
    now rewrite nmul_fin, nsub_fin, Math_max_fin.
Qed.

Lemma retrieval_floor t p : 0.1 <= retrieval t p.
Proof. apply Rmax_l. Qed.

Lemma retrieval_below_onset t p :
  t <= degradationOnset p -> 0.1 <= baseRetrievalAccuracy p ->
  retrieval t p = baseRetrievalAccuracy p.
Proof.
  intros Ht Hb. unfold retrieval, penalty, quality.
  destruct (decide (t <= degradationOnset p)); [| lra].
  destruct (decide (degradationOnset p < t)); [lra |].
  rewrite Rmax_right; lra.
Qed.

Lemma penalty_mono t1 t2 p :
  degradationOnset p < maxTokens p -> 0 <= middleLossCoefficient p ->
  t1 <= t2 -> penalty t1 p <= penalty t2 p.
Proof.
  intros Hr Hc Hle. unfold penalty.
  destruct (decide (degradationOnset p < t1)) as [H1 | H1];
    destruct (decide (degradationOnset p < t2)) as [H2 | H2]; try lra.
  - apply Rmult_le_compat_l; [lra | now apply progress_mono].
  - apply Rmult_le_pos; [lra |].
    unfold progress. apply Rmult_le_pos; [lra |].
    left. apply Rinv_0_lt_compat. lra.
Qed.

Lemma retrieval_mono t1 t2 p :
  degradationOnset p < maxTokens p ->
  0 <= middleLossCoefficient p -> 0 <= baseRetrievalAccuracy p ->
  t1 <= t2 -> retrieval t2 p <= retrieval t1 p.
Proof.
  intros Hr Hc Hb Hle. unfold retrieval.
  apply Rle_max_compat_l.
  pose proof (penalty_mono t1 t2 p Hr Hc Hle).
  pose proof (quality_mono t1 t2 p Hle).
  assert (baseRetrievalAccuracy p * quality t2 p
          <= baseRetrievalAccuracy p * quality t1 p)
    by (apply Rmult_le_compat_l; lra).
  lra.
Qed.

Lemma round_half_up_range (lo hi : Z) (r : R) :
  IZR lo <= r <= IZR hi -> (lo <= round_half_up r <= hi)%Z.
Proof.
  intros [Hlo Hhi]. unfold round_half_up. split.
  - apply Zfloor_lub. lra.
  - pose proof (Zfloor_bound (r + / 2)) as [Hb _].
    assert (Hlt : IZR (Zfloor (r + / 2)) < IZR (hi + 1))
      by (rewrite plus_IZR; lra).
    apply lt_IZR in Hlt. lia.
Qed.

Lemma round_half_up_eq (z : Z) (r : R) :
  IZR z - / 2 <= r < IZR z + / 2 -> round_half_up r = z.
Proof. intros H. unfold round_half_up. apply Zfloor_eq. lra. Qed.

Lemma one_token_profile_eq :
  one_token_profile = mkProfile "org/model" 1 1 1 0.40 0.90.
Proof.
  unfold one_token_profile, generateHeuristicProfile, mkProfile.
  pose proof (rounded_product_bounds 1 0.65 ltac:(lra) ltac:(lra)) as [A1 A2].
  pose proof (rounded_product_bounds 1 0.80 ltac:(lra) ltac:(lra)) as [B1 B2].
  rewrite (round_half_up_eq 1 (binary64R (1 * binary64R 0.65))) by lra.
  rewrite (round_half_up_eq 1 (binary64R (1 * binary64R 0.80))) by lra.
  reflexivity.
Qed.

(** C6, as stated, fails.  The heuristic profile of a one-token context
    window has [degradationOnset = maxTokens = 1]; with one token the
    multiplier is 1 by the first test of the source, not 0.2, although the
    token count has reached [maxTokens]. *)
Lemma quality_multiplier_onset_equals_max :
  (0 < degradationOnset one_token_profile <= maxTokens one_token_profile)
  /\ 0 <= 1 /\ maxTokens one_token_profile <= 1
  /\ calculateQualityMultiplier 1 one_token_profile = Fin 1
  /\ calculateQualityMultiplier 1 one_token_profile <> Fin 0.2.
Proof.
  rewrite one_token_profile_eq.
  rewrite calculateQualityMultiplier_real. unfold quality. simpl.
  destruct (decide (1 <= 1)); [| lra].
  repeat split; try lra. intros H. injection H. lra.
Qed.

(** C6, amended.  For every profile with
    [0 < degradationOnset <= maxTokens] and all token counts
    [0 <= t1 <= t2]: the multiplier does not increase from [t1] to [t2]; it
    is 1 for [t1 <= degradationOnset]; it is 0.2 for [t1 >= maxTokens]
    provided [t1 > degradationOnset] (which only excludes
    [t1 = degradationOnset = maxTokens]); and it lies in [0.2, 1]. *)
Theorem quality_multiplier_curve (p : ModelProfile) (t1 t2 : R) :
  0 < degradationOnset p <= maxTokens p -> 0 <= t1 -> t1 <= t2 ->
  (calculateQualityMultiplier t2 p <=? calculateQualityMultiplier t1 p)%num = true
  /\ (t1 <= degradationOnset p -> calculateQualityMultiplier t1 p = Fin 1)
  /\ (maxTokens p <= t1 -> degradationOnset p < t1 ->
      calculateQualityMultiplier t1 p = Fin 0.2)
  /\ (Fin 0.2 <=? calculateQualityMultiplier t1 p)%num = true
  /\ (calculateQualityMultiplier t1 p <=? Fin 1)%num = true.
Proof.
  intros _ _ Hle. rewrite !calculateQualityMultiplier_real.
  pose proof (quality_bounds t1 p) as [Hlo Hhi].
  repeat split.
  - apply nle_fin. now apply quality_mono.
  - intros H. unfold quality. destruct (decide (t1 <= degradationOnset p)); [reflexivity | lra].
  - intros H1 H2. unfold quality.
    destruct (decide (t1 <= degradationOnset p)); [lra |].
    destruct (decide (maxTokens p <= t1)); [reflexivity | lra].
  - now apply nle_fin.
  - now apply nle_fin.
Qed.

Lemma quality_multiplier_curve_witness :
  (calculateQualityMultiplier 160000 claude_opus_4
     <=? calculateQualityMultiplier 150000 claude_opus_4)%num = true
  /\ (150000 <= degradationOnset claude_opus_4 ->
      calculateQualityMultiplier 150000 claude_opus_4 = Fin 1)
  /\ (maxTokens claude_opus_4 <= 150000 -> degradationOnset claude_opus_4 < 150000 ->
      calculateQualityMultiplier 150000 claude_opus_4 = Fin 0.2)
  /\ (Fin 0.2 <=? calculateQualityMultiplier 150000 claude_opus_4)%num = true
  /\ (calculateQualityMultiplier 150000 claude_opus_4 <=? Fin 1)%num = true.
Proof.
  apply (quality_multiplier_curve claude_opus_4 150000 160000); simpl; lra.
Defined.


Section UntypedFacts.

(** On a profile object the untyped bodies are the typed functions. *)
Lemma Untyped_calculateQualityMultiplier_profile (t : R) (p : ModelProfile) :
  Untyped.calculateQualityMultiplier t (VProfile p) = calculateQualityMultiplier t p.
Proof. reflexivity. Qed.

Lemma Untyped_estimateRetrievalAccuracy_profile (t : R) (p : ModelProfile) :
  Untyped.estimateRetrievalAccuracy t (VProfile p) = estimateRetrievalAccuracy t p.
Proof. reflexivity. Qed.

Lemma Untyped_healthScore_profile (input : AssessmentInput) (p : ModelProfile) :
  Untyped.healthScore input (VProfile p) = health_score (assessHealth input p)
  /\ Untyped.healthStatus input (VProfile p) = status (assessHealth input p).
Proof. split; reflexivity. Qed.

(** On a member inherited from [Object.prototype] every read is
    [undefined]: both comparisons of the multiplier are false, and the
    arithmetic yields [NaN]. *)
Lemma Untyped_calculateQualityMultiplier_inherited (t : R) (key : string) :
  Untyped.calculateQualityMultiplier t (VInherited key) = NaN.
Proof. reflexivity. Qed.

Lemma Untyped_estimateRetrievalAccuracy_inherited (t : R) (key : string) :
  Untyped.estimateRetrievalAccuracy t (VInherited key) = NaN.
Proof. reflexivity. Qed.

Lemma Untyped_healthScore_inherited (input : AssessmentInput) (key : string) :
  Untyped.healthScore input (VInherited key) = NaN.
Proof. reflexivity. Qed.

Lemma getModelProfile_constructor :
  getModelProfile "constructor" = VInherited "constructor".
Proof. reflexivity. Qed.

Lemma resolveModelProfile_constructor (st : Resolver) :
  resolveModelProfile "constructor" st = (Returned (VInherited "constructor"), st).
Proof. reflexivity. Qed.

End UntypedFacts.

(** C7, at the failing input.  For the model name "constructor" the lookup
    [MODEL_PROFILES[model]] finds the function every object inherits, and
    [assessHealth] passes it on as the profile.  Its [degradationOnset],
    [maxTokens], [middleLossCoefficient] and [baseRetrievalAccuracy] are
    [undefined], so for every token count the estimate is
    [Math.max(0.1, NaN)], which is [NaN], and [0.1 <= NaN] is false: the
    floor does not hold. *)
Theorem retrieval_accuracy_not_a_number (t : R) :
  getModelProfile "constructor" = VInherited "constructor"
  /\ Untyped.estimateRetrievalAccuracy t (getModelProfile "constructor") = NaN
  /\ (Fin 0.1 <=? Untyped.estimateRetrievalAccuracy t (getModelProfile "constructor"))%num
     = false.
Proof.
  rewrite getModelProfile_constructor, Untyped_estimateRetrievalAccuracy_inherited.
  repeat split.
Qed.

(** C10.  For every profile with [0 < degradationOnset < maxTokens],
    [middleLossCoefficient >= 0] and [baseRetrievalAccuracy >= 0], the
    retrieval estimate does not increase as the token count grows from
    [t1 >= 0] to [t2 >= t1]. *)
Theorem retrieval_accuracy_monotone (p : ModelProfile) (t1 t2 : R) :
  0 < degradationOnset p < maxTokens p ->
  0 <= middleLossCoefficient p -> 0 <= baseRetrievalAccuracy p ->
  0 <= t1 -> t1 <= t2 ->
  (estimateRetrievalAccuracy t2 p <=? estimateRetrievalAccuracy t1 p)%num = true.
Proof.
  intros Hr Hc Hb _ Hle.
  rewrite !estimateRetrievalAccuracy_real by (left; lra).
  apply nle_fin. apply retrieval_mono; lra.
Qed.

Lemma retrieval_accuracy_monotone_witness :
  (estimateRetrievalAccuracy 160000 claude_opus_4
     <=? estimateRetrievalAccuracy 150000 claude_opus_4)%num = true.
Proof.
  apply (retrieval_accuracy_monotone claude_opus_4 150000 160000); simpl; lra.
Defined.

(** Below the onset the estimate is the base accuracy, for every profile:
    the division is not reached. *)
Lemma estimateRetrievalAccuracy_below_onset t p :
  t <= degradationOnset p -> 0.1 <= baseRetrievalAccuracy p ->
  estimateRetrievalAccuracy t p = Fin (baseRetrievalAccuracy p).
Proof.
  intros Ht Hb. rewrite estimateRetrievalAccuracy_real by now right.
  now rewrite retrieval_below_onset.
Qed.

(** The floor of 0.1 holds exactly where the estimate is a number: it
    fails only for [0 * Infinity], that is for
    [maxTokens = degradationOnset < t] with a zero coefficient. *)
Lemma estimateRetrievalAccuracy_floor_iff t p :
  (Fin 0.1 <=? estimateRetrievalAccuracy t p)%num = true
  <-> ~ (maxTokens p = degradationOnset p /\ degradationOnset p < t
         /\ middleLossCoefficient p = 0).
Proof.
  destruct (decide (maxTokens p = degradationOnset p /\ degradationOnset p < t))
    as [[Heq Hlt] | Hdom].
  - unfold estimateRetrievalAccuracy, ngt.
    rewrite calculateQualityMultiplier_real.
    apply nlt_fin in Hlt as Hb. rewrite Hb. rewrite !nsub_fin, nmul_fin.
    unfold ndiv. destruct (decide (maxTokens p - degradationOnset p = 0)); [| lra].
    unfold by_sign at 1. destruct (decide (0 < t - degradationOnset p)); [| lra].
    unfold nmul, by_sign.
    destruct (decide (0 < middleLossCoefficient p)).
    { split; [intros _ (_ & _ & H0); lra |].
      intros _. cbn. apply bool_decide_eq_true. lra. }
    destruct (decide (middleLossCoefficient p < 0)).
    { split; [intros _ (_ & _ & H0); lra |]. intros _. reflexivity. }
    split; [discriminate |]. intros H. exfalso. apply H. repeat split; lra.
  - rewrite estimateRetrievalAccuracy_real.
    + split; [tauto |]. intros _. apply nle_fin, retrieval_floor.
    + destruct (decide (maxTokens p = degradationOnset p)); [right | left; assumption].
      destruct (decide (degradationOnset p < t)); [tauto | lra].
Qed.

(** ** The health score *)

Lemma toolScore_buckets (c : R) :
  (c <= 5 -> toolScore c = 20) /\ (5 < c <= 15 -> toolScore c = 15)
  /\ (15 < c <= 30 -> toolScore c = 8) /\ (30 < c -> toolScore c = 3).
Proof.
  unfold toolScore, nle. repeat split; intros H; repeat case_bool_decide; lra.
Qed.

Lemma sessionScore_buckets (m : R) :
  (m <= 15 -> sessionScore m = 15) /\ (15 < m <= 45 -> sessionScore m = 12)
  /\ (45 < m <= 90 -> sessionScore m = 6) /\ (90 < m -> sessionScore m = 2).
Proof.
  unfold sessionScore, nle. repeat split; intros H; repeat case_bool_decide; lra.
Qed.

Lemma computeHealthScore_finite (q r tools minutes : R) :
  let n := round_half_up (Rmax 0 (Rmin 100 (weightedSum q r tools minutes))) in
  computeHealthScore (Fin q) (Fin r) tools minutes = Fin (IZR n) /\ (0 <= n <= 100)%Z.
Proof.
  intros n. split.
  - unfold computeHealthScore.
    now rewrite !nmul_fin, !nadd_fin, Math_min_fin, Math_max_fin.
  - apply round_half_up_range. split.
    + apply Rmax_l.
    + apply Rmax_lub; [lra | apply Rmin_l].
Qed.

Lemma scoreToStatus_integer (n : Z) :
  (scoreToStatus (Fin (IZR n)) = healthy <-> (70 <= n)%Z)
  /\ (scoreToStatus (Fin (IZR n)) = warning <-> (40 <= n < 70)%Z)
  /\ (scoreToStatus (Fin (IZR n)) = danger <-> (n < 40)%Z).
Proof.
  unfold scoreToStatus, nge, nle.
  repeat case_bool_decide;
    repeat match goal with
           | H : _ <= IZR n |- _ => apply le_IZR in H
           | H : ~ (_ <= IZR n) |- _ => apply Rnot_le_lt, lt_IZR in H
           end;
    repeat split; intros; try discriminate; try lia; reflexivity.
Qed.

(** Wherever the retrieval estimate is a number, the score is the weighted
    sum clamped to [0, 100] and rounded, an integer of that range, and the
    status follows the thresholds 70 and 40. *)
Lemma health_score_of_numbers (input : AssessmentInput) (p : ModelProfile) :
  maxTokens p <> degradationOnset p \/ tokenCount input <= degradationOnset p ->
  let tools := default 0 (toolCallsCount input) in
  let minutes := default 0 (sessionDurationMinutes input) in
  let n := round_half_up
             (Rmax 0 (Rmin 100 (weightedSum (quality (tokenCount input) p)
                                            (retrieval (tokenCount input) p)
                                            tools minutes))) in
  health_score (assessHealth input p) = Fin (IZR n)
  /\ (0 <= n <= 100)%Z
  /\ (status (assessHealth input p) = healthy <-> (70 <= n)%Z)
  /\ (status (assessHealth input p) = warning <-> (40 <= n < 70)%Z)
  /\ (status (assessHealth input p) = danger <-> (n < 40)%Z).
Proof.
  intros Hdom tools minutes n. unfold assessHealth.
  cbn [health_score status].
  rewrite calculateQualityMultiplier_real, estimateRetrievalAccuracy_real by assumption.
  destruct (computeHealthScore_finite (quality (tokenCount input) p)
              (retrieval (tokenCount input) p) tools minutes) as [Heq Hrange].
  fold tools minutes. rewrite Heq. fold n.
  split; [reflexivity |]. split; [exact Hrange |]. apply scoreToStatus_integer.
Qed.

(** C3, at the failing input.  A request for the model "constructor" gets,
    with or without a resolver, the function every object inherits as its
    profile.  Whatever the token count, the duration and the tool calls,
    the multiplier and the retrieval estimate are [NaN], so the health
    score is [NaN]: not an integer of [0, 100]; and the status is [danger]
    although [score < 40] is false. *)
Theorem health_score_not_a_number (t : R) (minutes tools : option R) (st : Resolver) :
  let input := inherited_name_input t minutes tools in
  getModelProfile (model input) = VInherited "constructor"
  /\ resolveModelProfile (model input) st = (Returned (VInherited "constructor"), st)
  /\ Untyped.healthScore input (getModelProfile (model input)) = NaN
  /\ Untyped.healthStatus input (getModelProfile (model input)) = danger
  /\ (Untyped.healthScore input (getModelProfile (model input)) <? 40)%num = false
  /\ (0 <=? Untyped.healthScore input (getModelProfile (model input)))%num = false.
Proof.
  intros input. unfold input, inherited_name_input. cbn [model].
  rewrite getModelProfile_constructor. unfold Untyped.healthStatus.
  rewrite Untyped_healthScore_inherited.
  split; [reflexivity |]. split; [apply resolveModelProfile_constructor |].
  repeat split.
Qed.

(** ** The percentage, in binary64 *)

Section PercentageFacts.

Lemma round_half_up_bounds (x : R) :
  x - / 2 < IZR (round_half_up x) <= x + / 2.
Proof.
  unfold round_half_up. pose proof (Zfloor_bound (x + / 2)) as [H1 H2]. lra.
Qed.

Lemma quotient_range (t dz : R) :
  1 <= t <= 1000000000000000 -> 1 <= dz <= 1000000000000000 ->
  / 1000000000000000 <= t / dz <= 1000000000000000.
Proof.
  intros Ht Hdz.
  assert (Hinv : / 1000000000000000 <= / dz <= 1).
  { split; [apply Rinv_le_contravar; lra |].
    rewrite <- Rinv_1. apply Rinv_le_contravar; lra. }
  unfold Rdiv. split; nra.
Qed.

(** The product inside [Math.round], within a relative [2^-51] of the
    exact one. *)
Lemma scaled_quotient_bounds (t dz : R) :
  1 <= t <= 1000000000000000 -> 1 <= dz <= 1000000000000000 ->
  let y := binary64R (binary64R (t / dz) * 1000) in
  t / dz * 1000 * (1 - / 2251799813685248) <= y
  /\ y <= t / dz * 1000 * (1 + / 2251799813685248).
Proof.
  intros Ht Hdz y. pose proof (quotient_range t dz Ht Hdz) as [Q1 Q2].
  pose proof (binary64R_bounds (t / dz) ltac:(lra)) as [A1 A2].
  set (q := t / dz) in *. set (q' := binary64R q) in *.
  pose proof (binary64R_bounds (q' * 1000) ltac:(lra)) as [B1 B2].
  fold y in B1, B2. lra.
Qed.

Lemma percentage_tenths (input : AssessmentInput) (p : ModelProfile) :
  1 <= tokenCount input <= 1000000000000000 ->
  1 <= dangerZone p <= 1000000000000000 ->
  percentage (token_utilization (assessHealth input p))
  = binary64 (IZR (tenths (tokenCount input) (dangerZone p)) / 10).
Proof.
  intros Ht Hdz. pose proof (quotient_range _ _ Ht Hdz) as [Q1 Q2].
  unfold assessHealth. cbn [percentage token_utilization].
  unfold fdiv at 2. rewrite ndiv_fin by lra. cbn [rounded].
  pose proof (binary64R_bounds (tokenCount input / dangerZone p) ltac:(lra)) as [A1 A2].
  rewrite binary64_finite by lra.
  unfold fmul. rewrite nmul_fin. cbn [rounded].
  rewrite binary64_finite by lra.
  cbn [Math_round]. unfold fdiv. rewrite ndiv_fin by lra. reflexivity.
Qed.

Lemma tenths_error (t dz : R) :
  1 <= t <= 1000000000000000 -> 1 <= dz <= 1000000000000000 ->
  Rabs (IZR (tenths t dz) - t / dz * 1000)
  <= / 2 + t / dz * 1000 / 2251799813685248.
Proof.
  intros Ht Hdz. pose proof (quotient_range t dz Ht Hdz) as [Q1 Q2].
  destruct (scaled_quotient_bounds t dz Ht Hdz) as [B1 B2].
  unfold tenths. set (y := binary64R (binary64R (t / dz) * 1000)) in *.
  pose proof (round_half_up_bounds y) as He.
  apply Rabs_le. lra.
Qed.

(** Away from the ties, [Math.round] sees through the two roundings. *)
Lemma tenths_away_from_ties (t dz : R) (m : Z) :
  1 <= t <= 1000000000000000 -> 1 <= dz <= 1000000000000000 ->
  IZR m - / 2 <= t / dz * 1000 - t / dz * 1000 / 2251799813685248 ->
  t / dz * 1000 + t / dz * 1000 / 2251799813685248 < IZR m + / 2 ->
  tenths t dz = m.
Proof.
  intros Ht Hdz Hlo Hhi.
  destruct (scaled_quotient_bounds t dz Ht Hdz) as [B1 B2].
  unfold tenths. apply round_half_up_eq. lra.
Qed.

(** Evaluates one rounding: the binade and the significand are given. *)
Lemma binary64_value (x v : R) (e m : Z) :
  (-1022 <= e < 1023)%Z -> 0 < x ->
  powerRZ 2 e <= x < powerRZ 2 (e + 1) ->
  IZR m - / 2 < x * powerRZ 2 (52 - e) < IZR m + / 2 ->
  v = IZR m * powerRZ 2 (e - 52) ->
  binary64R x = v /\ binary64 x = Fin v.
Proof.
  intros He Hx Hb Hm ->.
  assert (Hr : binary64R x = IZR m * powerRZ 2 (e - 52)).
  { apply binary64R_eval; [lia | | exact Hm]. rewrite Rabs_pos_eq by lra. exact Hb. }
  split; [exact Hr |].
  unfold binary64. cbv zeta. rewrite Hr.
  destruct (decide (powerRZ 2 1024 <= Rabs (IZR m * powerRZ 2 (e - 52)))) as [Hov |];
    [| reflexivity].
  exfalso. pose proof (powerRZ_2_pos (52 - e)) as Hp.
  pose proof (powerRZ_2_pos (e - 52)) as Hp'.
  assert (Hinv : powerRZ 2 (52 - e) * powerRZ 2 (e - 52) = 1).
  { rewrite <- powerRZ_2_plus. replace (52 - e + (e - 52))%Z with 0%Z by lia.
    reflexivity. }
  assert (Hm0 : 0 <= IZR m).
  { assert (Hlt : IZR (-1) < IZR m) by (assert (0 < x * powerRZ 2 (52 - e)) by nra; lra).
    apply lt_IZR in Hlt. apply IZR_le. lia. }
  rewrite Rabs_pos_eq in Hov by nra.
  assert (Hm1 : IZR m <= x * powerRZ 2 (52 - e) + / 2) by lra.
  assert (Hle : IZR m * powerRZ 2 (e - 52) <= x + / 2 * powerRZ 2 (e - 52)) by nra.
  pose proof (powerRZ_2_le (e + 1) 1023 ltac:(lia)).
  pose proof (powerRZ_2_le (e - 52) 1023 ltac:(lia)).
  assert (H1024 : powerRZ 2 1024 = 2 * powerRZ 2 1023).
  { replace 1024%Z with (1 + 1023)%Z by lia. rewrite powerRZ_2_plus.
    change (powerRZ 2 1) with (2 * 1). ring. }
  pose proof (powerRZ_2_pos 1023). lra.
Qed.

End PercentageFacts.

(** Proves [binary64 x = Fin v] from the binade [e] and the significand
    [m] of [x]. *)
Ltac binary64_at e m :=
  apply (binary64_value _ _ e m); [lia | lra | pow2; lra | pow2; lra | pow2; lra].

Section PercentageValues.

Lemma percentage_at_a_tie :
  percentage (token_utilization (assessHealth opus_at_a_tie claude_opus_4)) = Fin 50.
Proof.
  unfold assessHealth, opus_at_a_tie, claude_opus_4, mkProfile.
  cbn [percentage token_utilization tokenCount dangerZone].
  unfold fdiv at 2. rewrite ndiv_fin by lra. cbn [rounded].
  assert (H1 : binary64 (85085 / 170000)
               = Fin (4508103226997866 / 9007199254740992))
    by binary64_at (-1)%Z 4508103226997866%Z.
  rewrite H1. unfold fmul. rewrite nmul_fin. cbn [rounded].
  assert (H2 : binary64 (4508103226997866 / 9007199254740992 * 1000)
               = Fin (8804889115230207 / 17592186044416))
    by binary64_at 8%Z 8804889115230207%Z.
  rewrite H2. cbn [Math_round].
  rewrite (round_half_up_eq 500) by lra.
  unfold fdiv. rewrite ndiv_fin by lra. cbn [rounded].
  binary64_at 5%Z 7036874417766400%Z.
Qed.

Lemma percentage_past_danger :
  percentage (token_utilization (assessHealth opus_past_danger claude_opus_4))
  = binary64 114.7.
Proof.
  unfold assessHealth, opus_past_danger, claude_opus_4, mkProfile.
  cbn [percentage token_utilization tokenCount dangerZone].
  unfold fdiv at 2. rewrite ndiv_fin by lra. cbn [rounded].
  assert (H1 : binary64 (195000 / 170000)
               = Fin (5165893690219098 / 4503599627370496))
    by binary64_at 0%Z 5165893690219098%Z.
  rewrite H1. unfold fmul. rewrite nmul_fin. cbn [rounded].
  assert (H2 : binary64 (5165893690219098 / 4503599627370496 * 1000)
               = Fin (5044818056854588 / 4398046511104))
    by binary64_at 10%Z 5044818056854588%Z.
  rewrite H2. cbn [Math_round].
  rewrite (round_half_up_eq 1147) by lra.
  unfold fdiv. rewrite ndiv_fin by lra. cbn [rounded].
  reflexivity.
Qed.

Lemma binary64_114_7 : binary64 114.7 = Fin (8071294957178061 / 70368744177664).
Proof.
  binary64_at 6%Z 8071294957178061%Z.
Qed.

End PercentageValues.

(** C8, as stated, fails.  At 85085 tokens against a danger zone of 170000
    the exact value of [tokenCount / dangerZone * 1000] is 500.5, which
    rounds to 501 and gives 50.1; the machine quotient is just below
    0.5005, the machine product is 500.49999999999994, [Math.round] gives
    500, and the reported percentage is 50. *)
Lemma percentage_differs_from_exact_formula :
  (Math_round ((tokenCount opus_at_a_tie / dangerZone claude_opus_4) * 1000) / 10)%num
  = Fin 50.1
  /\ percentage (token_utilization (assessHealth opus_at_a_tie claude_opus_4)) = Fin 50
  /\ percentage (token_utilization (assessHealth opus_at_a_tie claude_opus_4))
     <> (Math_round ((tokenCount opus_at_a_tie / dangerZone claude_opus_4) * 1000)
         / 10)%num.
Proof.
  assert (Hexact : (Math_round ((tokenCount opus_at_a_tie / dangerZone claude_opus_4)
                                * 1000) / 10)%num = Fin 50.1).
  { unfold opus_at_a_tie, claude_opus_4, mkProfile. cbn [tokenCount dangerZone].
    rewrite ndiv_fin, nmul_fin by lra. cbn [Math_round].
    rewrite (round_half_up_eq 501) by lra.
    rewrite ndiv_fin by lra. reflexivity. }
  split; [exact Hexact |]. split; [exact percentage_at_a_tie |].
  rewrite Hexact, percentage_at_a_tie. intros [= H]. lra.
Qed.

(** C8, amended.  [max_effective] is the profile's [dangerZone].  For a
    token count and a danger zone between 1 and [10^15] the reported
    percentage is the double nearest to [tenths / 10], where the integer
    [tenths] is within [1/2 + x / 2^51] of the exact
    [x = tokenCount / dangerZone * 1000], and is [x] rounded whenever [x] is
    at least [x / 2^51] away from the ties: the quotient and the product
    are rounded before [Math.round], so next to a tie the result can be
    the tenth below or above the exactly rounded one.  There are inputs with
    [tokenCount > dangerZone] whose percentage exceeds 100 (195000 tokens
    on Claude Opus 4 give the double nearest to 114.7). *)
Theorem token_utilization_percentage :
  (forall (input : AssessmentInput) (p : ModelProfile),
      max_effective (token_utilization (assessHealth input p)) = dangerZone p)
  /\ (forall (input : AssessmentInput) (p : ModelProfile),
         1 <= tokenCount input <= 1000000000000000 ->
         1 <= dangerZone p <= 1000000000000000 ->
         exists tenths : Z,
           percentage (token_utilization (assessHealth input p))
           = binary64 (IZR tenths / 10)
           /\ Rabs (IZR tenths - tokenCount input / dangerZone p * 1000)
              <= / 2 + tokenCount input / dangerZone p * 1000 / 2251799813685248
           /\ (forall m : Z,
                  IZR m - / 2
                  <= tokenCount input / dangerZone p * 1000
                     - tokenCount input / dangerZone p * 1000 / 2251799813685248 ->
                  tokenCount input / dangerZone p * 1000
                  + tokenCount input / dangerZone p * 1000 / 2251799813685248
                  < IZR m + / 2 ->
                  tenths = m))
  /\ (exists (input : AssessmentInput) (p : ModelProfile),
         dangerZone p < tokenCount input
         /\ percentage (token_utilization (assessHealth input p)) = binary64 114.7
         /\ (percentage (token_utilization (assessHealth input p)) >? 100)%num = true).
Proof.
  split; [reflexivity |]. split.
  - intros input p Ht Hdz. exists (tenths (tokenCount input) (dangerZone p)).
    split; [now apply percentage_tenths |]. split; [now apply tenths_error |].
    intros m. now apply tenths_away_from_ties.
  - exists opus_past_danger, claude_opus_4.
    split; [simpl; lra |]. split; [exact percentage_past_danger |].
    rewrite percentage_past_danger, binary64_114_7. apply nlt_fin. lra.
Qed.

Lemma token_utilization_percentage_witness :
  exists tenths : Z,
    percentage (token_utilization (assessHealth opus_at_a_tie claude_opus_4))
    = binary64 (IZR tenths / 10)
    /\ Rabs (IZR tenths - tokenCount opus_at_a_tie / dangerZone claude_opus_4 * 1000)
       <= / 2 + tokenCount opus_at_a_tie / dangerZone claude_opus_4 * 1000
                / 2251799813685248.
Proof.
  destruct (proj1 (proj2 token_utilization_percentage) opus_at_a_tie claude_opus_4)
    as (tenths & Hpct & Herr & _); [simpl; lra | simpl; lra |].
  exists tenths. split; assumption.
Defined.

(** ** Recommendations *)

Section RecommendationFacts.

Lemma sort_insert_elem cmp (x y : Recommendation) (l : list Recommendation) :
  y ∈ sort_insert cmp x l <-> y = x \/ y ∈ l.
Proof.
  induction l as [| z l IH]; cbn [sort_insert].
  - rewrite list_elem_of_singleton, elem_of_nil. tauto.
  - destruct (cmp x z <=? 0)%Z.
    + now rewrite elem_of_cons.
    + rewrite !elem_of_cons, IH. tauto.
Qed.

Lemma Array_sort_elem cmp (l : list Recommendation) (x : Recommendation) :
  x ∈ Array_sort cmp l <-> x ∈ l.
Proof.
  unfold Array_sort. induction l as [| y l IH]; cbn [foldr]; [reflexivity |].
  rewrite sort_insert_elem, elem_of_cons, IH. reflexivity.
Qed.

Lemma riskRecs_elem (risk : RiskLevel) (mk : RiskLevel -> Recommendation)
    (x : Recommendation) :
  x ∈ riskRecs risk mk -> x = mk risk.
Proof.
  unfold riskRecs. destruct (is_high_or_critical risk).
  - now rewrite list_elem_of_singleton.
  - now rewrite elem_of_nil.
Qed.

Lemma pushedRecs_ladder (a : HealthAssessment) (x : Recommendation) :
  x ∈ ladder ->
  x ∈ pushedRecs a <-> x ∈ utilizationRecs (percentage (token_utilization a)).
Proof.
  intros Hx.
  assert (Hact : action x <> "offload_to_memory" /\ action x <> "break_into_subtasks"
                 /\ action x <> "session_checkpoint" /\ action x <> "verify_outputs"
                 /\ x <> rec_continue).
  { unfold ladder in Hx. rewrite !elem_of_cons, elem_of_nil in Hx.
    destruct Hx as [-> | [-> | [-> | [-> | []]]]]; repeat split; discriminate. }
  destruct Hact as (H1 & H2 & H3 & H4 & H5).
  unfold pushedRecs. cbv zeta.
  match goal with
  | |- context [bool_decide ?P] => destruct (bool_decide P)
  end; rewrite !elem_of_app, ?list_elem_of_singleton;
    (split; [| tauto]);
    intros H;
    repeat match type of H with
           | _ \/ _ => destruct H as [H | H]
           end; try assumption; try contradiction.
  all: apply riskRecs_elem in H; subst x; exfalso;
    first [ now apply H1 | now apply H2 | now apply H3 | now apply H4 ].
Qed.

End RecommendationFacts.

Lemma utilizationRecs_past_danger_zone :
  utilizationRecs (Fin 114.7) = [rec_immediate_context_reset].
Proof.
  unfold utilizationRecs, nge.
  assert (H : (Fin 100 <=? Fin 114.7)%num = true) by (apply nle_fin; lra).
  now rewrite H.
Qed.

(** C1, as stated, fails.  An assessment at 114.7 percent yields the
    reset recommendation and none of the three other ladder entries. *)
Lemma ladder_not_all_emitted :
  (percentage (token_utilization past_danger_zone) >=? 100)%num = true
  /\ generateRecommendations past_danger_zone
     = [ rec_immediate_context_reset; rec_offload_to_memory critical;
         rec_verify_outputs critical ]
  /\ (rec_compact_context_critical ∉ generateRecommendations past_danger_zone)
  /\ (rec_compact_context_high ∉ generateRecommendations past_danger_zone)
  /\ (rec_plan_compaction ∉ generateRecommendations past_danger_zone).
Proof.
  assert (Hgen : generateRecommendations past_danger_zone
                 = [ rec_immediate_context_reset; rec_offload_to_memory critical;
                     rec_verify_outputs critical ]).
  { unfold generateRecommendations, pushedRecs, past_danger_zone.
    cbn [percentage token_utilization middle_content_risk quality_estimate
         tool_call_burden session_fatigue session_length_risk
         estimated_hallucination_risk].
    rewrite utilizationRecs_past_danger_zone. vm_compute. reflexivity. }
  split; [apply nle_fin; lra |].
  split; [exact Hgen |].
  rewrite Hgen. rewrite !elem_of_cons, !elem_of_nil.
  repeat split; intros H; repeat destruct H as [H | H]; try discriminate H; exact H.
Qed.

(** C1, amended.  The four utilization triggers form one
    [if ... else if ...] chain: for every assessment, the result contains
    the reset entry (critical, gain 40) exactly when the percentage is at
    least 100; the critical [compact_context] entry (gain 25) exactly when
    it is not but the percentage is at least 80; the high [compact_context]
    entry (gain 15) exactly when neither holds but the percentage is at
    least 60; and [plan_compaction] (medium, gain 5) exactly when none of
    these holds but the percentage is at least 40.  So at most one of the
    four is emitted, the first whose threshold is met. *)
Theorem utilization_ladder_first_match (a : HealthAssessment) :
  let utilPct := percentage (token_utilization a) in
  let recs := generateRecommendations a in
  (rec_immediate_context_reset ∈ recs <-> (utilPct >=? 100)%num = true)
  /\ (rec_compact_context_critical ∈ recs <->
      (utilPct >=? 100)%num = false /\ (utilPct >=? 80)%num = true)
  /\ (rec_compact_context_high ∈ recs <->
      (utilPct >=? 100)%num = false /\ (utilPct >=? 80)%num = false
      /\ (utilPct >=? 60)%num = true)
  /\ (rec_plan_compaction ∈ recs <->
      (utilPct >=? 100)%num = false /\ (utilPct >=? 80)%num = false
      /\ (utilPct >=? 60)%num = false /\ (utilPct >=? 40)%num = true).
Proof.
  intros utilPct recs. unfold recs, generateRecommendations.
  rewrite !Array_sort_elem.
  rewrite !pushedRecs_ladder
    by (unfold ladder; rewrite !elem_of_cons; tauto).
  fold utilPct. unfold utilizationRecs.
  destruct (utilPct >=? 100)%num, (utilPct >=? 80)%num, (utilPct >=? 60)%num,
    (utilPct >=? 40)%num;
    rewrite ?list_elem_of_singleton, ?elem_of_nil;
    repeat split; intros; try discriminate; try tauto;
    repeat match goal with H : _ /\ _ |- _ => destruct H end; discriminate.
Qed.



(** ** The profile catalog *)

Section CatalogFacts.

Lemma own_property_None (o : list (string * ModelProfile)) (key : string) :
  key ∉ map fst o -> own_property o key = None.
Proof.
  induction o as [| [k p] o IH]; cbn [own_property map fst]; [reflexivity |].
  rewrite elem_of_cons. intros Hk.
  destruct (String.eqb_spec k key) as [-> | _]; [tauto |].
  apply IH. tauto.
Qed.

Lemma own_property_Some (o : list (string * ModelProfile)) (key : string) p :
  own_property o key = Some p -> (key, p) ∈ o.
Proof.
  induction o as [| [k q] o IH]; cbn [own_property]; [discriminate |].
  rewrite elem_of_cons.
  destruct (String.eqb_spec k key) as [-> | _].
  - intros [= ->]. now left.
  - intros H. right. now apply IH.
Qed.

Lemma own_other : own_property MODEL_PROFILES "other" = Some other_profile.
Proof. reflexivity. Qed.


Lemma getModelProfile_defined (model : string) : getModelProfile model <> VUndefined.
Proof.
  unfold getModelProfile, get_property at 1.
  destruct (own_property MODEL_PROFILES model); [discriminate |].
  case_bool_decide; discriminate.
Qed.

(** An identifier that is neither a key of the table nor the name of a
    member of [Object.prototype] gets the fallback entry. *)
Lemma getModelProfile_unknown (model : string) :
  model ∉ map fst MODEL_PROFILES -> model ∉ Object_prototype_keys ->
  getModelProfile model = VProfile other_profile.
Proof.
  intros Hown Hproto. unfold getModelProfile, get_property at 1.
  rewrite (own_property_None _ _ Hown).
  rewrite bool_decide_eq_false_2 by assumption.
  reflexivity.
Qed.

Lemma claude_opus_4_in_catalog :
  getModelProfile "claude-opus-4" = VProfile claude_opus_4.
Proof. reflexivity. Qed.

Lemma KNOWN_MODELS_eq :
  KNOWN_MODELS
  = [ "claude-3.5-sonnet"; "claude-3.7-sonnet"; "claude-sonnet-4"; "claude-opus-4";
      "claude-opus-4-5"; "claude-haiku-3.5"; "gpt-4o"; "gpt-4o-mini"; "gpt-4.1";
      "gpt-4.1-mini"; "o3"; "o4-mini"; "gemini-2.0-flash"; "gemini-2.5-pro";
      "gemini-2.5-flash" ].
Proof. reflexivity. Qed.

(** Every curated key maps to its own entry, none of which carries the
    fallback's name. *)
Lemma getModelProfile_known (model : string) :
  model ∈ KNOWN_MODELS ->
  exists p, own_property MODEL_PROFILES model = Some p
            /\ getModelProfile model = VProfile p
            /\ name p <> "Unknown Model".
Proof.
  rewrite KNOWN_MODELS_eq, !elem_of_cons, elem_of_nil.
  intros H.
  repeat destruct H as [-> | H]; try contradiction;
    (eexists; split; [reflexivity | split; [reflexivity | discriminate]]).
Qed.

End CatalogFacts.

(** C9, at the failing input.  "constructor" is not a curated key, yet
    [MODEL_PROFILES["constructor"]] is the function every object inherits
    from [Object.prototype]; it is not nullish, so [??] keeps it and
    [getModelProfile] returns it instead of the fallback profile. *)
Theorem getModelProfile_inherited_key :
  ("constructor" ∉ KNOWN_MODELS)
  /\ getModelProfile "constructor" = VInherited "constructor"
  /\ getModelProfile "constructor" <> VProfile other_profile.
Proof.
  split; [| split; [reflexivity | discriminate]].
  rewrite KNOWN_MODELS_eq, !elem_of_cons, elem_of_nil.
  intros H. repeat destruct H as [H | H]; try discriminate H. exact H.
Qed.



(** ** The resolver, one caller at a time *)

Section ResolverFacts.

Lemma getCached_fields (model : string) (st : Resolver) :
  db (snd (getCached model st)) = db st
  /\ inFlightRequests (snd (getCached model st)) = inFlightRequests st
  /\ promises (snd (getCached model st)) = promises st.
Proof. unfold getCached. destruct (db st) eqn:E; cbn; rewrite ?E; repeat split. Qed.

Lemma getCached_hit (model : string) (st : Resolver) table row :
  db st = Some table -> table !! model = Some row ->
  getCached model st = (Some (profile_json row), log_io (DbSelect model) st).
Proof. intros Hdb Hrow. unfold getCached. now rewrite Hdb, Hrow. Qed.

Lemma getCached_miss (model : string) (st : Resolver) table :
  db st = Some table -> table !! model = None ->
  getCached model st = (None, log_io (DbSelect model) st).
Proof. intros Hdb Hrow. unfold getCached. now rewrite Hdb, Hrow. Qed.

Lemma resolveModelProfile_starts_fetch (model : string) (st : Resolver) :
  name_is_not "Unknown Model" (getModelProfile model) = false ->
  looksLikeHuggingFaceRepoId model = true ->
  fst (getCached model st) = None ->
  inFlightRequests st !! model = None ->
  resolveModelProfile model st
  = (AwaitsFetch (length (promises st)) true, fetch_started model st).
Proof.
  intros H1 H2 H3 H4. unfold resolveModelProfile, fetch_started.
  rewrite H1, H2. cbn [negb].
  destruct (getCached_fields model st) as (Hdb & Hfl & Hpr).
  destruct (getCached model st) as [cached st1].
  cbn [fst snd] in *. subst cached. rewrite Hfl, H4.
  unfold fetchAndCache_start. cbn.
  now rewrite Hdb, Hfl, Hpr.
Qed.

Lemma fetchHuggingFaceConfig_normal (outcome : FetchOutcome) :
  exists m, fetchHuggingFaceConfig outcome = Normal m.
Proof. destruct outcome; eexists; reflexivity. Qed.


Lemma fetchHuggingFaceConfig_success (config : HFConfig) (x : R) :
  max_position_embeddings config = JNumber x -> 0 < x ->
  fetchHuggingFaceConfig (BodyJson config) = Normal (Some x).
Proof.
  intros H Hx. unfold fetchHuggingFaceConfig, try_catch, extractMaxTokens,
    contextLengthField. rewrite H. cbn [json_coalesce].
  apply nle_fin_false in Hx. now rewrite Hx.
Qed.

(** Settling and finalizing the promise a call has just started. *)
Lemma settle_fetch_started (model : string) (outcome : FetchOutcome) (st : Resolver) :
  settle (length (promises st)) outcome (fetch_started model st)
  = let '(result, st1) :=
      fetchAndCache_rest model (fetchHuggingFaceConfig outcome) (fetch_started model st) in
    Some (set_promise (length (promises st))
            {| repo_id := model; settlement := Some result; finalized := false |} st1).
Proof.
  unfold settle. cbn [promises fetch_started].
  rewrite list_lookup_middle by reflexivity. reflexivity.
Qed.

Lemma fetchAndCache_rest_fields repoId fetched (st : Resolver) :
  inFlightRequests (snd (fetchAndCache_rest repoId fetched st)) = inFlightRequests st
  /\ promises (snd (fetchAndCache_rest repoId fetched st)) = promises st.
Proof.
  unfold fetchAndCache_rest, cacheProfile.
  destruct fetched as [[m |] |]; cbn; try (split; reflexivity).
  destruct (db st); split; reflexivity.
Qed.

(** [await resolveModelProfile(model)] when the call has to fetch. *)
Lemma resolveModelProfile_await_fetch (model : string) (outcome : FetchOutcome)
    (st : Resolver) :
  name_is_not "Unknown Model" (getModelProfile model) = false ->
  looksLikeHuggingFaceRepoId model = true ->
  fst (getCached model st) = None ->
  inFlightRequests st !! model = None ->
  resolveModelProfile_await model outcome st
  = let r := fetchAndCache_rest model (fetchHuggingFaceConfig outcome)
               (fetch_started model st) in
    Some (fst r,
          {| db := db (snd r);
             inFlightRequests := inFlightRequests st;
             promises := promises st
                         ++ [{| repo_id := model; settlement := Some (fst r);
                                finalized := true |}];
             io := io (snd r) |}).
Proof.
  intros H1 H2 H3 H4. unfold resolveModelProfile_await.
  rewrite resolveModelProfile_starts_fetch by assumption.
  rewrite settle_fetch_started.
  destruct (fetchAndCache_rest_fields model (fetchHuggingFaceConfig outcome)
              (fetch_started model st)) as [Hfl Hpr].
  destruct (fetchAndCache_rest model (fetchHuggingFaceConfig outcome)
              (fetch_started model st)) as [result st1].
  cbn [fst snd] in *. cbn [mbind option_bind].
  unfold finalize, set_promise. cbn [promises].
  rewrite Hpr. cbn [promises fetch_started].
  assert (Hlen : (length (promises st)
                  < length (promises st ++ [{| repo_id := model; settlement := None;
                                               finalized := false |}]))%nat)
    by (rewrite length_app; cbn; lia).
  rewrite (list_lookup_insert_eq _ _ _ Hlen).
  cbn [settlement finalized repo_id db inFlightRequests io mbind option_bind
       received promises].
  rewrite list_insert_insert_eq.
  rewrite (list_lookup_insert_eq _ _ _ Hlen).
  cbn [settlement mbind option_bind].
  rewrite Hfl. cbn [inFlightRequests fetch_started].
  rewrite delete_insert_eq, delete_id by assumption.
  replace (length (promises st)) with (length (promises st) + 0)%nat at 1 by lia.
  rewrite insert_app_r. reflexivity.
Qed.

End ResolverFacts.



Section ResolutionFacts.

Lemma getModelProfile_unfold (model : string) :
  getModelProfile model
  = match own_property MODEL_PROFILES model with
    | Some p => VProfile p
    | None => if bool_decide (model ∈ Object_prototype_keys) then VInherited model
              else VProfile other_profile
    end.
Proof.
  unfold getModelProfile, get_property at 1.
  destruct (own_property MODEL_PROFILES model); [reflexivity |].
  case_bool_decide; reflexivity.
Qed.

Lemma getModelProfile_cases (model : string) :
  (exists p, own_property MODEL_PROFILES model = Some p
             /\ getModelProfile model = VProfile p)
  \/ (model ∈ Object_prototype_keys /\ getModelProfile model = VInherited model)
  \/ ((model ∉ map fst MODEL_PROFILES) /\ (model ∉ Object_prototype_keys)
      /\ getModelProfile model = VProfile other_profile).
Proof.
  rewrite getModelProfile_unfold.
  destruct (own_property MODEL_PROFILES model) as [p |] eqn:Hown.
  - left. now exists p.
  - right. case_bool_decide; [left; now split | right].
    repeat split; [| assumption].
    intros Hin. apply list_elem_of_fmap in Hin as ([k p] & -> & Hin).
    cbn [fst] in Hown.
    assert (Hsome : is_Some (own_property MODEL_PROFILES k)).
    { clear Hown H. induction MODEL_PROFILES as [| [k' p'] o IH];
        [now apply elem_of_nil in Hin |].
      cbn [own_property]. destruct (String.eqb_spec k' k); [eauto |].
      apply IH. apply elem_of_cons in Hin as [[= -> ->] | Hin]; [congruence | exact Hin]. }
    rewrite Hown in Hsome. now destruct Hsome.
Qed.

(** Only the fallback entry is named "Unknown Model". *)
Lemma unrecognized_is_other (model : string) :
  name_is_not "Unknown Model" (getModelProfile model) = false ->
  getModelProfile model = VProfile other_profile.
Proof.
  destruct (getModelProfile_cases model)
    as [(p & Hown & ->) | [[_ ->] | (_ & _ & ->)]]; [| discriminate | reflexivity].
  apply own_property_Some in Hown. unfold MODEL_PROFILES in Hown.
  rewrite !elem_of_cons, elem_of_nil in Hown.
  repeat destruct Hown as [Hown | Hown]; try contradiction;
    injection Hown as -> ->; cbn; first [discriminate | reflexivity].
Qed.

(** No key of [MODEL_PROFILES] and no member of [Object.prototype] has
    the shape of a repository id. *)
Lemma repo_id_is_unrecognized (model : string) :
  looksLikeHuggingFaceRepoId model = true ->
  name_is_not "Unknown Model" (getModelProfile model) = false.
Proof.
  intros Hshape.
  destruct (getModelProfile_cases model)
    as [(p & Hown & _) | [[Hin _] | (_ & _ & ->)]]; [| | reflexivity]; exfalso.
  - apply own_property_Some in Hown. unfold MODEL_PROFILES in Hown.
    rewrite !elem_of_cons, elem_of_nil in Hown.
    repeat destruct Hown as [Hown | Hown]; try contradiction;
      injection Hown as -> _; discriminate Hshape.
  - unfold Object_prototype_keys in Hin.
    rewrite !elem_of_cons, elem_of_nil in Hin.
    repeat destruct Hin as [-> | Hin]; try contradiction; discriminate Hshape.
Qed.

Lemma fetches_log (repoId : string) (e : IOEvent) (st : Resolver) (events : list IOEvent) :
  io st = events ++ [e] ->
  fetches repoId st
  = (length (List.filter (fun e' => bool_decide (e' = NetFetch repoId)) events)
     + if bool_decide (e = NetFetch repoId) then 1 else 0)%nat.
Proof.
  intros H. unfold fetches. rewrite H, List.filter_app, length_app. cbn.
  destruct (bool_decide (e = NetFetch repoId)); reflexivity.
Qed.

Lemma fetches_log_io_select (repoId key : string) (st : Resolver) :
  fetches repoId (log_io (DbSelect key) st) = fetches repoId st.
Proof.
  rewrite (fetches_log repoId (DbSelect key) _ (io st)) by reflexivity.
  rewrite bool_decide_eq_false_2 by discriminate. unfold fetches. lia.
Qed.

Lemma fetches_fetch_started (repoId model : string) (st : Resolver) :
  fetches repoId (fetch_started model st)
  = (fetches repoId st + if bool_decide (model = repoId) then 1 else 0)%nat.
Proof.
  unfold fetches, fetch_started, getCached. cbn [io].
  destruct (db st); cbn [snd io log_io];
    rewrite !List.filter_app, !length_app; cbn;
    repeat case_bool_decide; try congruence; cbn; lia.
Qed.

End ResolutionFacts.

Section ResolutionOrderFacts.

(** What the catalog lookup gives outside the curated names: the member
    inherited from [Object.prototype] if the identifier names one, else
    the fallback entry. *)
Lemma getModelProfile_not_curated (model : string) :
  model ∉ KNOWN_MODELS ->
  getModelProfile model
  = if bool_decide (model ∈ Object_prototype_keys) then VInherited model
    else VProfile other_profile.
Proof.
  intros Hk.
  destruct (getModelProfile_cases model)
    as [(p & Hown & ->) | [[Hin ->] | (_ & Hout & ->)]].
  - apply own_property_Some in Hown. unfold MODEL_PROFILES in Hown.
    rewrite KNOWN_MODELS_eq in Hk.
    rewrite !elem_of_cons, elem_of_nil in Hown.
    repeat destruct Hown as [Hown | Hown]; try contradiction;
      injection Hown as -> ->;
      first [ reflexivity
            | exfalso; apply Hk; apply (bool_decide_unpack _); vm_compute; exact I ].
  - now rewrite bool_decide_eq_true_2.
  - now rewrite bool_decide_eq_false_2.
Qed.

Lemma llama_window_onset :
  round_half_up (binary64R (131072 * binary64R 0.65)) = 85197%Z.
Proof.
  pose proof (rounded_product_bounds 131072 0.65 ltac:(lra) ltac:(lra)) as [A1 A2].
  apply round_half_up_eq. lra.
Qed.

Lemma llama_window_dangerZone :
  round_half_up (binary64R (131072 * binary64R 0.80)) = 104858%Z.
Proof.
  pose proof (rounded_product_bounds 131072 0.80 ltac:(lra) ltac:(lra)) as [A1 A2].
  apply round_half_up_eq. lra.
Qed.

End ResolutionOrderFacts.

(** C4, at the failing input and elsewhere.  The resolution order of
    [resolveModelProfile]: a curated identifier returns its curated profile
    and leaves the state, hence the cache and the network, untouched; an
    identifier that is not curated and not of the shape [namespace/name]
    returns, state untouched, the fallback profile unless it names a member
    of [Object.prototype], and then that member; a cached repository id
    returns the cached profile with no network call; otherwise, with the
    remote answering [max_position_embeddings = 131072], the awaited call
    returns the heuristic profile (131072, 85197, 104858), the profile is
    in the cache, one request has gone out, and a second call returns the
    cached profile without another request.  "constructor" is such an
    identifier: not curated, not a repository id, and resolved to the
    inherited function instead of the fallback profile. *)
Theorem resolution_order (st : Resolver) (model : string) :
  (model ∈ KNOWN_MODELS ->
   exists p, own_property MODEL_PROFILES model = Some p
             /\ resolveModelProfile model st = (Returned (VProfile p), st))
  /\ (model ∉ KNOWN_MODELS ->
      looksLikeHuggingFaceRepoId model = false ->
      resolveModelProfile model st
      = (Returned (if bool_decide (model ∈ Object_prototype_keys)
                   then VInherited model else VProfile other_profile), st))
  /\ (forall table row,
         looksLikeHuggingFaceRepoId model = true ->
         db st = Some table -> table !! model = Some row ->
         resolveModelProfile model st
         = (Returned (VProfile (profile_json row)), log_io (DbSelect model) st)
         /\ fetches model (log_io (DbSelect model) st) = fetches model st)
  /\ (forall table config,
         looksLikeHuggingFaceRepoId model = true ->
         db st = Some table -> table !! model = None ->
         inFlightRequests st !! model = None ->
         max_position_embeddings config = JNumber 131072 ->
         exists profile st',
           resolveModelProfile_await model (BodyJson config) st
           = Some (Normal (VProfile profile), st')
           /\ name profile = model
           /\ maxTokens profile = 131072
           /\ degradationOnset profile = 85197
           /\ dangerZone profile = 104858
           /\ db st' = Some (<[model := {| max_tokens := 131072;
                                           profile_json := profile |}]> table)
           /\ fetches model st' = S (fetches model st)
           /\ resolveModelProfile model st'
              = (Returned (VProfile profile), log_io (DbSelect model) st')
           /\ fetches model (log_io (DbSelect model) st') = fetches model st')
  /\ (("constructor" ∉ KNOWN_MODELS)
      /\ looksLikeHuggingFaceRepoId "constructor" = false
      /\ resolveModelProfile "constructor" st
         = (Returned (VInherited "constructor"), st)
      /\ VInherited "constructor" <> VProfile other_profile).
Proof.
  split; [| split; [| split; [| split]]].
  - intros Hk. destruct (getModelProfile_known model Hk) as (p & Hown & Hget & Hname).
    exists p. split; [exact Hown |].
    unfold resolveModelProfile. rewrite Hget. cbn [name_is_not].
    apply String.eqb_neq in Hname. now rewrite Hname.
  - intros Hk H2. unfold resolveModelProfile.
    rewrite (getModelProfile_not_curated model Hk), H2.
    case_bool_decide; reflexivity.
  - intros table row H2 Hdb Hrow. split; [| apply fetches_log_io_select].
    pose proof (repo_id_is_unrecognized model H2) as H1.
    unfold resolveModelProfile. rewrite H1, H2. cbn [negb].
    now rewrite (getCached_hit model st table row).
  - intros table config H2 Hdb Hmiss Hfl Hcfg.
    pose proof (repo_id_is_unrecognized model H2) as H1.
    set (profile := generateHeuristicProfile model 131072).
    assert (Hc : fst (getCached model st) = None)
      by now rewrite (getCached_miss model st table).
    rewrite (resolveModelProfile_await_fetch model (BodyJson config) st H1 H2 Hc Hfl).
    rewrite (fetchHuggingFaceConfig_success config 131072 Hcfg) by lra.
    cbv zeta. cbn [fetchAndCache_rest]. fold profile.
    unfold cacheProfile. cbn [db fetch_started]. rewrite Hdb. cbn [fst snd db io].
    eexists profile, _. split; [reflexivity |].
    split; [reflexivity |]. split; [reflexivity |].
    split; [unfold profile; cbn; now rewrite llama_window_onset |].
    split; [unfold profile; cbn; now rewrite llama_window_dangerZone |].
    split; [reflexivity |].
    split.
    { erewrite fetches_log by (cbn [io]; reflexivity).
      rewrite bool_decide_eq_false_2 by discriminate.
      fold (fetches model (fetch_started model st)).
      rewrite fetches_fetch_started, bool_decide_eq_true_2 by reflexivity. lia. }
    split; [| apply fetches_log_io_select].
    unfold resolveModelProfile. rewrite H1, H2. cbn [negb].
    rewrite (getCached_hit model _
               (<[model := {| max_tokens := 131072; profile_json := profile |}]> table)
               {| max_tokens := 131072; profile_json := profile |});
      [reflexivity | reflexivity | apply lookup_insert_eq].
  - split; [| split; [reflexivity | split; [reflexivity | discriminate]]].
    rewrite KNOWN_MODELS_eq, !elem_of_cons, elem_of_nil.
    intros H. repeat destruct H as [H | H]; try discriminate H. exact H.
Qed.

Lemma resolution_order_witness :
  (exists p, own_property MODEL_PROFILES "claude-opus-4" = Some p
             /\ resolveModelProfile "claude-opus-4" empty_cache
                = (Returned (VProfile p), empty_cache))
  /\ resolveModelProfile "llama-4" empty_cache
     = (Returned (VProfile other_profile), empty_cache)
  /\ resolveModelProfile "constructor" empty_cache
     = (Returned (VInherited "constructor"), empty_cache)
  /\ resolveModelProfile "org/model" warm_cache
     = (Returned (VProfile (profile_json cached_row)),
        log_io (DbSelect "org/model") warm_cache)
  /\ (exists profile st',
         resolveModelProfile_await "meta-llama/Llama-3.1-70B" (BodyJson llama_config)
           empty_cache
         = Some (Normal (VProfile profile), st')
         /\ maxTokens profile = 131072
         /\ degradationOnset profile = 85197
         /\ dangerZone profile = 104858
         /\ resolveModelProfile "meta-llama/Llama-3.1-70B" st'
            = (Returned (VProfile profile),
               log_io (DbSelect "meta-llama/Llama-3.1-70B") st')).
Proof.
  assert (Hk : forall m, bool_decide (m ∈ KNOWN_MODELS) = false -> m ∉ KNOWN_MODELS)
    by (intros m; apply bool_decide_eq_false).
  split; [| split; [| split; [| split]]].
  - apply (proj1 (resolution_order empty_cache "claude-opus-4")).
    rewrite KNOWN_MODELS_eq. set_solver.
  - apply (proj1 (proj2 (resolution_order empty_cache "llama-4")));
      [apply Hk |]; reflexivity.
  - apply (proj1 (proj2 (resolution_order empty_cache "constructor")));
      [apply Hk |]; reflexivity.
  - apply (proj1 (proj2 (proj2 (resolution_order warm_cache "org/model")))
             {[ "org/model" := cached_row ]} cached_row);
      [reflexivity | reflexivity | apply lookup_singleton_eq].
  - destruct (proj1 (proj2 (proj2 (proj2 (resolution_order empty_cache
                                      "meta-llama/Llama-3.1-70B"))))
                ∅ llama_config)
      as (profile & st' & H1 & _ & H3 & H4 & H5 & _ & _ & H8 & _);
      [reflexivity | reflexivity | apply lookup_empty
      | apply lookup_empty | reflexivity |].
    exists profile, st'. repeat split; assumption.
Defined.

(** ** The resolver under interleaved calls *)

Section Interleavings.

Lemma getCached_spec (model : string) (st : Resolver) :
  fst (getCached model st) = profile_json <$> cache_lookup model st
  /\ db (snd (getCached model st)) = db st
  /\ inFlightRequests (snd (getCached model st)) = inFlightRequests st
  /\ promises (snd (getCached model st)) = promises st
  /\ (forall k, fetches k (snd (getCached model st)) = fetches k st).
Proof.
  unfold getCached, cache_lookup.
  destruct (db st) as [table |] eqn:Hdb; cbn; rewrite ?Hdb; repeat split.
  intros k. apply fetches_log_io_select.
Qed.

(** The three ways a call can go. *)
Lemma resolveModelProfile_spec (model : string) (st : Resolver) r st' :
  resolveModelProfile model st = (r, st') ->
  (exists v, r = Returned v
             /\ db st' = db st /\ inFlightRequests st' = inFlightRequests st
             /\ promises st' = promises st
             /\ (forall k, fetches k st' = fetches k st)
             /\ (name_is_not "Unknown Model" (getModelProfile model) = false ->
                 looksLikeHuggingFaceRepoId model = true ->
                 is_Some (cache_lookup model st)))
  \/ (exists pid, r = AwaitsFetch pid false
                  /\ inFlightRequests st !! model = Some pid
                  /\ db st' = db st /\ inFlightRequests st' = inFlightRequests st
                  /\ promises st' = promises st
                  /\ (forall k, fetches k st' = fetches k st))
  \/ (r = AwaitsFetch (length (promises st)) true
      /\ name_is_not "Unknown Model" (getModelProfile model) = false
      /\ looksLikeHuggingFaceRepoId model = true
      /\ cache_lookup model st = None
      /\ inFlightRequests st !! model = None
      /\ st' = fetch_started model st).
Proof.
  destruct (getCached_spec model st) as (Hc & Hdb & Hfl & Hpr & Hio).
  destruct (name_is_not "Unknown Model" (getModelProfile model)) eqn:H1.
  { unfold resolveModelProfile. rewrite H1. intros [= <- <-].
    left. eexists. repeat split. discriminate. }
  destruct (looksLikeHuggingFaceRepoId model) eqn:H2.
  2: { unfold resolveModelProfile. rewrite H1, H2. intros [= <- <-].
       left. eexists. repeat split. discriminate. }
  destruct (cache_lookup model st) as [row |] eqn:Hrow.
  { unfold resolveModelProfile. rewrite H1, H2. cbn [negb].
    destruct (getCached model st) as [c st1]. cbn [fst snd] in *. subst c.
    cbn [fmap option_fmap option_map]. intros [= <- <-].
    left. eexists. repeat split; eauto. }
  destruct (inFlightRequests st !! model) as [pid |] eqn:Hin.
  { unfold resolveModelProfile. rewrite H1, H2. cbn [negb].
    destruct (getCached model st) as [c st1]. cbn [fst snd] in *. subst c.
    cbn [fmap option_fmap option_map]. rewrite Hfl, Hin. intros [= <- <-].
    right; left. eexists. repeat split; eauto. }
  rewrite resolveModelProfile_starts_fetch; try assumption.
  intros [= <- <-]. right; right. repeat split.
Qed.

Lemma fetches_other_event (k : string) (e : IOEvent) (st st' : Resolver) :
  io st' = io st ++ [e] -> e <> NetFetch k -> fetches k st' = fetches k st.
Proof.
  intros Hio He. rewrite (fetches_log k e st' (io st) Hio).
  rewrite bool_decide_eq_false_2 by assumption. unfold fetches. lia.
Qed.

Lemma settle_spec (pid : nat) (outcome : FetchOutcome) (st st' : Resolver) :
  settle pid outcome st = Some st' ->
  exists p m,
    promises st !! pid = Some p /\ settlement p = None
    /\ fetchHuggingFaceConfig outcome = Normal m
    /\ inFlightRequests st' = inFlightRequests st
    /\ promises st'
       = <[pid := {| repo_id := repo_id p;
                     settlement :=
                       Some (Normal
                               match m with
                               | Some maxTokens =>
                                   VProfile (generateHeuristicProfile (repo_id p) maxTokens)
                               | None => getModelProfile "other"
                               end);
                     finalized := finalized p |}]> (promises st)
    /\ (forall k, fetches k st' = fetches k st)
    /\ (forall k, k <> repo_id p -> cache_lookup k st' = cache_lookup k st)
    /\ (m = None -> db st' = db st).
Proof.
  unfold settle. destruct (promises st !! pid) as [p |] eqn:Hp; [| discriminate].
  destruct (settlement p) eqn:Hs; [discriminate |].
  destruct (fetchHuggingFaceConfig_normal outcome) as [m Hm]. rewrite Hm.
  destruct m as [maxTokens |]; cbn [fetchAndCache_rest].
  - intros [= <-]. exists p, (Some maxTokens).
    unfold set_promise, cacheProfile, cache_lookup.
    destruct (db st) as [table |] eqn:Hdb;
      cbn [db inFlightRequests promises mbind option_bind];
      rewrite ?Hdb; repeat apply conj; try reflexivity; try assumption;
      try discriminate.
    + intros k. apply (fetches_other_event k (DbInsert (repo_id p)));
        [reflexivity | discriminate].
    + intros k Hk. cbn [mbind option_bind]. now rewrite lookup_insert_ne.
  - intros [= <-]. exists p, None. repeat apply conj; try reflexivity; assumption.
Qed.

Lemma finalize_spec (pid : nat) (st st' : Resolver) :
  finalize pid st = Some st' ->
  exists p c,
    promises st !! pid = Some p /\ settlement p = Some c /\ finalized p = false
    /\ db st' = db st
    /\ inFlightRequests st' = delete (repo_id p) (inFlightRequests st)
    /\ promises st'
       = <[pid := {| repo_id := repo_id p; settlement := Some c; finalized := true |}]>
           (promises st)
    /\ (forall k, fetches k st' = fetches k st).
Proof.
  unfold finalize. destruct (promises st !! pid) as [p |] eqn:Hp; [| discriminate].
  destruct (settlement p) as [c |] eqn:Hs; [| discriminate].
  destruct (finalized p) eqn:Hf; [discriminate |].
  intros [= <-]. exists p, c. repeat apply conj; try reflexivity; assumption.
Qed.

Lemma Invariant_new (database : option (gmap string CacheRow)) :
  Invariant (newResolver database).
Proof. split; intros pid p; cbn; rewrite lookup_nil; discriminate. Qed.

Lemma Invariant_same_fields (st st' : Resolver) :
  db st' = db st -> inFlightRequests st' = inFlightRequests st ->
  promises st' = promises st -> Invariant st -> Invariant st'.
Proof.
  intros Hdb Hfl Hpr [I1 I2 I3 I4].
  split; unfold cache_lookup; rewrite ?Hdb, ?Hfl, ?Hpr; assumption.
Qed.

Lemma Invariant_call (model : string) (st st' : Resolver) r :
  Invariant st -> resolveModelProfile model st = (r, st') -> Invariant st'.
Proof.
  intros Hinv Hcall.
  destruct (resolveModelProfile_spec model st r st' Hcall)
    as [(v & _ & Hdb & Hfl & Hpr & _) | [(pid & _ & _ & Hdb & Hfl & Hpr & _)
       | (_ & _ & _ & Hmiss & Hidle & ->)]];
    [now apply (Invariant_same_fields st) | now apply (Invariant_same_fields st) |].
  destruct Hinv as [I1 I2 I3 I4].
  assert (Hnew : forall pid p,
             promises (fetch_started model st) !! pid = Some p ->
             promises st !! pid = Some p
             \/ (pid = length (promises st)
                 /\ p = {| repo_id := model; settlement := None; finalized := false |})).
  { intros pid p. cbn [fetch_started promises]. rewrite lookup_app_Some.
    intros [Hp | [Hlen Hp]]; [now left | right].
    apply list_lookup_singleton_Some in Hp as [Hpid <-]. split; [lia | reflexivity]. }
  split; unfold cache_lookup.
  - intros pid p Hp Hf. cbn [fetch_started inFlightRequests].
    destruct (Hnew pid p Hp) as [Hold | [-> ->]].
    + specialize (I1 pid p Hold Hf).
      rewrite lookup_insert_ne; [exact I1 |].
      intros Heq. rewrite <- Heq in I1. congruence.
    + apply lookup_insert_eq.
  - intros pid p Hp Hs. cbn [fetch_started db].
    destruct (Hnew pid p Hp) as [Hold | [-> ->]]; [now apply (I2 pid p) | exact Hmiss].
  - intros pid p Hp Hs.
    destruct (Hnew pid p Hp) as [Hold | [-> ->]]; [now apply (I3 pid p) | reflexivity].
  - intros pid p c Hp Hs.
    destruct (Hnew pid p Hp) as [Hold | [-> ->]]; [now apply (I4 pid p) | discriminate].
Qed.

Lemma Invariant_settle (pid : nat) (outcome : FetchOutcome) (st st' : Resolver) :
  Invariant st -> settle pid outcome st = Some st' -> Invariant st'.
Proof.
  intros [I1 I2 I3 I4] Hsettle.
  destruct (settle_spec pid outcome st st' Hsettle)
    as (p & m & Hp & Hs & _ & Hfl & Hpr & _ & Hcache & _).
  assert (Hnew : forall pid' q,
             promises st' !! pid' = Some q ->
             (pid' <> pid /\ promises st !! pid' = Some q)
             \/ (pid' = pid /\ repo_id q = repo_id p /\ finalized q = finalized p
                 /\ exists v, settlement q = Some (Normal v))).
  { intros pid' q. rewrite Hpr, list_lookup_insert_Some.
    intros [(<- & <- & _) | [Hne Hq]]; [right | left; now split].
    cbn [repo_id settlement finalized]. repeat split; eauto. }
  split.
  - intros pid' q Hq Hf. rewrite Hfl.
    destruct (Hnew pid' q Hq) as [[_ Hold] | (-> & Hk & Hfq & _)]; [now apply I1 |].
    rewrite Hk. apply I1; [exact Hp | congruence].
  - intros pid' q Hq Hsq.
    destruct (Hnew pid' q Hq) as [[Hne Hold] | (_ & _ & _ & v & Hv)]; [| congruence].
    rewrite Hcache; [now apply (I2 pid' q) |].
    intros Heq. apply Hne.
    pose proof (I1 pid' q Hold (I3 pid' q Hold Hsq)) as H1.
    pose proof (I1 pid p Hp (I3 pid p Hp Hs)) as H2.
    rewrite Heq in H1. congruence.
  - intros pid' q Hq Hsq.
    destruct (Hnew pid' q Hq) as [[_ Hold] | (_ & _ & _ & v & Hv)];
      [now apply (I3 pid' q) | congruence].
  - intros pid' q c Hq Hsq.
    destruct (Hnew pid' q Hq) as [[_ Hold] | (_ & _ & _ & v & Hv)];
      [now apply (I4 pid' q) |].
    exists v. congruence.
Qed.

Lemma Invariant_finalize (pid : nat) (st st' : Resolver) :
  Invariant st -> finalize pid st = Some st' -> Invariant st'.
Proof.
  intros [I1 I2 I3 I4] Hfin.
  destruct (finalize_spec pid st st' Hfin)
    as (p & c & Hp & Hs & Hf & Hdb & Hfl & Hpr & _).
  assert (Hnew : forall pid' q,
             promises st' !! pid' = Some q ->
             (pid' <> pid /\ promises st !! pid' = Some q)
             \/ (pid' = pid /\ finalized q = true /\ settlement q = Some c)).
  { intros pid' q. rewrite Hpr, list_lookup_insert_Some.
    intros [(<- & <- & _) | [Hne Hq]]; [right | left; now split].
    repeat split. }
  split; unfold cache_lookup; rewrite ?Hdb.
  - intros pid' q Hq Hfq. rewrite Hfl.
    destruct (Hnew pid' q Hq) as [[Hne Hold] | (_ & Ht & _)]; [| congruence].
    rewrite lookup_delete_ne; [now apply I1 |].
    intros Heq. apply Hne.
    pose proof (I1 pid' q Hold Hfq) as H1.
    pose proof (I1 pid p Hp Hf) as H2.
    rewrite <- Heq in H1. congruence.
  - intros pid' q Hq Hsq.
    destruct (Hnew pid' q Hq) as [[_ Hold] | (_ & _ & Hc)];
      [now apply (I2 pid' q) | congruence].
  - intros pid' q Hq Hsq.
    destruct (Hnew pid' q Hq) as [[_ Hold] | (_ & _ & Hc)];
      [now apply (I3 pid' q) | congruence].
  - intros pid' q c' Hq Hsq.
    destruct (Hnew pid' q Hq) as [[_ Hold] | (_ & _ & Hc)];
      [now apply (I4 pid' q) |].
    destruct (I4 pid p c Hp Hs) as [v ->]. exists v. congruence.
Qed.

Lemma Invariant_step (e : Event) (st st' : Resolver) calls :
  Invariant st -> step e st = Some (calls, st') -> Invariant st'.
Proof.
  intros Hinv. destruct e as [model | pid outcome | pid]; cbn [step].
  - destruct (resolveModelProfile model st) as [r st1] eqn:Hcall.
    intros [= _ <-]. eapply Invariant_call; eassumption.
  - destruct (settle pid outcome st) as [st1 |] eqn:Hs; [| discriminate].
    cbn. intros [= _ <-]. eapply Invariant_settle; eassumption.
  - destruct (finalize pid st) as [st1 |] eqn:Hs; [| discriminate].
    cbn. intros [= _ <-]. eapply Invariant_finalize; eassumption.
Qed.

Lemma run_cons (e : Event) (rest : list Event) (st st2 : Resolver) calls :
  run (e :: rest) st = Some (calls, st2) ->
  exists c1 st1 c2, step e st = Some (c1, st1) /\ run rest st1 = Some (c2, st2)
                    /\ calls = c1 ++ c2.
Proof.
  cbn [run]. destruct (step e st) as [[c1 st1] |]; [| discriminate].
  cbn. destruct (run rest st1) as [[c2 st2'] |] eqn:Hrest; [| discriminate].
  cbn. intros [= <- <-]. exists c1, st1, c2. repeat split. exact Hrest.
Qed.

Lemma Invariant_run (events : list Event) (st st' : Resolver) calls :
  Invariant st -> run events st = Some (calls, st') -> Invariant st'.
Proof.
  revert st calls. induction events as [| e rest IH]; intros st calls Hinv.
  - cbn. now intros [= _ <-].
  - intros Hrun. apply run_cons in Hrun as (c1 & st1 & c2 & Hstep & Hrest & _).
    eapply IH; [| eassumption]. eapply Invariant_step; eassumption.
Qed.

Lemma reachable_Invariant (st : Resolver) : reachable st -> Invariant st.
Proof.
  intros (database & events & calls & Hrun).
  eapply Invariant_run; [apply Invariant_new | eassumption].
Qed.

End Interleavings.






Section SharedFetch.

Lemma Pending_in_flight pid model st :
  Invariant st -> Pending pid model st ->
  inFlightRequests st !! model = Some pid /\ cache_lookup model st = None.
Proof.
  intros [I1 I2 I3 _] (p & Hp & <- & Hs). split.
  - apply I1; [exact Hp | now apply (I3 pid p)].
  - now apply (I2 pid p).
Qed.

Lemma Pending_same_promises pid model st st' :
  promises st' = promises st -> Pending pid model st -> Pending pid model st'.
Proof. intros Hpr (p & Hp & Hk & Hs). exists p. now rewrite Hpr. Qed.

Lemma Pending_other_insert pid pid' model q st st' :
  pid' <> pid -> promises st' = <[pid' := q]> (promises st) ->
  Pending pid model st -> Pending pid model st'.
Proof.
  intros Hne Hpr (p & Hp & Hk & Hs). exists p.
  now rewrite Hpr, list_lookup_insert_ne.
Qed.

(** While the fetch for [model] is unanswered, a step that is not its
    answer leaves it unanswered, issues no request for [model], and makes
    every call for [model] wait for that same fetch. *)
Lemma pending_step (e : Event) (st st' : Resolver) calls pid model :
  Invariant st -> Pending pid model st ->
  name_is_not "Unknown Model" (getModelProfile model) = false ->
  looksLikeHuggingFaceRepoId model = true ->
  step e st = Some (calls, st') ->
  (forall outcome, e <> EResponse pid outcome) ->
  Pending pid model st'
  /\ fetches model st' = fetches model st
  /\ (forall r, (model, r) ∈ calls -> r = AwaitsFetch pid false).
Proof.
  intros Hinv Hpend H1 H2 Hstep Hne.
  destruct (Pending_in_flight pid model st Hinv Hpend) as [Hfl Hmiss].
  destruct e as [m | pid' outcome | pid']; cbn [step] in Hstep.
  - destruct (resolveModelProfile m st) as [r st1] eqn:Hcall.
    injection Hstep as <- <-.
    destruct (resolveModelProfile_spec m st r st1 Hcall)
      as [(v & -> & _ & _ & Hpr & Hio & Hcached)
         | [(pid' & -> & Hin & _ & _ & Hpr & Hio)
           | (-> & _ & _ & _ & Hidle & ->)]].
    + split; [now apply (Pending_same_promises pid model st) |].
      split; [apply Hio |].
      intros r. rewrite list_elem_of_singleton. intros [= <- ->].
      destruct (Hcached H1 H2) as [row Hrow]. congruence.
    + split; [now apply (Pending_same_promises pid model st) |].
      split; [apply Hio |].
      intros r. rewrite list_elem_of_singleton. intros [= <- ->]. congruence.
    + assert (Hm : m <> model) by congruence.
      split.
      { destruct Hpend as (p & Hp & Hk & Hs). exists p.
        cbn [fetch_started promises]. split; [| now split].
        now apply lookup_app_l_Some. }
      split.
      { rewrite fetches_fetch_started, bool_decide_eq_false_2 by assumption. lia. }
      intros r. rewrite list_elem_of_singleton. intros [= <- ->]. congruence.
  - destruct (settle pid' outcome st) as [st1 |] eqn:Hs; [| discriminate].
    cbn in Hstep. injection Hstep as <- <-.
    destruct (settle_spec pid' outcome st st1 Hs)
      as (p & m & _ & _ & _ & _ & Hpr & Hio & _).
    assert (pid' <> pid) by (intros ->; now apply (Hne outcome)).
    split; [now eapply (Pending_other_insert pid pid' model _ st); eauto |].
    split; [apply Hio |]. intros r Hr. now apply elem_of_nil in Hr.
  - destruct (finalize pid' st) as [st1 |] eqn:Hs; [| discriminate].
    cbn in Hstep. injection Hstep as <- <-.
    destruct (finalize_spec pid' st st1 Hs)
      as (p & c & Hp & Hsp & _ & _ & _ & Hpr & Hio).
    assert (pid' <> pid).
    { intros ->. destruct Hpend as (p' & Hp' & _ & Hs'). congruence. }
    split; [now eapply (Pending_other_insert pid pid' model _ st); eauto |].
    split; [apply Hio |]. intros r Hr. now apply elem_of_nil in Hr.
Qed.

Lemma pending_run (schedule : list Event) (st st' : Resolver) calls pid model :
  Invariant st -> Pending pid model st ->
  name_is_not "Unknown Model" (getModelProfile model) = false ->
  looksLikeHuggingFaceRepoId model = true ->
  run schedule st = Some (calls, st') ->
  (forall outcome, EResponse pid outcome ∉ schedule) ->
  Pending pid model st'
  /\ fetches model st' = fetches model st
  /\ (forall r, (model, r) ∈ calls -> r = AwaitsFetch pid false).
Proof.
  intros Hinv Hpend H1 H2. revert st calls Hinv Hpend.
  induction schedule as [| e rest IH]; intros st calls Hinv Hpend Hrun Hne.
  - cbn in Hrun. injection Hrun as <- <-.
    split; [exact Hpend |]. split; [reflexivity |].
    intros r Hr. now apply elem_of_nil in Hr.
  - apply run_cons in Hrun as (c1 & st1 & c2 & Hstep & Hrest & ->).
    destruct (pending_step e st st1 c1 pid model Hinv Hpend H1 H2 Hstep)
      as (Hpend1 & Hf1 & Hc1).
    { intros outcome ->. apply (Hne outcome). now left. }
    destruct (IH st1 c2 (Invariant_step e st st1 c1 Hinv Hstep) Hpend1 Hrest)
      as (Hpend2 & Hf2 & Hc2).
    { intros outcome Hin. apply (Hne outcome). now right. }
    split; [exact Hpend2 |]. split; [congruence |].
    intros r. rewrite elem_of_app. intros [Hr | Hr]; auto.
Qed.

Lemma filter_at_most_one {A : Type} (f : A -> bool) (l : list A) :
  (forall i j x y, l !! i = Some x -> l !! j = Some y ->
                   f x = true -> f y = true -> i = j) ->
  (length (List.filter f l) <= 1)%nat.
Proof.
  induction l as [| a l IH]; intros Huniq; cbn [List.filter]; [cbn; lia |].
  destruct (f a) eqn:Ha.
  - assert (Hnone : List.filter f l = []).
    { clear IH. induction l as [| b l IHl]; [reflexivity |].
      cbn [List.filter]. destruct (f b) eqn:Hb.
      - specialize (Huniq 0%nat 1%nat a b eq_refl eq_refl Ha Hb). discriminate.
      - apply IHl. intros i j x y Hi Hj Hx Hy.
        destruct i as [| i], j as [| j]; try reflexivity.
        + specialize (Huniq 0%nat (S (S j)) x y Hi Hj Hx Hy). discriminate.
        + specialize (Huniq (S (S i)) 0%nat x y Hi Hj Hx Hy). discriminate.
        + specialize (Huniq (S (S i)) (S (S j)) x y Hi Hj Hx Hy). lia. }
    rewrite Hnone. cbn. lia.
  - apply IH. intros i j x y Hi Hj Hx Hy.
    specialize (Huniq (S i) (S j) x y Hi Hj Hx Hy). lia.
Qed.

Lemma outstanding_at_most_one (key : string) (st : Resolver) :
  Invariant st -> (length (outstanding key st) <= 1)%nat.
Proof.
  intros [I1 _ I3 _]. unfold outstanding. apply filter_at_most_one.
  intros i j x y Hi Hj Hx Hy. unfold is_outstanding in *.
  apply andb_prop in Hx as [Hkx Hsx]. apply andb_prop in Hy as [Hky Hsy].
  apply String.eqb_eq in Hkx, Hky.
  destruct (settlement x) eqn:Hx'; [discriminate |].
  destruct (settlement y) eqn:Hy'; [discriminate |].
  pose proof (I1 i x Hi (I3 i x Hi Hx')) as Hfi.
  pose proof (I1 j y Hj (I3 j y Hj Hy')) as Hfj.
  rewrite Hkx in Hfi. rewrite Hky in Hfj. congruence.
Qed.

End SharedFetch.

(** C2, as stated, fails: "llama-4" is not in the curated catalog and is
    not cached, yet two callers resolving it cause no network call at all;
    both get the fallback at once, because the identifier is not of the
    shape [namespace/name]. *)
Lemma plain_name_is_never_fetched :
  ("llama-4" ∉ KNOWN_MODELS)
  /\ cache_lookup "llama-4" empty_cache = None
  /\ run two_callers_plain_name empty_cache
     = Some ([ ("llama-4", Returned (VProfile other_profile));
               ("llama-4", Returned (VProfile other_profile)) ], empty_cache)
  /\ fetches "llama-4" empty_cache = 0%nat.
Proof.
  split; [| repeat split].
  rewrite KNOWN_MODELS_eq, !elem_of_cons, elem_of_nil.
  intros H. repeat destruct H as [H | H]; try discriminate H. exact H.
Qed.

(** C2, amended.  Let [model] have the shape [namespace/name], not be
    cached and have no fetch in flight, in a state the resolver can reach.
    A first call starts the fetch [pid].  Whatever runs before that fetch
    is answered (further calls for this or other identifiers, answers and
    [finally] blocks of other fetches), every further call for [model]
    waits for the same [pid] and exactly one request for [model] has gone
    out; in no reachable state does a key have more than one unanswered
    fetch.  Once [pid] is answered
    and the [finally] block has run, the owner and all joiners receive one
    and the same value (the heuristic profile on success, the fallback
    otherwise), the in-flight entry of [model] is gone, and still only one
    request has gone out. *)
Theorem concurrent_calls_share_one_fetch (st0 st2 : Resolver) (model : string)
    (schedule : list Event) (calls : list (string * CallResult)) :
  reachable st0 ->
  looksLikeHuggingFaceRepoId model = true ->
  cache_lookup model st0 = None ->
  inFlightRequests st0 !! model = None ->
  run (ECall model :: schedule) st0 = Some (calls, st2) ->
  (forall outcome, EResponse (length (promises st0)) outcome ∉ schedule) ->
  let pid := length (promises st0) in
  exists joined,
    calls = (model, AwaitsFetch pid true) :: joined
    /\ (forall r, (model, r) ∈ joined -> r = AwaitsFetch pid false)
    /\ fetches model st2 = S (fetches model st0)
    /\ (forall st key, reachable st -> (length (outstanding key st) <= 1)%nat)
    /\ (forall outcome, exists st3 st4 v,
           settle pid outcome st2 = Some st3
           /\ finalize pid st3 = Some st4
           /\ v = match fetchHuggingFaceConfig outcome with
                  | Normal (Some maxTokens) =>
                      VProfile (generateHeuristicProfile model maxTokens)
                  | _ => VProfile other_profile
                  end
           /\ (forall started,
                  received (AwaitsFetch pid started) st4 = Some (Normal v))
           /\ inFlightRequests st4 !! model = None
           /\ fetches model st4 = S (fetches model st0)).
Proof.
  intros Hreach H2 Hmiss Hidle Hrun Hne pid.
  pose proof (repo_id_is_unrecognized model H2) as H1.
  pose proof (reachable_Invariant st0 Hreach) as Hinv0.
  assert (Hcall : resolveModelProfile model st0
                  = (AwaitsFetch pid true, fetch_started model st0)).
  { apply resolveModelProfile_starts_fetch; try assumption.
    destruct (getCached_spec model st0) as (Hc & _). now rewrite Hc, Hmiss. }
  apply run_cons in Hrun as (c1 & st1 & joined & Hstep & Hrest & ->).
  cbn [step] in Hstep. rewrite Hcall in Hstep. injection Hstep as <- <-.
  exists joined. split; [reflexivity |].
  pose proof (Invariant_call model st0 _ _ Hinv0 Hcall) as Hinv1.
  assert (Hpend1 : Pending pid model (fetch_started model st0)).
  { eexists. cbn [fetch_started promises].
    rewrite list_lookup_middle by reflexivity. repeat split. }
  destruct (pending_run schedule _ st2 joined pid model Hinv1 Hpend1 H1 H2 Hrest Hne)
    as (Hpend2 & Hf2 & Hcalls).
  pose proof (Invariant_run schedule _ st2 joined Hinv1 Hrest) as Hinv2.
  assert (Hcount : fetches model st2 = S (fetches model st0)).
  { rewrite Hf2, fetches_fetch_started, bool_decide_eq_true_2 by reflexivity. lia. }
  split; [exact Hcalls |]. split; [exact Hcount |].
  split; [intros st key Hst; now apply outstanding_at_most_one, reachable_Invariant |].
  intros outcome.
  destruct Hpend2 as (p & Hp & Hk & Hs).
  destruct (settle pid outcome st2) as [st3 |] eqn:Hsettle.
  2: { unfold settle in Hsettle. rewrite Hp, Hs in Hsettle.
       destruct (fetchAndCache_rest (repo_id p) (fetchHuggingFaceConfig outcome) st2).
       discriminate. }
  destruct (settle_spec _ outcome st2 st3 Hsettle)
    as (p' & m & Hp' & _ & Hm & Hfl3 & Hpr3 & Hio3 & _).
  assert (p' = p) as -> by congruence.
  assert (Hlt : (pid < length (promises st2))%nat)
    by (eapply lookup_lt_Some; eassumption).
  pose proof (inv_pending_not_finalized st2 Hinv2 _ p Hp Hs) as Hnf.
  set (v := match m with
            | Some maxTokens => VProfile (generateHeuristicProfile (repo_id p) maxTokens)
            | None => getModelProfile "other"
            end) in *.
  assert (Hp3 : promises st3 !! pid
                = Some {| repo_id := repo_id p; settlement := Some (Normal v);
                          finalized := finalized p |})
    by (rewrite Hpr3; now apply list_lookup_insert_eq).
  destruct (finalize pid st3) as [st4 |] eqn:Hfin.
  2: { unfold finalize in Hfin. rewrite Hp3 in Hfin.
       cbn [settlement finalized] in Hfin. rewrite Hnf in Hfin. discriminate. }
  destruct (finalize_spec _ st3 st4 Hfin)
    as (q & c & Hq & Hsq & _ & _ & Hfl4 & Hpr4 & Hio4).
  rewrite Hp3 in Hq. injection Hq as <-. cbn [settlement repo_id] in *.
  injection Hsq as <-.
  exists st3, st4, v. split; [reflexivity |]. split; [exact Hfin |].
  split; [unfold v; rewrite Hm, Hk; destruct m; reflexivity |].
  split.
  { intros started. cbn [received]. rewrite Hpr4.
    rewrite list_lookup_insert_eq
      by (rewrite Hpr3, length_insert; exact Hlt).
    reflexivity. }
  split; [rewrite Hfl4, Hk; apply lookup_delete_eq |].
  now rewrite Hio4, Hio3.
Qed.

Lemma concurrent_calls_share_one_fetch_witness :
  exists calls st2 joined,
    run (ECall "org/model" :: two_more_callers) empty_cache = Some (calls, st2)
    /\ calls = ("org/model", AwaitsFetch 0 true) :: joined
    /\ (forall r, ("org/model", r) ∈ joined -> r = AwaitsFetch 0 false)
    /\ fetches "org/model" st2 = S (fetches "org/model" empty_cache)
    /\ (forall st key, reachable st -> (length (outstanding key st) <= 1)%nat).
Proof.
  destruct (run (ECall "org/model" :: two_more_callers) empty_cache)
    as [[calls st2] |] eqn:Hrun; [| vm_compute in Hrun; discriminate Hrun].
  assert (Hreach : reachable empty_cache) by (exists (Some ∅), [], []; reflexivity).
  assert (Hne : forall outcome,
             EResponse (length (promises empty_cache)) outcome ∉ two_more_callers).
  { intros outcome Hin. unfold two_more_callers in Hin.
    rewrite !elem_of_cons, elem_of_nil in Hin.
    destruct Hin as [H | [H | []]]; discriminate H. }
  destruct (concurrent_calls_share_one_fetch empty_cache st2 "org/model"
              two_more_callers calls Hreach eq_refl eq_refl (lookup_empty _) Hrun Hne)
    as (joined & H1 & H2 & H3 & H4 & _).
  exists calls, st2, joined. repeat split; assumption.
Defined.

(** * Further properties *)

(** ** The order of the recommendations *)

Section SortFacts.

Lemma compareRecs_key (a b : Recommendation) :
  (compareRecs a b <= 0)%Z
  <-> (priorityWeight (priority a) < priorityWeight (priority b))%Z
      \/ (priorityWeight (priority a) = priorityWeight (priority b)
          /\ (estimated_quality_gain b <= estimated_quality_gain a)%Z).
Proof. unfold compareRecs. cbv zeta. case_bool_decide; lia. Qed.

Lemma compareRecs_zero (a b : Recommendation) :
  compareRecs a b = 0%Z <-> rec_key a = rec_key b.
Proof.
  unfold compareRecs, rec_key. cbv zeta. case_bool_decide; split.
  - lia.
  - intros [= H1 H2]. lia.
  - intros H0. f_equal; lia.
  - intros [= H1 H2]. lia.
Qed.

#[local] Instance rec_le_trans : Transitive rec_le.
Proof. intros a b c. unfold rec_le. rewrite !compareRecs_key. lia. Qed.

Lemma rec_le_total (a b : Recommendation) : ~ rec_le a b -> rec_le b a.
Proof. unfold rec_le. rewrite !compareRecs_key. lia. Qed.

Lemma sort_insert_Permutation cmp (x : Recommendation) (l : list Recommendation) :
  sort_insert cmp x l ≡ₚ x :: l.
Proof.
  induction l as [| y l IH]; cbn [sort_insert]; [reflexivity |].
  destruct (cmp x y <=? 0)%Z; [reflexivity |].
  rewrite IH. apply Permutation_swap.
Qed.

Lemma Array_sort_Permutation cmp (l : list Recommendation) : Array_sort cmp l ≡ₚ l.
Proof.
  unfold Array_sort. induction l as [| x l IH]; cbn [foldr]; [reflexivity |].
  now rewrite sort_insert_Permutation, IH.
Qed.

Lemma sort_insert_sorted (x : Recommendation) (l : list Recommendation) :
  StronglySorted rec_le l -> StronglySorted rec_le (sort_insert compareRecs x l).
Proof.
  induction l as [| y l IH]; cbn [sort_insert]; intros Hl.
  - repeat constructor.
  - apply StronglySorted_inv in Hl as [Hl Hy].
    destruct (compareRecs x y <=? 0)%Z eqn:Hc.
    + apply Z.leb_le in Hc. constructor; [now constructor |].
      constructor; [exact Hc |].
      eapply Forall_impl; [exact Hy |]. intros z Hz. now transitivity y.
    + apply Z.leb_gt in Hc. constructor; [now apply IH |].
      rewrite sort_insert_Permutation. constructor; [| exact Hy].
      apply rec_le_total. unfold rec_le. lia.
Qed.

Lemma Array_sort_sorted (l : list Recommendation) :
  StronglySorted rec_le (Array_sort compareRecs l).
Proof.
  unfold Array_sort. induction l as [| x l IH]; cbn [foldr]; [constructor |].
  now apply sort_insert_sorted.
Qed.

(** Index-wise reading of [StronglySorted]. *)
Lemma StronglySorted_lookup {A} (R : relation A) (l : list A) i j x y :
  StronglySorted R l -> (i < j)%nat -> l !! i = Some x -> l !! j = Some y -> R x y.
Proof.
  intros Hs. revert i j. induction Hs as [| z l Hs IH Hz]; intros i j Hij Hi Hj.
  - now rewrite lookup_nil in Hi.
  - destruct j as [| j]; [lia |]. destruct i as [| i].
    + cbn in Hi, Hj. injection Hi as <-.
      rewrite Forall_forall in Hz. apply Hz. eapply list_elem_of_lookup_2; eassumption.
    + cbn in Hi, Hj. apply (IH i j); [lia | assumption..].
Qed.

End SortFacts.

Section PushFacts.

Lemma pushedRecs_pushes (a : HealthAssessment) :
  pushedRecs a
  = pushes (utilizationRecs (percentage (token_utilization a)))
      (middle_content_risk (quality_estimate a))
      (tool_call_burden (session_fatigue a))
      (session_length_risk (session_fatigue a))
      (estimated_hallucination_risk (quality_estimate a)).
Proof. reflexivity. Qed.

Lemma utilizationRecs_options (utilPct : num) :
  utilizationRecs utilPct ∈ utilization_options.
Proof.
  unfold utilizationRecs, utilization_options.
  destruct (utilPct >=? 100)%num; [set_solver |].
  destruct (utilPct >=? 80)%num; [set_solver |].
  destruct (utilPct >=? 60)%num; [set_solver |].
  destruct (utilPct >=? 40)%num; set_solver.
Qed.

(** A property of [pushes] checked on each of its 5 * 4^4 values. *)
Lemma pushes_all (P : list Recommendation -> bool) :
  (forall m t s h, P (pushes [rec_immediate_context_reset] m t s h) = true) ->
  (forall m t s h, P (pushes [rec_compact_context_critical] m t s h) = true) ->
  (forall m t s h, P (pushes [rec_compact_context_high] m t s h) = true) ->
  (forall m t s h, P (pushes [rec_plan_compaction] m t s h) = true) ->
  (forall m t s h, P (pushes [] m t s h) = true) ->
  forall a, P (pushedRecs a) = true.
Proof.
  intros H1 H2 H3 H4 H5 a. rewrite pushedRecs_pushes.
  pose proof (utilizationRecs_options (percentage (token_utilization a))) as Hu.
  unfold utilization_options in Hu. rewrite !elem_of_cons, elem_of_nil in Hu.
  destruct Hu as [-> | [-> | [-> | [-> | [-> | []]]]]]; auto.
Qed.

Lemma pushedRecs_no_ties (a : HealthAssessment) : no_ties (pushedRecs a) = true.
Proof.
  apply pushes_all; intros [] [] [] []; vm_compute; reflexivity.
Qed.

Lemma pushedRecs_shape (a : HealthAssessment) : well_shaped (pushedRecs a) = true.
Proof.
  apply pushes_all; intros [] [] [] []; vm_compute; reflexivity.
Qed.

End PushFacts.

Section RecommendationOrder.

Lemma generateRecommendations_keys_NoDup (a : HealthAssessment) :
  NoDup (rec_key <$> generateRecommendations a).
Proof.
  unfold generateRecommendations. rewrite Array_sort_Permutation.
  eapply bool_decide_eq_true_1. apply pushedRecs_no_ties.
Qed.

Lemma generateRecommendations_past_danger_zone :
  generateRecommendations past_danger_zone
  = [ rec_immediate_context_reset; rec_offload_to_memory critical;
      rec_verify_outputs critical ].
Proof.
  unfold generateRecommendations, pushedRecs, past_danger_zone.
  cbn [percentage token_utilization middle_content_risk quality_estimate
       tool_call_burden session_fatigue session_length_risk
       estimated_hallucination_risk].
  rewrite utilizationRecs_past_danger_zone. vm_compute. reflexivity.
Qed.

Lemma well_shaped_spec (l : list Recommendation) :
  well_shaped l = true ->
  (1 <= length l <= 5)%nat
  /\ (forall x, x ∈ l -> (0 <= estimated_quality_gain x <= 40)%Z
                         /\ (priority x = prio_low -> x = rec_continue))
  /\ (rec_continue ∈ l -> l = [rec_continue]).
Proof.
  unfold well_shaped. rewrite !andb_true_iff, forallb_forall.
  intros [[Hlen Hall] Hcont]. apply bool_decide_eq_true in Hlen.
  split; [exact Hlen |]. split.
  - intros x Hx. apply list_elem_of_In, Hall in Hx.
    apply andb_true_iff in Hx as [Hg Hp]. apply bool_decide_eq_true in Hg.
    split; [exact Hg |]. intros Hlow.
    apply orb_true_iff in Hp as [Hp | Hp]; apply bool_decide_eq_true in Hp;
      [contradiction | exact Hp].
  - intros Hin. apply orb_true_iff in Hcont as [Hc | Hc];
      apply bool_decide_eq_true in Hc; [contradiction | exact Hc].
Qed.

End RecommendationOrder.



(** X2.  Sorting neither drops nor duplicates: the result is a rearrangement of
    what was pushed; it has between one and five entries, every gain lies
    in [0, 40], and the only entry of priority low is [continue]. *)
Theorem recommendations_complete (a : HealthAssessment) :
  generateRecommendations a ≡ₚ pushedRecs a
  /\ (1 <= length (generateRecommendations a) <= 5)%nat
  /\ (forall x, x ∈ generateRecommendations a ->
                (0 <= estimated_quality_gain x <= 40)%Z
                /\ (priority x = prio_low -> x = rec_continue)).
Proof.
  pose proof (Array_sort_Permutation compareRecs (pushedRecs a)) as Hperm.
  destruct (well_shaped_spec _ (pushedRecs_shape a)) as (Hlen & Hall & _).
  split; [exact Hperm |]. unfold generateRecommendations.
  split; [now rewrite Hperm |].
  intros x Hx. apply Hall. now rewrite <- Hperm.
Qed.

Section ContinueFacts.

Lemma Array_sort_singleton cmp (l : list Recommendation) (x : Recommendation) :
  Array_sort cmp l = [x] <-> l = [x].
Proof.
  split; [| now intros ->].
  intros Hs. pose proof (Array_sort_Permutation cmp l) as Hp.
  rewrite Hs in Hp. symmetry. now apply Permutation_singleton_l.
Qed.

Lemma continue_elem_iff (a : HealthAssessment) :
  rec_continue ∈ generateRecommendations a <-> generateRecommendations a = [rec_continue].
Proof.
  destruct (well_shaped_spec _ (pushedRecs_shape a)) as (_ & _ & Hcont).
  unfold generateRecommendations.
  rewrite Array_sort_elem, Array_sort_singleton.
  split; [exact Hcont | intros ->; now left].
Qed.

Lemma continue_only_iff (a : HealthAssessment) :
  generateRecommendations a = [rec_continue]
  <-> ((percentage (token_utilization a) >=? 40)%num = false
       /\ is_high_or_critical (middle_content_risk (quality_estimate a)) = false
       /\ is_high_or_critical (tool_call_burden (session_fatigue a)) = false
       /\ is_high_or_critical (session_length_risk (session_fatigue a)) = false
       /\ is_high_or_critical (estimated_hallucination_risk (quality_estimate a))
          = false).
Proof.
  unfold generateRecommendations.
  rewrite Array_sort_singleton, pushedRecs_pushes.
  unfold pushes, utilizationRecs, riskRecs, nge.
  set (pct := percentage (token_utilization a)).
  assert (Hchain : (40 <=? pct)%num = false ->
                   (100 <=? pct)%num = false /\ (80 <=? pct)%num = false
                   /\ (60 <=? pct)%num = false).
  { destruct pct as [x | | |]; cbn; try discriminate; try tauto.
    rewrite !bool_decide_eq_false. lra. }
  destruct (40 <=? pct)%num eqn:H40.
  - split; [| intros [[=] _]].
    destruct (100 <=? pct)%num, (80 <=? pct)%num, (60 <=? pct)%num;
      destruct (is_high_or_critical _), (is_high_or_critical _),
        (is_high_or_critical _), (is_high_or_critical _);
      cbn; discriminate.
  - destruct (Hchain eq_refl) as (-> & -> & ->).
    destruct (is_high_or_critical (middle_content_risk _)),
      (is_high_or_critical (tool_call_burden _)),
      (is_high_or_critical (session_length_risk _)),
      (is_high_or_critical (estimated_hallucination_risk _));
      cbn; split; try discriminate; try tauto;
      intros (_ & H1 & H2 & H3 & H4); discriminate.
Qed.

End ContinueFacts.

(** X3.  [continue] is emitted exactly when nothing else is: when the percentage
    is below 40 (or not a number) and none of the four risks is high or
    critical; the result is then the single entry [continue]. *)
Theorem continue_stands_alone (a : HealthAssessment) :
  (rec_continue ∈ generateRecommendations a
   <-> generateRecommendations a = [rec_continue])
  /\ (generateRecommendations a = [rec_continue]
      <-> ((percentage (token_utilization a) >=? 40)%num = false
           /\ is_high_or_critical (middle_content_risk (quality_estimate a)) = false
           /\ is_high_or_critical (tool_call_burden (session_fatigue a)) = false
           /\ is_high_or_critical (session_length_risk (session_fatigue a)) = false
           /\ is_high_or_critical (estimated_hallucination_risk (quality_estimate a))
              = false)).
Proof. split; [apply continue_elem_iff | apply continue_only_iff]. Qed.

(** X4.  The order of the result does not depend on how the sort treats equal
    elements: no two pushed entries compare equal, so every sorted
    rearrangement of the pushed entries is the result. *)
Theorem recommendations_order_unique (a : HealthAssessment) (l : list Recommendation) :
  l ≡ₚ pushedRecs a -> StronglySorted rec_le l -> l = generateRecommendations a.
Proof.
  intros Hperm Hsorted.
  apply (StronglySorted_unique_strong rec_le); [| exact Hsorted | |].
  - intros x y Hx Hy Hxy Hyx.
    assert (Hkey : rec_key x = rec_key y).
    { apply compareRecs_zero.
      unfold rec_le in *. rewrite compareRecs_key in Hxy, Hyx.
      apply compareRecs_zero. unfold rec_key. f_equal; lia. }
    pose proof (generateRecommendations_keys_NoDup a) as Hnd.
    rewrite Hperm, <- (Array_sort_Permutation compareRecs (pushedRecs a)) in Hx.
    fold (generateRecommendations a) in Hx.
    apply list_elem_of_lookup in Hx as [i Hi]. apply list_elem_of_lookup in Hy as [j Hj].
    assert (i = j).
    { eapply (NoDup_lookup _ i j (rec_key x)); [exact Hnd | |];
        rewrite list_lookup_fmap; [now rewrite Hi | now rewrite Hj, Hkey]. }
    subst j. congruence.
  - apply Array_sort_sorted.
  - rewrite Hperm. symmetry. apply Array_sort_Permutation.
Qed.

Lemma recommendations_order_unique_witness :
  [ rec_immediate_context_reset; rec_offload_to_memory critical;
    rec_verify_outputs critical ]
  = generateRecommendations past_danger_zone.
Proof.
  apply recommendations_order_unique.
  - rewrite <- generateRecommendations_past_danger_zone.
    apply Array_sort_Permutation.
  - repeat constructor; unfold rec_le; vm_compute; discriminate.
Defined.

Section Triggers.





End Triggers.


(** X6.  When the percentage is at least 100 the reset recommendation comes
    first, whatever else is recommended. *)
Theorem reset_comes_first (a : HealthAssessment) :
  (percentage (token_utilization a) >=? 100)%num = true ->
  generateRecommendations a !! 0%nat = Some rec_immediate_context_reset.
Proof.
  intros Hpct.
  assert (Hin : rec_immediate_context_reset ∈ generateRecommendations a).
  { unfold generateRecommendations. rewrite Array_sort_elem.
    rewrite pushedRecs_ladder by (unfold ladder; set_solver).
    unfold utilizationRecs. rewrite Hpct. now left. }
  apply list_elem_of_lookup in Hin as [j Hj].
  destruct j as [| j]; [exact Hj |].
  destruct (generateRecommendations a !! 0%nat) as [x |] eqn:H0.
  2: { apply lookup_ge_None in H0. apply lookup_lt_Some in Hj. lia. }
  exfalso.
  destruct (well_shaped_spec _ (pushedRecs_shape a)) as (_ & Hall & _).
  destruct (Hall x) as [Hg _].
  { apply (Array_sort_elem compareRecs). eapply list_elem_of_lookup_2. exact H0. }
  pose proof (generateRecommendations_keys_NoDup a) as Hnd.
  pose proof (StronglySorted_lookup rec_le _ 0%nat (S j) x _
                (Array_sort_sorted (pushedRecs a)) ltac:(lia) H0 Hj) as Hle.
  apply compareRecs_key in Hle. cbn in Hle.
  assert (Hw : (0 <= priorityWeight (priority x))%Z) by (destruct (priority x); cbn; lia).
  assert (Hkey : rec_key x = rec_key rec_immediate_context_reset).
  { unfold rec_key. cbn. f_equal; lia. }
  assert (0%nat = S j); [| discriminate].
  eapply (NoDup_lookup _ _ _ (rec_key x)); [exact Hnd | |];
    rewrite list_lookup_fmap; [now rewrite H0 | now rewrite Hj, Hkey].
Qed.

Lemma reset_comes_first_witness :
  generateRecommendations past_danger_zone !! 0%nat = Some rec_immediate_context_reset.
Proof.
  apply reset_comes_first. apply nle_fin. simpl. lra.
Defined.

(** ** Generated profiles *)

Section HeuristicFacts.

Lemma round_half_up_mono (x y : R) : x <= y -> (round_half_up x <= round_half_up y)%Z.
Proof. intros H. unfold round_half_up. apply Zfloor_le. lra. Qed.

(** [Math.round] of a number [y] within [1/20] of [a / b - 1/2], for
    integers [a] and [0 < b <= 20]: the quotient [a div b], provided [y] is
    not below [a / b - 1/2] when [b] divides [a] (a tie). *)
Lemma round_half_up_near_quotient (a b : Z) (y : R) :
  (0 < b <= 20)%Z ->
  Rabs (y - (IZR a / IZR b - / 2)) < / 20 ->
  ((a mod b)%Z = 0%Z -> IZR a / IZR b - / 2 <= y) ->
  round_half_up y = (a / b)%Z.
Proof.
  intros Hb Herr Htie. apply round_half_up_eq.
  pose proof (Z.div_mod a b ltac:(lia)) as Hd.
  pose proof (Z.mod_pos_bound a b ltac:(lia)) as [Hm1 Hm2].
  set (z := (a / b)%Z) in *. set (r := (a mod b)%Z) in *.
  assert (Hpos : 1 <= IZR b <= 20) by (split; apply IZR_le; lia).
  assert (Hx : IZR a / IZR b = IZR z + IZR r / IZR b).
  { rewrite Hd, plus_IZR, mult_IZR. field. lra. }
  rewrite Hx in Herr, Htie.
  assert (Hr2 : IZR r / IZR b <= 1 - / 20).
  { assert (Hle : IZR r <= IZR b - 1).
    { rewrite <- minus_IZR. apply IZR_le. lia. }
    apply (Rmult_le_reg_r (IZR b)); [lra |].
    replace (IZR r / IZR b * IZR b) with (IZR r) by (field; lra).
    nra. }
  apply Rabs_def2 in Herr as [Hup Hlo].
  split; [| lra].
  destruct (Z.eq_dec r 0%Z) as [Hr0 | Hr0].
  - specialize (Htie Hr0). rewrite Hr0 in Htie. lra.
  - assert (Hr1 : / 20 <= IZR r / IZR b).
    { assert (Hge : 1 <= IZR r) by (apply IZR_le; lia).
      apply (Rmult_le_reg_r (IZR b)); [lra |].
      replace (IZR r / IZR b * IZR b) with (IZR r) by (field; lra).
      nra. }
    lra.
Qed.

(** A product of a window up to [10^14] by [0.65] or [0.80] is computed to
    within [1/20]. *)
Lemma heuristic_product_error (n : Z) (c : R) :
  (1 <= n <= 100000000000000)%Z -> / 2 <= c <= 1 ->
  Rabs (binary64R (IZR n * binary64R c) - IZR n * c) < / 20.
Proof.
  intros Hn Hc.
  assert (HN : 1 <= IZR n <= 100000000000000) by (split; apply IZR_le; lia).
  pose proof (rounded_product_bounds (IZR n) c ltac:(lra) ltac:(lra)) as [A1 A2].
  assert (Hp : 0 <= IZR n * c <= 100000000000000) by nra.
  apply Rabs_def1; lra.
Qed.

Lemma heuristic_onset (name : string) (n : Z) :
  (1 <= n <= 100000000000000)%Z ->
  degradationOnset (generateHeuristicProfile name (IZR n))
  = IZR ((13 * n + 10) / 20).
Proof.
  intros Hn. unfold generateHeuristicProfile. cbn [degradationOnset]. f_equal.
  assert (HN : 1 <= IZR n <= 100000000000000) by (split; apply IZR_le; lia).
  assert (Hx : IZR (13 * n + 10) / 20 - / 2 = IZR n * 0.65)
    by (rewrite plus_IZR, mult_IZR; lra).
  apply round_half_up_near_quotient; [lia | |]; rewrite Hx.
  - apply heuristic_product_error; [exact Hn | lra].
  - intros Htie.
    (* at a tie 0.65 n is a half-integer, hence a double, and the machine
       product of n by a constant above 0.65 cannot fall below it *)
    pose proof (Z.div_mod (13 * n + 10) 20 ltac:(lia)) as Hd.
    rewrite Htie in Hd.
    set (z := ((13 * n + 10) / 20)%Z) in *.
    assert (Hz : (13 * n = 10 * (2 * z - 1))%Z) by lia.
    assert (Hhalf : IZR n * 0.65 = IZR (2 * z - 1) * powerRZ 2 (-1)).
    { apply (f_equal IZR) in Hz. rewrite !mult_IZR in Hz. pow2. lra. }
    rewrite Hhalf. apply binary64R_ge.
    + apply normal_range. rewrite binary64R_0_65. lra.
    + change (2 ^ 53)%Z with 9007199254740992%Z. lia.
    + rewrite <- Hhalf, binary64R_0_65. nra.
Qed.

Lemma heuristic_dangerZone (name : string) (n : Z) :
  (1 <= n <= 100000000000000)%Z ->
  dangerZone (generateHeuristicProfile name (IZR n)) = IZR ((8 * n + 5) / 10).
Proof.
  intros Hn. unfold generateHeuristicProfile. cbn [dangerZone]. f_equal.
  assert (Hx : IZR (8 * n + 5) / 10 - / 2 = IZR n * 0.80)
    by (rewrite plus_IZR, mult_IZR; lra).
  apply round_half_up_near_quotient; [lia | |]; rewrite Hx.
  - apply heuristic_product_error; [exact Hn | lra].
  - intros Htie. exfalso.
    pose proof (Z.div_mod (8 * n + 5) 10 ltac:(lia)) as Hd. lia.
Qed.

End HeuristicFacts.

(** X7.  For a whole-number context window [n] from 1 to [10^14] the
    generated profile has its onset at [(13 n + 10) div 20] and its danger
    zone at [(8 n + 5) div 10], the machine products notwithstanding; they
    are ordered [1 <= onset <= dangerZone <= maxTokens], the onset lies
    strictly below the window exactly from [n = 2] on and the danger zone
    exactly from [n = 3] on. *)
Theorem heuristic_profile_shape (name : string) (n : Z) :
  (1 <= n <= 100000000000000)%Z ->
  let p := generateHeuristicProfile name (IZR n) in
  degradationOnset p = IZR ((13 * n + 10) / 20)
  /\ dangerZone p = IZR ((8 * n + 5) / 10)
  /\ 1 <= degradationOnset p <= dangerZone p
  /\ dangerZone p <= maxTokens p
  /\ (degradationOnset p < maxTokens p <-> (2 <= n)%Z)
  /\ (dangerZone p < maxTokens p <-> (3 <= n)%Z).
Proof.
  intros Hn p. unfold p. rewrite heuristic_onset, heuristic_dangerZone by exact Hn.
  cbn [maxTokens generateHeuristicProfile].
  split; [reflexivity |]. split; [reflexivity |].
  pose proof (Z.div_mod (13 * n + 10) 20 ltac:(lia)) as Hd1.
  pose proof (Z.mod_pos_bound (13 * n + 10) 20 ltac:(lia)) as Hm1.
  pose proof (Z.div_mod (8 * n + 5) 10 ltac:(lia)) as Hd2.
  pose proof (Z.mod_pos_bound (8 * n + 5) 10 ltac:(lia)) as Hm2.
  set (a := ((13 * n + 10) / 20)%Z) in *. set (b := ((8 * n + 5) / 10)%Z) in *.
  split; [split; apply IZR_le; lia |].
  split; [apply IZR_le; lia |].
  split; (split; [intros H; apply lt_IZR in H; lia | intros H; apply IZR_lt; lia]).
Qed.

Lemma heuristic_profile_shape_witness :
  let p := generateHeuristicProfile "org/model" (IZR 131072) in
  degradationOnset p = IZR ((13 * 131072 + 10) / 20)
  /\ dangerZone p = IZR ((8 * 131072 + 5) / 10)
  /\ 1 <= degradationOnset p <= dangerZone p
  /\ dangerZone p <= maxTokens p
  /\ (degradationOnset p < maxTokens p <-> (2 <= 131072)%Z)
  /\ (dangerZone p < maxTokens p <-> (3 <= 131072)%Z).
Proof. apply (heuristic_profile_shape "org/model" 131072). lia. Defined.

(** ** The curves and the score, continued *)

Section CurveShape.

Lemma pow_1_5_strict (x y : R) : 0 <= x -> x < y -> x * sqrt x < y * sqrt y.
Proof.
  intros Hx Hxy.
  assert (Hs : sqrt x < sqrt y) by (apply sqrt_lt_1; lra).
  pose proof (sqrt_pos x). nra.
Qed.

Lemma progress_strict t1 t2 p :
  degradationOnset p < maxTokens p -> t1 < t2 -> progress t1 p < progress t2 p.
Proof.
  intros Hp Ht. unfold progress, Rdiv. apply Rmult_lt_compat_r; [| lra].
  apply Rinv_0_lt_compat. lra.
Qed.

Lemma progress_nonneg t p :
  degradationOnset p < maxTokens p -> degradationOnset p <= t -> 0 <= progress t p.
Proof.
  intros Hp Ht. unfold progress, Rdiv. apply Rmult_le_pos; [lra |].
  left. apply Rinv_0_lt_compat. lra.
Qed.

Lemma quality_interior t p :
  degradationOnset p < t -> t < maxTokens p ->
  quality t p = 1 - progress t p * sqrt (progress t p) * 0.8 /\ 0.2 < quality t p < 1.
Proof.
  intros H1 H2. pose proof (progress_range t p H1 H2) as [Hp0 Hp1].
  assert (Hlt : progress t p * sqrt (progress t p) < 1).
  { pose proof (pow_1_5_strict (progress t p) 1 ltac:(lra) Hp1) as H.
    rewrite sqrt_1 in H. lra. }
  assert (Hpos : 0 < progress t p * sqrt (progress t p)).
  { apply Rmult_lt_0_compat; [lra | now apply sqrt_lt_R0]. }
  unfold quality. destruct (decide (t <= degradationOnset p)); [lra |].
  destruct (decide (maxTokens p <= t)); [lra |].
  rewrite Rmax_right by lra. split; [reflexivity | lra].
Qed.

Lemma quality_past_onset t p :
  degradationOnset p < maxTokens p -> degradationOnset p < t -> quality t p < 1.
Proof.
  intros Hp Ht. destruct (decide (maxTokens p <= t)) as [Hm | Hm].
  - unfold quality. destruct (decide (t <= degradationOnset p)); [lra |].
    destruct (decide (maxTokens p <= t)); lra.
  - apply quality_interior; lra.
Qed.

Lemma penalty_nonneg t p :
  degradationOnset p < maxTokens p -> 0 <= middleLossCoefficient p -> 0 <= penalty t p.
Proof.
  intros Hp Hc. unfold penalty. destruct (decide (degradationOnset p < t)); [| lra].
  apply Rmult_le_pos; [exact Hc |]. apply progress_nonneg; lra.
Qed.

(** With a positive coefficient the estimate is a number even where the
    onset equals the capacity: the penalty is then [Infinity] and the
    floor applies. *)
Lemma estimateRetrievalAccuracy_number t p :
  0 < middleLossCoefficient p ->
  exists r, estimateRetrievalAccuracy t p = Fin r /\ 0.1 <= r.
Proof.
  intros Hc.
  destruct (decide (maxTokens p = degradationOnset p /\ degradationOnset p < t))
    as [[Heq Hlt] | Hdom].
  - exists 0.1. split; [| lra].
    unfold estimateRetrievalAccuracy, ngt.
    rewrite calculateQualityMultiplier_real.
    apply nlt_fin in Hlt as Hb. rewrite Hb. rewrite !nsub_fin, nmul_fin.
    unfold ndiv. destruct (decide (maxTokens p - degradationOnset p = 0)); [| lra].
    unfold by_sign at 1. destruct (decide (0 < t - degradationOnset p)); [| lra].
    unfold nmul, by_sign.
    destruct (decide (0 < middleLossCoefficient p)); [| lra]. reflexivity.
  - exists (retrieval t p). split; [| apply retrieval_floor].
    apply estimateRetrievalAccuracy_real.
    destruct (decide (maxTokens p = degradationOnset p)); [right | left; assumption].
    destruct (decide (degradationOnset p < t)); [tauto | lra].
Qed.

End CurveShape.

Section ScoreFacts.

Lemma toolScore_range (c : R) : 3 <= toolScore c <= 20.
Proof. unfold toolScore. repeat destruct (_ <=? _)%num; lra. Qed.

Lemma sessionScore_range (m : R) : 2 <= sessionScore m <= 15.
Proof. unfold sessionScore. repeat destruct (_ <=? _)%num; lra. Qed.

Lemma toolScore_antitone (c1 c2 : R) : c1 <= c2 -> toolScore c2 <= toolScore c1.
Proof. intros H. unfold toolScore, nle. repeat case_bool_decide; lra. Qed.

Lemma sessionScore_antitone (m1 m2 : R) : m1 <= m2 -> sessionScore m2 <= sessionScore m1.
Proof. intros H. unfold sessionScore, nle. repeat case_bool_decide; lra. Qed.

Lemma clamp_mono (x y : R) : x <= y -> Rmax 0 (Rmin 100 x) <= Rmax 0 (Rmin 100 y).
Proof.
  intros H. apply Rmax_lub; [apply Rmax_l |].
  etransitivity; [| apply Rmax_r]. apply Rmin_glb; [apply Rmin_l |].
  etransitivity; [apply Rmin_r | exact H].
Qed.

Lemma health_score_at_least_16 (q r tools minutes : R) :
  0.2 <= q -> 0.1 <= r ->
  (16 <= round_half_up (Rmax 0 (Rmin 100 (weightedSum q r tools minutes))))%Z.
Proof.
  intros Hq Hr. unfold round_half_up. apply Zfloor_lub.
  pose proof (toolScore_range tools). pose proof (sessionScore_range minutes).
  assert (15.5 <= Rmax 0 (Rmin 100 (weightedSum q r tools minutes))); [| lra].
  etransitivity; [| apply Rmax_r]. apply Rmin_glb; [lra |].
  unfold weightedSum. lra.
Qed.

End ScoreFacts.

Section EstimateBounds.

Lemma retrieval_upper t p :
  degradationOnset p < maxTokens p ->
  0 <= middleLossCoefficient p -> 0.1 < baseRetrievalAccuracy p ->
  0.1 <= retrieval t p <= baseRetrievalAccuracy p
  /\ (retrieval t p = baseRetrievalAccuracy p <-> t <= degradationOnset p).
Proof.
  intros Hp Hc Hb.
  pose proof (retrieval_floor t p) as Hfloor.
  destruct (decide (t <= degradationOnset p)) as [Ht | Ht].
  - rewrite retrieval_below_onset by lra. split; [lra | tauto].
  - pose proof (quality_past_onset t p Hp ltac:(lra)) as Hq.
    pose proof (penalty_nonneg t p Hp Hc) as Hpen.
    assert (Hlt : retrieval t p < baseRetrievalAccuracy p).
    { unfold retrieval. apply Rmax_lub_lt; [lra |]. nra. }
    split; [lra |]. split; [lra | tauto].
Qed.

End EstimateBounds.

Section QualitySlope.

(** On token counts one apart, with a range of at most [10^6] tokens, the
    progress moves by at least [10^-6]. *)
Lemma progress_step t1 t2 p :
  0 < maxTokens p - degradationOnset p <= 1000000 -> t1 + 1 <= t2 ->
  progress t1 p + / 1000000 <= progress t2 p.
Proof.
  intros Hr Ht. unfold progress, Rdiv.
  set (r := maxTokens p - degradationOnset p) in *.
  assert (Hinv : / 1000000 <= / r) by (apply Rinv_le_contravar; lra).
  assert (Hd : (t2 - degradationOnset p) * / r - (t1 - degradationOnset p) * / r
               = (t2 - t1) * / r) by ring.
  assert (/ 1000000 <= (t2 - t1) * / r) by nra.
  lra.
Qed.

Lemma progress_at_onset p : progress (degradationOnset p) p = 0.
Proof. unfold progress, Rdiv. ring. Qed.

Lemma progress_at_capacity p :
  degradationOnset p < maxTokens p -> progress (maxTokens p) p = 1.
Proof. intros H. unfold progress. field. lra. Qed.

Lemma sqrt_millionth : sqrt (/ 1000000) = / 1000.
Proof.
  replace (/ 1000000) with (/ 1000 * / 1000) by lra. apply sqrt_square. lra.
Qed.

Lemma quality_slope t1 t2 p :
  0 < maxTokens p - degradationOnset p <= 1000000 ->
  degradationOnset p + 1 <= t1 -> t1 + 1 <= t2 -> t2 + 1 <= maxTokens p ->
  quality t2 p + / 2000000000 <= quality t1 p
  /\ quality t1 p <= 1 - / 2000000000
  /\ 0.2 + / 2000000 <= quality t2 p.
Proof.
  intros Hr H1 H12 H2.
  destruct (quality_interior t1 p ltac:(lra) ltac:(lra)) as [E1 _].
  destruct (quality_interior t2 p ltac:(lra) ltac:(lra)) as [E2 _].
  pose proof (progress_step (degradationOnset p) t1 p Hr H1) as P1.
  rewrite progress_at_onset in P1.
  pose proof (progress_step t1 t2 p Hr H12) as P12.
  pose proof (progress_step t2 (maxTokens p) p Hr H2) as P2.
  rewrite progress_at_capacity in P2 by lra.
  set (a := progress t1 p) in *. set (b := progress t2 p) in *.
  assert (Sa : / 1000 <= sqrt a)
    by (rewrite <- sqrt_millionth; apply sqrt_le_1_alt; lra).
  assert (Sab : sqrt a <= sqrt b) by (apply sqrt_le_1_alt; lra).
  assert (Sb : sqrt b <= 1) by (rewrite <- sqrt_1; apply sqrt_le_1_alt; lra).
  assert (Ha : / 1000000 * / 1000 <= a * sqrt a)
    by (apply Rmult_le_compat; lra).
  assert (Hab : a * sqrt a + / 1000000 * / 1000 <= b * sqrt b).
  { assert (a * sqrt a + / 1000000 * sqrt a <= b * sqrt a) by nra.
    assert (b * sqrt a <= b * sqrt b) by (apply Rmult_le_compat_l; lra).
    assert (/ 1000000 * / 1000 <= / 1000000 * sqrt a)
      by (apply Rmult_le_compat_l; lra).
    lra. }
  assert (Hb : b * sqrt b <= b * 1) by (apply Rmult_le_compat_l; lra).
  rewrite E1, E2. lra.
Qed.

End QualitySlope.

(** X8.  Between the onset and the capacity the multiplier falls at a
    definite rate.  For a profile whose onset-to-capacity range is at most
    [10^6] tokens (every catalogue entry) and token counts at least one
    token apart and one token inside the range, the multiplier drops by at
    least [5 * 10^-10] from one to the next, stays at least [5 * 10^-10]
    below 1 and at least [5 * 10^-7] above the floor 0.2.  The margins are
    far above the rounding error of the machine arithmetic. *)
Theorem quality_strictly_decreasing (p : ModelProfile) (t1 t2 : R) :
  0 < maxTokens p - degradationOnset p <= 1000000 ->
  degradationOnset p + 1 <= t1 -> t1 + 1 <= t2 -> t2 + 1 <= maxTokens p ->
  (calculateQualityMultiplier t2 p + Fin (/ 2000000000)
     <=? calculateQualityMultiplier t1 p)%num = true
  /\ (calculateQualityMultiplier t1 p <=? Fin (1 - / 2000000000))%num = true
  /\ (Fin (0.2 + / 2000000) <=? calculateQualityMultiplier t2 p)%num = true.
Proof.
  intros Hr H1 H12 H2. rewrite !calculateQualityMultiplier_real, nadd_fin.
  destruct (quality_slope t1 t2 p Hr H1 H12 H2) as (A & B & C).
  repeat split; apply nle_fin; assumption.
Qed.

Lemma quality_strictly_decreasing_witness :
  (calculateQualityMultiplier 160000 claude_opus_4 + Fin (/ 2000000000)
     <=? calculateQualityMultiplier 150000 claude_opus_4)%num = true
  /\ (calculateQualityMultiplier 150000 claude_opus_4 <=? Fin (1 - / 2000000000))%num
     = true
  /\ (Fin (0.2 + / 2000000) <=? calculateQualityMultiplier 160000 claude_opus_4)%num
     = true.
Proof.
  apply (quality_strictly_decreasing claude_opus_4 150000 160000); cbn; lra.
Defined.

(** X9.  For a profile with a positive onset-to-capacity range, a
    non-negative coefficient and a base accuracy above 0.1, the estimate
    never exceeds the base accuracy and equals it exactly up to the
    onset. *)
Theorem retrieval_accuracy_at_most_base (p : ModelProfile) (t : R) :
  degradationOnset p < maxTokens p ->
  0 <= middleLossCoefficient p -> 0.1 < baseRetrievalAccuracy p ->
  exists r, estimateRetrievalAccuracy t p = Fin r
            /\ 0.1 <= r <= baseRetrievalAccuracy p
            /\ (r = baseRetrievalAccuracy p <-> t <= degradationOnset p).
Proof.
  intros Hp Hc Hb. exists (retrieval t p).
  split; [apply estimateRetrievalAccuracy_real; left; lra |].
  now apply retrieval_upper.
Qed.

Lemma retrieval_accuracy_at_most_base_witness :
  exists r, estimateRetrievalAccuracy 150000 claude_opus_4 = Fin r
            /\ 0.1 <= r <= baseRetrievalAccuracy claude_opus_4
            /\ (r = baseRetrievalAccuracy claude_opus_4
                <-> 150000 <= degradationOnset claude_opus_4).
Proof.
  apply (retrieval_accuracy_at_most_base claude_opus_4 150000); cbn; lra.
Defined.

(** X10.  With a positive middle-loss coefficient (every catalogue entry
    and every generated profile has one) the health score is a whole
    number between 16 and 100 whatever the other fields and the input are,
    and the status follows the thresholds 70 and 40. *)
Theorem health_score_range (input : AssessmentInput) (p : ModelProfile) :
  0 < middleLossCoefficient p ->
  exists n : Z,
    health_score (assessHealth input p) = Fin (IZR n)
    /\ (16 <= n <= 100)%Z
    /\ (status (assessHealth input p) = healthy <-> (70 <= n)%Z)
    /\ (status (assessHealth input p) = warning <-> (40 <= n < 70)%Z)
    /\ (status (assessHealth input p) = danger <-> (n < 40)%Z).
Proof.
  intros Hc.
  destruct (estimateRetrievalAccuracy_number (tokenCount input) p Hc) as (r & Hr & Hr1).
  pose proof (quality_bounds (tokenCount input) p) as Hq.
  set (tools := default 0 (toolCallsCount input)).
  set (minutes := default 0 (sessionDurationMinutes input)).
  destruct (computeHealthScore_finite (quality (tokenCount input) p) r tools minutes)
    as [Heq Hrange].
  pose proof (health_score_at_least_16 (quality (tokenCount input) p) r tools minutes
                ltac:(lra) Hr1) as H16.
  eexists. unfold assessHealth. cbn [health_score status].
  rewrite calculateQualityMultiplier_real, Hr.
  fold tools minutes. rewrite Heq.
  split; [reflexivity |]. split; [lia |]. apply scoreToStatus_integer.
Qed.

Lemma health_score_range_witness :
  exists n : Z,
    health_score (assessHealth opus_past_danger claude_opus_4) = Fin (IZR n)
    /\ (16 <= n <= 100)%Z
    /\ (status (assessHealth opus_past_danger claude_opus_4) = healthy <-> (70 <= n)%Z)
    /\ (status (assessHealth opus_past_danger claude_opus_4) = warning
        <-> (40 <= n < 70)%Z)
    /\ (status (assessHealth opus_past_danger claude_opus_4) = danger <-> (n < 40)%Z).
Proof. apply (health_score_range opus_past_danger claude_opus_4). cbn. lra. Defined.

(** X11.  More tokens, more tool calls or a longer session never raise the
    health score. *)
Theorem health_score_monotone (p : ModelProfile) (i1 i2 : AssessmentInput) :
  degradationOnset p < maxTokens p ->
  0 <= middleLossCoefficient p -> 0 <= baseRetrievalAccuracy p ->
  tokenCount i1 <= tokenCount i2 ->
  default 0 (toolCallsCount i1) <= default 0 (toolCallsCount i2) ->
  default 0 (sessionDurationMinutes i1) <= default 0 (sessionDurationMinutes i2) ->
  (health_score (assessHealth i2 p) <=? health_score (assessHealth i1 p))%num = true.
Proof.
  intros Hp Hc Hb Ht Htools Hmin.
  destruct (health_score_of_numbers i1 p ltac:(left; lra)) as [E1 _].
  destruct (health_score_of_numbers i2 p ltac:(left; lra)) as [E2 _].
  rewrite E1, E2. apply nle_fin, IZR_le, round_half_up_mono, clamp_mono.
  unfold weightedSum.
  pose proof (quality_mono _ _ p Ht). pose proof (retrieval_mono _ _ p Hp Hc Hb Ht).
  pose proof (toolScore_antitone _ _ Htools).
  pose proof (sessionScore_antitone _ _ Hmin). lra.
Qed.

Lemma health_score_monotone_witness :
  (health_score (assessHealth opus_late_session claude_opus_4)
     <=? health_score (assessHealth opus_mid_session claude_opus_4))%num = true.
Proof.
  apply (health_score_monotone claude_opus_4 opus_mid_session opus_late_session);
    cbn; lra.
Defined.

(** ** Risk levels and thresholds *)

Section RiskFacts.

Lemma calculateToolCallBurden_rank (c : R) :
  ((risk_rank (calculateToolCallBurden c) <= 0)%nat <-> c <= 5)
  /\ ((risk_rank (calculateToolCallBurden c) <= 1)%nat <-> c <= 15)
  /\ ((risk_rank (calculateToolCallBurden c) <= 2)%nat <-> c <= 30).
Proof.
  unfold calculateToolCallBurden, nle.
  repeat case_bool_decide; cbn; repeat split; intros; try lia; try lra.
Qed.

Lemma calculateSessionLengthRisk_rank (m : R) :
  ((risk_rank (calculateSessionLengthRisk m) <= 0)%nat <-> m <= 15)
  /\ ((risk_rank (calculateSessionLengthRisk m) <= 1)%nat <-> m <= 45)
  /\ ((risk_rank (calculateSessionLengthRisk m) <= 2)%nat <-> m <= 90).
Proof.
  unfold calculateSessionLengthRisk, nle.
  repeat case_bool_decide; cbn; repeat split; intros; try lia; try lra.
Qed.

Lemma calculateMiddleContentRisk_rank (t : R) (p : ModelProfile) :
  0 < maxTokens p ->
  ((risk_rank (calculateMiddleContentRisk t p) <= 0)%nat <-> t < 0.3 * maxTokens p)
  /\ ((risk_rank (calculateMiddleContentRisk t p) <= 1)%nat <-> t < 0.5 * maxTokens p)
  /\ ((risk_rank (calculateMiddleContentRisk t p) <= 2)%nat <-> t < 0.75 * maxTokens p).
Proof.
  intros Hm. unfold calculateMiddleContentRisk. cbv zeta.
  rewrite ndiv_fin by lra. unfold nlt.
  assert (Hdiv : forall c, t / maxTokens p < c <-> t < c * maxTokens p).
  { intros c. split; intros H.
    - apply (Rmult_lt_compat_r (maxTokens p)) in H; [| exact Hm].
      unfold Rdiv in H. rewrite Rmult_assoc, Rinv_l in H by lra. lra.
    - apply (Rmult_lt_reg_r (maxTokens p)); [exact Hm |].
      unfold Rdiv. rewrite Rmult_assoc, Rinv_l by lra. lra. }
  rewrite <- !Hdiv.
  repeat case_bool_decide; cbn; repeat split; intros; try lia; try lra.
Qed.

Lemma is_high_or_critical_rank (r : RiskLevel) :
  is_high_or_critical r = false <-> (risk_rank r <= 1)%nat.
Proof. destruct r; cbn; split; intros; try lia; try discriminate; reflexivity. Qed.

End RiskFacts.

Section AssessmentFacts.

Variables (input : AssessmentInput) (p : ModelProfile).
Hypothesis Ht : 1 <= tokenCount input <= 1000000000000000.
Hypothesis Hdz : 1 <= dangerZone p <= 1000000000000000.

Lemma quotient_times_dangerZone :
  tokenCount input / dangerZone p * dangerZone p = tokenCount input.
Proof. field. lra. Qed.

Lemma tenths_nonneg : (0 <= tenths (tokenCount input) (dangerZone p))%Z.
Proof.
  pose proof (quotient_range _ _ Ht Hdz) as [Q1 Q2].
  destruct (scaled_quotient_bounds _ _ Ht Hdz) as [B1 _].
  unfold tenths, round_half_up. apply Zfloor_lub. lra.
Qed.

Lemma tenths_upper : IZR (tenths (tokenCount input) (dangerZone p)) <= 2000000000000000000.
Proof.
  pose proof (quotient_range _ _ Ht Hdz) as [Q1 Q2].
  destruct (scaled_quotient_bounds _ _ Ht Hdz) as [_ B2].
  pose proof (round_half_up_bounds
                (binary64R (binary64R (tokenCount input / dangerZone p) * 1000))) as [_ Hb].
  unfold tenths. lra.
Qed.

(** The percentage reaches a whole-number threshold [c] once the token
    count is past [c - 0.05] percent of the danger zone by a relative
    [10^-7] percent, and misses it when the count is short of that by as
    much.  In between, the rounding of the quotient and of the product
    decides. *)
Lemma percentage_reaches (c : Z) :
  (1 <= c <= 100)%Z ->
  (IZR c - 0.0499999) * dangerZone p <= 100 * tokenCount input ->
  (percentage (token_utilization (assessHealth input p)) >=? IZR c)%num = true.
Proof.
  intros Hc Hband.
  assert (HC : 1 <= IZR c <= 100) by (split; apply IZR_le; lia).
  pose proof (quotient_range _ _ Ht Hdz) as [Q1 Q2].
  destruct (scaled_quotient_bounds _ _ Ht Hdz) as [B1 _].
  pose proof quotient_times_dangerZone as Hq.
  pose proof tenths_upper as Hup.
  rewrite percentage_tenths by assumption.
  unfold tenths in *.
  set (q := tokenCount input / dangerZone p) in *.
  set (y := binary64R (binary64R q * 1000)) in *.
  assert (Hq100 : IZR c - 0.0499999 <= 100 * q).
  { apply (Rmult_le_reg_r (dangerZone p)); [lra |]. lra. }
  assert (Hk : (10 * c <= round_half_up y)%Z).
  { unfold round_half_up. apply Zfloor_lub. rewrite mult_IZR. lra. }
  apply IZR_le in Hk. rewrite mult_IZR in Hk.
  set (k := round_half_up y) in *.
  rewrite binary64_finite by lra.
  unfold nge. apply nle_fin.
  pose proof (binary64R_ge (IZR k / 10) c 0) as Hge.
  rewrite powerRZ_O, Rmult_1_r in Hge. apply Hge.
  - apply normal_range. lra.
  - change (2 ^ 53)%Z with 9007199254740992%Z. lia.
  - lra.
Qed.

Lemma percentage_misses (c : Z) :
  (1 <= c <= 100)%Z ->
  100 * tokenCount input <= (IZR c - 0.0500001) * dangerZone p ->
  (percentage (token_utilization (assessHealth input p)) >=? IZR c)%num = false.
Proof.
  intros Hc Hband.
  assert (HC : 1 <= IZR c <= 100) by (split; apply IZR_le; lia).
  pose proof (quotient_range _ _ Ht Hdz) as [Q1 Q2].
  destruct (scaled_quotient_bounds _ _ Ht Hdz) as [_ B2].
  pose proof quotient_times_dangerZone as Hq.
  pose proof tenths_nonneg as Hk0.
  rewrite percentage_tenths by assumption.
  unfold tenths in *.
  set (q := tokenCount input / dangerZone p) in *.
  set (y := binary64R (binary64R q * 1000)) in *.
  assert (Hq100 : 100 * q <= IZR c - 0.0500001).
  { apply (Rmult_le_reg_r (dangerZone p)); [lra |]. lra. }
  assert (Hk : (round_half_up y < 10 * c)%Z).
  { apply lt_IZR. rewrite mult_IZR.
    pose proof (round_half_up_bounds y) as [_ Hb]. lra. }
  set (k := round_half_up y) in *.
  unfold nge.
  destruct (Z.eq_dec k 0%Z) as [-> | Hne].
  - replace (IZR 0 / 10) with 0 by lra. rewrite binary64_zero.
    apply nle_fin_false. lra.
  - assert (Hk1 : 1 <= IZR k) by (apply IZR_le; lia).
    assert (Hk2 : IZR k <= 10 * IZR c - 1).
    { rewrite <- mult_IZR, <- minus_IZR. apply IZR_le. lia. }
    pose proof (binary64R_bounds (IZR k / 10) ltac:(lra)) as [_ Hb].
    rewrite binary64_finite by lra.
    apply nle_fin_false. lra.
Qed.

End AssessmentFacts.

(** X12.  The two score components follow the two fatigue levels: the tool
    component is 20, 15, 8 or 3 and the session component 15, 12, 6 or 2
    according to whether the level is low, moderate, high or critical. *)
Theorem score_components_follow_fatigue_levels (c m : R) :
  toolScore c
  = match calculateToolCallBurden c with
    | low => 20 | moderate => 15 | high => 8 | critical => 3
    end
  /\ sessionScore m
     = match calculateSessionLengthRisk m with
       | low => 15 | moderate => 12 | high => 6 | critical => 2
       end.
Proof.
  unfold toolScore, calculateToolCallBurden, sessionScore, calculateSessionLengthRisk.
  split; repeat destruct (_ <=? _)%num; reflexivity.
Qed.

(** X13.  Every risk classifier is monotone: more tool calls, a longer
    session or more tokens never lower the level, and the hallucination
    risk never falls when the accuracy falls or the tool burden rises. *)
Theorem risk_levels_monotone (p : ModelProfile) (c1 c2 m1 m2 t1 t2 r1 r2 : R)
    (b1 b2 : RiskLevel) :
  c1 <= c2 -> m1 <= m2 -> 0 < maxTokens p -> t1 <= t2 -> r1 <= r2 ->
  (risk_rank b1 <= risk_rank b2)%nat ->
  (risk_rank (calculateToolCallBurden c1) <= risk_rank (calculateToolCallBurden c2))%nat
  /\ (risk_rank (calculateSessionLengthRisk m1)
      <= risk_rank (calculateSessionLengthRisk m2))%nat
  /\ (risk_rank (calculateMiddleContentRisk t1 p)
      <= risk_rank (calculateMiddleContentRisk t2 p))%nat
  /\ (risk_rank (calculateHallucinationRisk (Fin r2) b1)
      <= risk_rank (calculateHallucinationRisk (Fin r1) b2))%nat.
Proof.
  intros Hc Hm Hmax Ht Hr Hb.
  split; [| split; [| split]].
  - unfold calculateToolCallBurden, nle. repeat case_bool_decide; cbn; lia || lra.
  - unfold calculateSessionLengthRisk, nle. repeat case_bool_decide; cbn; lia || lra.
  - destruct (calculateMiddleContentRisk_rank t1 p Hmax) as (A0 & A1 & A2).
    destruct (calculateMiddleContentRisk_rank t2 p Hmax) as (B0 & B1 & B2).
    destruct (calculateMiddleContentRisk t2 p); cbn in *; try lia.
    + apply A0. assert (t2 < 0.3 * maxTokens p) by (apply B0; lia). lra.
    + apply A1. assert (t2 < 0.5 * maxTokens p) by (apply B1; lia). lra.
    + apply A2. assert (t2 < 0.75 * maxTokens p) by (apply B2; lia). lra.
    + destruct (calculateMiddleContentRisk t1 p); cbn; lia.
  - unfold calculateHallucinationRisk.
    destruct b1, b2; cbn in Hb; try lia; cbn [decide]; cbv zeta;
      repeat match goal with
             | |- context [decide (?a = ?b)] => destruct (decide (a = b)); try discriminate
             end;
      try congruence;
      rewrite !nsub_fin; unfold ngt, nlt; repeat case_bool_decide; cbn; lia || lra.
Qed.

Lemma risk_levels_monotone_witness :
  (risk_rank (calculateToolCallBurden 10) <= risk_rank (calculateToolCallBurden 40))%nat
  /\ (risk_rank (calculateSessionLengthRisk 30)
      <= risk_rank (calculateSessionLengthRisk 120))%nat
  /\ (risk_rank (calculateMiddleContentRisk 150000 claude_opus_4)
      <= risk_rank (calculateMiddleContentRisk 195000 claude_opus_4))%nat
  /\ (risk_rank (calculateHallucinationRisk (Fin 0.9) moderate)
      <= risk_rank (calculateHallucinationRisk (Fin 0.6) critical))%nat.
Proof.
  apply (risk_levels_monotone claude_opus_4 10 40 30 120 150000 195000 0.6 0.9
           moderate critical); cbn; lra || lia.
Defined.



(** X15.  The fatigue message depends only on the worse of the two levels
    and not on which of them it is. *)
Theorem session_fatigue_by_worse_level (a b : RiskLevel) :
  sessionFatigueRecommendation a b = sessionFatigueRecommendation b a
  /\ sessionFatigueRecommendation a b
     = sessionFatigueRecommendation (worse a b) (worse a b).
Proof. destruct a, b; split; reflexivity. Qed.

(** X16.  The utilization actions in terms of the token count, for token
    counts and danger zones between 1 and [10^15].  Because the percentage
    is rounded to one decimal, each rung is reached about 0.05 percent of
    the danger zone early: the reset is recommended once the count is past
    99.95 percent of the danger zone, and so on down the ladder.  Within
    [10^-7] percent of such a threshold the rounding of the machine
    quotient and product decides; outside these bands the action is the
    one the exact ratio gives. *)
Theorem utilization_actions_in_tokens (input : AssessmentInput) (p : ModelProfile) :
  1 <= tokenCount input <= 1000000000000000 ->
  1 <= dangerZone p <= 1000000000000000 ->
  let recs := generateRecommendations (assessHealth input p) in
  let t := tokenCount input in
  let dz := dangerZone p in
  (99.9500001 * dz <= 100 * t -> rec_immediate_context_reset ∈ recs)
  /\ (100 * t <= 99.9499999 * dz -> rec_immediate_context_reset ∉ recs)
  /\ (79.9500001 * dz <= 100 * t <= 99.9499999 * dz
      -> rec_compact_context_critical ∈ recs)
  /\ (59.9500001 * dz <= 100 * t <= 79.9499999 * dz
      -> rec_compact_context_high ∈ recs)
  /\ (39.9500001 * dz <= 100 * t <= 59.9499999 * dz
      -> rec_plan_compaction ∈ recs)
  /\ (100 * t <= 39.9499999 * dz -> forall x, x ∈ ladder -> x ∉ recs).
Proof.
  intros Ht Hdz recs t dz. unfold recs, generateRecommendations.
  pose proof (percentage_reaches input p Ht Hdz 100 ltac:(lia)) as R100.
  pose proof (percentage_reaches input p Ht Hdz 80 ltac:(lia)) as R80.
  pose proof (percentage_reaches input p Ht Hdz 60 ltac:(lia)) as R60.
  pose proof (percentage_reaches input p Ht Hdz 40 ltac:(lia)) as R40.
  pose proof (percentage_misses input p Ht Hdz 100 ltac:(lia)) as M100.
  pose proof (percentage_misses input p Ht Hdz 80 ltac:(lia)) as M80.
  pose proof (percentage_misses input p Ht Hdz 60 ltac:(lia)) as M60.
  pose proof (percentage_misses input p Ht Hdz 40 ltac:(lia)) as M40.
  fold t dz in R100, R80, R60, R40, M100, M80, M60, M40, Ht, Hdz.
  split; [| split; [| split; [| split; [| split]]]].
  - intros H. rewrite Array_sort_elem, pushedRecs_ladder by (unfold ladder; rewrite !elem_of_cons; tauto).
    unfold utilizationRecs. rewrite R100 by lra. now apply list_elem_of_singleton.
  - intros H. rewrite Array_sort_elem, pushedRecs_ladder by (unfold ladder; rewrite !elem_of_cons; tauto).
    unfold utilizationRecs. rewrite M100 by lra.
    repeat match goal with
           | |- context [(?a >=? ?b)%num] => destruct (a >=? b)%num
           end; rewrite ?list_elem_of_singleton, ?elem_of_nil; try discriminate; tauto.
  - intros H. rewrite Array_sort_elem, pushedRecs_ladder by (unfold ladder; rewrite !elem_of_cons; tauto).
    unfold utilizationRecs. rewrite M100, R80 by lra. now apply list_elem_of_singleton.
  - intros H. rewrite Array_sort_elem, pushedRecs_ladder by (unfold ladder; rewrite !elem_of_cons; tauto).
    unfold utilizationRecs. rewrite M100, M80, R60 by lra.
    now apply list_elem_of_singleton.
  - intros H. rewrite Array_sort_elem, pushedRecs_ladder by (unfold ladder; rewrite !elem_of_cons; tauto).
    unfold utilizationRecs. rewrite M100, M80, M60, R40 by lra.
    now apply list_elem_of_singleton.
  - intros H x Hx. rewrite Array_sort_elem, pushedRecs_ladder by exact Hx.
    unfold utilizationRecs. rewrite M100, M80, M60, M40 by lra. apply not_elem_of_nil.
Qed.

Lemma utilization_actions_in_tokens_witness :
  rec_immediate_context_reset
  ∈ generateRecommendations (assessHealth opus_past_danger claude_opus_4).
Proof.
  apply (utilization_actions_in_tokens opus_past_danger claude_opus_4); cbn; lra.
Defined.

(** ** Repository ids *)

Section RepoIdFacts.

Lemma split_slash_cons (s : string) : exists h t, split_slash s = h :: t.
Proof.
  induction s as [| c s (h & t & IH)]; cbn [split_slash]; [by eexists _, _ |].
  destruct (Ascii.eqb c "/"); [by eexists _, _ |]. rewrite IH. by eexists _, _.
Qed.

Lemma join_slash_cons (s h : string) (t : list string) :
  join_slash (s :: h :: t) = String.append s (String "/" (join_slash (h :: t))).
Proof. reflexivity. Qed.

Lemma join_split_slash (s : string) : join_slash (split_slash s) = s.
Proof.
  induction s as [| c s IH]; [reflexivity |]. cbn [split_slash].
  destruct (split_slash_cons s) as (h & t & E). rewrite E in *.
  destruct (Ascii.eqb c "/") eqn:Hc.
  - apply Ascii.eqb_eq in Hc. subst c.
    rewrite join_slash_cons. rewrite <- IH. reflexivity.
  - destruct t as [| h2 t].
    + cbn [join_slash] in *. rewrite <- IH. reflexivity.
    + rewrite join_slash_cons in *. rewrite <- IH. reflexivity.
Qed.

Lemma split_slash_parts (s : string) :
  Forall (fun part => has_slash part = false) (split_slash s).
Proof.
  induction s as [| c s IH]; cbn [split_slash]; [by repeat constructor |].
  destruct (Ascii.eqb c "/") eqn:Hc; [by constructor |].
  destruct (split_slash_cons s) as (h & t & E). rewrite E in *.
  apply Forall_cons in IH as [Hh Ht]. constructor; [| exact Ht].
  cbn [has_slash]. now rewrite Hc, Hh.
Qed.

Lemma split_slash_append (a b : string) :
  has_slash a = false ->
  split_slash (String.append a (String "/" b)) = a :: split_slash b.
Proof.
  induction a as [| c a IH]; cbn [String.append split_slash has_slash]; intros Ha.
  - reflexivity.
  - apply orb_false_iff in Ha as [Hc Ha].
    change (split_slash (String c (String.append a (String "/" b)))
            = String c a :: split_slash b).
    cbn [split_slash]. rewrite Hc, (IH Ha). reflexivity.
Qed.

Lemma split_slash_plain (s : string) : has_slash s = false -> split_slash s = [s].
Proof.
  induction s as [| c s IH]; cbn [split_slash has_slash]; intros Hs; [reflexivity |].
  apply orb_false_iff in Hs as [Hc Hs]. now rewrite Hc, (IH Hs).
Qed.

Lemma length_pos_iff (s : string) : (0 <? String.length s)%nat = true <-> s <> EmptyString.
Proof. destruct s; cbn; split; intros; try congruence; try discriminate; reflexivity. Qed.

End RepoIdFacts.

(** X18.  Splitting at the slashes and joining with a slash gives the
    string back, and a name is taken for a repository id exactly when it
    is [owner/repo] with both parts non-empty and free of slashes. *)
Theorem looksLikeHuggingFaceRepoId_iff (model : string) :
  join_slash (split_slash model) = model
  /\ (looksLikeHuggingFaceRepoId model = true
      <-> exists owner repo,
            model = String.append owner (String "/" repo)
            /\ owner <> EmptyString /\ repo <> EmptyString
            /\ has_slash owner = false /\ has_slash repo = false).
Proof.
  split; [apply join_split_slash |].
  unfold looksLikeHuggingFaceRepoId. split.
  - pose proof (join_split_slash model) as Hjoin.
    pose proof (split_slash_parts model) as Hparts.
    destruct (split_slash model) as [| p0 [| p1 [| p2 rest]]]; try discriminate.
    intros Hlen. apply andb_true_iff in Hlen as [H0 H1].
    apply length_pos_iff in H0, H1.
    apply Forall_cons in Hparts as [Hs0 Hparts].
    apply Forall_cons in Hparts as [Hs1 _].
    exists p0, p1. cbn [join_slash] in Hjoin. now rewrite Hjoin.
  - intros (owner & repo & -> & Ho & Hr & Hso & Hsr).
    rewrite split_slash_append, split_slash_plain by assumption.
    apply andb_true_iff. now rewrite !length_pos_iff.
Qed.

(** ** Fetch outcomes and the cache *)

Section OutcomeFacts.




End OutcomeFacts.



Section CacheFacts.


Lemma getCached_lookup (k : string) (st : Resolver) :
  fst (getCached k st) = profile_json <$> cache_lookup k st.
Proof. apply getCached_spec. Qed.

End CacheFacts.

(** ** Calls made one after the other; cached keys *)

Section SequentialCalls.

Lemma cache_lookup_same_db (k : string) (st st' : Resolver) :
  db st' = db st -> cache_lookup k st' = cache_lookup k st.
Proof. intros H. unfold cache_lookup. now rewrite H. Qed.


End SequentialCalls.



Section CachedKeys.

Lemma resolveModelProfile_cached (model : string) (st : Resolver) (row : CacheRow) :
  looksLikeHuggingFaceRepoId model = true ->
  cache_lookup model st = Some row ->
  resolveModelProfile model st
  = (Returned (VProfile (profile_json row)), snd (getCached model st)).
Proof.
  intros Hrepo Hrow. unfold resolveModelProfile.
  rewrite (repo_id_is_unrecognized model Hrepo), Hrepo. cbn [negb].
  pose proof (getCached_lookup model st) as Hc. rewrite Hrow in Hc.
  destruct (getCached model st) as [c st1]. cbn [fst snd] in *. subst c.
  reflexivity.
Qed.

Lemma cached_step (e : Event) (st st' : Resolver) calls (key : string)
    (row : CacheRow) :
  Invariant st -> cache_lookup key st = Some row ->
  step e st = Some (calls, st') ->
  cache_lookup key st' = Some row
  /\ fetches key st' = fetches key st
  /\ (looksLikeHuggingFaceRepoId key = true ->
      forall r, (key, r) ∈ calls -> r = Returned (VProfile (profile_json row))).
Proof.
  intros Hinv Hrow. destruct e as [model | pid outcome | pid]; cbn [step].
  - destruct (resolveModelProfile model st) as [r st1] eqn:Hcall.
    intros [= <- <-].
    assert (Hcalls : looksLikeHuggingFaceRepoId key = true ->
                     forall r', (key, r') ∈ [(model, r)] ->
                                r' = Returned (VProfile (profile_json row))).
    { intros Hrepo r' Hin. apply list_elem_of_singleton in Hin as [= <- ->].
      rewrite (resolveModelProfile_cached key st row Hrepo Hrow) in Hcall.
      now injection Hcall as <- _. }
    destruct (resolveModelProfile_spec model st r st1 Hcall)
      as [(v & _ & Hdb & _ & _ & Hio & _) | [(pid & _ & _ & Hdb & _ & _ & Hio)
         | (_ & _ & _ & Hmiss & _ & ->)]].
    + split; [now rewrite (cache_lookup_same_db key st st1 Hdb) |].
      split; [apply Hio | exact Hcalls].
    + split; [now rewrite (cache_lookup_same_db key st st1 Hdb) |].
      split; [apply Hio | exact Hcalls].
    + split; [exact Hrow |]. split; [| exact Hcalls].
      rewrite fetches_fetch_started, bool_decide_eq_false_2; [lia |].
      intros ->. congruence.
  - destruct (settle pid outcome st) as [st1 |] eqn:Hs; [| discriminate].
    cbn. intros [= <- <-].
    destruct (settle_spec pid outcome st st1 Hs)
      as (p & m & Hp & Hnone & _ & _ & _ & Hio & Hcache & _).
    split; [| split; [apply Hio | intros _ r Hin; now apply elem_of_nil in Hin]].
    rewrite Hcache; [exact Hrow |]. intros ->.
    pose proof (inv_pending_not_cached st Hinv pid p Hp Hnone). congruence.
  - destruct (finalize pid st) as [st1 |] eqn:Hs; [| discriminate].
    cbn. intros [= <- <-].
    destruct (finalize_spec pid st st1 Hs) as (p & c & _ & _ & _ & Hdb & _ & _ & Hio).
    split; [now rewrite (cache_lookup_same_db key st st1 Hdb) |].
    split; [apply Hio | intros _ r Hin; now apply elem_of_nil in Hin].
Qed.

Lemma cached_run (schedule : list Event) (st st' : Resolver) calls (key : string)
    (row : CacheRow) :
  Invariant st -> cache_lookup key st = Some row ->
  run schedule st = Some (calls, st') ->
  cache_lookup key st' = Some row
  /\ fetches key st' = fetches key st
  /\ (looksLikeHuggingFaceRepoId key = true ->
      forall r, (key, r) ∈ calls -> r = Returned (VProfile (profile_json row))).
Proof.
  revert st calls. induction schedule as [| e rest IH]; intros st calls Hinv Hrow.
  - cbn. intros [= <- <-]. repeat split; [exact Hrow |].
    intros _ r Hin. now apply elem_of_nil in Hin.
  - intros Hrun. apply run_cons in Hrun as (c1 & st1 & c2 & Hstep & Hrest & ->).
    destruct (cached_step e st st1 c1 key row Hinv Hrow Hstep) as (H1 & H2 & H3).
    destruct (IH st1 c2 (Invariant_step e st st1 c1 Hinv Hstep) H1 Hrest)
      as (H4 & H5 & H6).
    split; [exact H4 |]. split; [congruence |].
    intros Hrepo r Hin. apply elem_of_app in Hin as [Hin | Hin]; auto.
Qed.

End CachedKeys.

(** X22.  Once a key is cached it stays cached with the same row, whatever
    runs afterwards: no schedule of calls, answers and [finally] blocks
    changes the row or issues another request for the key, and every call
    for it (when it is a repository id) returns the cached profile at
    once. *)
Theorem cached_profile_is_stable (st st' : Resolver) (key : string) (row : CacheRow)
    (schedule : list Event) (calls : list (string * CallResult)) :
  reachable st -> cache_lookup key st = Some row ->
  run schedule st = Some (calls, st') ->
  cache_lookup key st' = Some row
  /\ fetches key st' = fetches key st
  /\ (looksLikeHuggingFaceRepoId key = true ->
      forall r, (key, r) ∈ calls -> r = Returned (VProfile (profile_json row))).
Proof.
  intros Hreach. apply cached_run. now apply reachable_Invariant.
Qed.

Lemma cached_profile_is_stable_witness :
  exists calls st',
    run two_more_callers warm_cache = Some (calls, st')
    /\ cache_lookup "org/model" st' = Some cached_row
    /\ fetches "org/model" st' = fetches "org/model" warm_cache
    /\ (looksLikeHuggingFaceRepoId "org/model" = true ->
        forall r, ("org/model", r) ∈ calls
                  -> r = Returned (VProfile (profile_json cached_row))).
Proof.
  set (st1 := snd (getCached "org/model" warm_cache)).
  set (st2 := snd (getCached "org/model" st1)).
  set (hit := Returned (VProfile (profile_json cached_row))).
  assert (Hrow : cache_lookup "org/model" warm_cache = Some cached_row)
    by apply lookup_singleton_eq.
  assert (H1 : resolveModelProfile "org/model" warm_cache = (hit, st1))
    by (apply resolveModelProfile_cached; [reflexivity | exact Hrow]).
  assert (H2 : resolveModelProfile "org/model" st1 = (hit, st2))
    by (apply resolveModelProfile_cached; [reflexivity | exact Hrow]).
  assert (Hrun : run two_more_callers warm_cache
                 = Some ([("org/model", hit); ("org/model", hit)], st2)).
  { unfold two_more_callers. cbn [run step]. rewrite H1. cbn [mbind option_bind].
    rewrite H2. reflexivity. }
  eexists _, st2. split; [exact Hrun |].
  apply (cached_profile_is_stable warm_cache st2 "org/model" cached_row
           two_more_callers _).
  - exists (Some {[ "org/model" := cached_row ]}), [], []. reflexivity.
  - exact Hrow.
  - exact Hrun.
Defined.

(** ** What the in-flight map holds *)

Section InFlightEntries.

Lemma InFlightLive_step (e : Event) (st st' : Resolver) calls :
  InFlightLive st -> step e st = Some (calls, st') -> InFlightLive st'.
Proof.
  intros Hlive. destruct e as [model | pid outcome | pid]; cbn [step].
  - destruct (resolveModelProfile model st) as [r st1] eqn:Hcall.
    intros [= _ <-].
    destruct (resolveModelProfile_spec model st r st1 Hcall)
      as [(v & _ & _ & Hfl & Hpr & _) | [(pid & _ & _ & _ & Hfl & Hpr & _)
         | (_ & _ & _ & _ & _ & ->)]].
    + intros k pid. rewrite Hfl, Hpr. apply Hlive.
    + intros k pid'. rewrite Hfl, Hpr. apply Hlive.
    + intros k pid. cbn [fetch_started inFlightRequests promises].
      rewrite lookup_insert_Some. intros [[<- <-] | [Hne Hk]].
      * exists {| repo_id := model; settlement := None; finalized := false |}.
        split; [| split; reflexivity].
        rewrite lookup_app_r by lia. now rewrite Nat.sub_diag.
      * destruct (Hlive k pid Hk) as (p & Hp & Hkp & Hf).
        exists p. split; [| now split]. now apply lookup_app_l_Some.
  - destruct (settle pid outcome st) as [st1 |] eqn:Hs; [| discriminate].
    cbn. intros [= _ <-].
    destruct (settle_spec pid outcome st st1 Hs)
      as (p & m & Hp & _ & _ & Hfl & Hpr & _).
    intros k pid'. rewrite Hfl, Hpr. intros Hk.
    destruct (Hlive k pid' Hk) as (q & Hq & Hkq & Hf).
    destruct (decide (pid' = pid)) as [-> | Hne].
    + eexists. split; [apply list_lookup_insert_eq; now apply lookup_lt_Some in Hp |].
      cbn [repo_id finalized]. split; congruence.
    + exists q. split; [| now split]. now rewrite list_lookup_insert_ne.
  - destruct (finalize pid st) as [st1 |] eqn:Hs; [| discriminate].
    cbn. intros [= _ <-].
    destruct (finalize_spec pid st st1 Hs) as (p & c & Hp & _ & _ & _ & Hfl & Hpr & _).
    intros k pid'. rewrite Hfl, Hpr, lookup_delete_Some. intros [Hne Hk].
    destruct (Hlive k pid' Hk) as (q & Hq & Hkq & Hf).
    exists q. split; [| now split].
    rewrite list_lookup_insert_ne; [exact Hq |]. intros <-. congruence.
Qed.

Lemma InFlightLive_run (events : list Event) (st st' : Resolver) calls :
  InFlightLive st -> run events st = Some (calls, st') -> InFlightLive st'.
Proof.
  revert st calls. induction events as [| e rest IH]; intros st calls Hlive.
  - cbn. now intros [= _ <-].
  - intros Hrun. apply run_cons in Hrun as (c1 & st1 & c2 & Hstep & Hrest & _).
    eapply IH; [| eassumption]. eapply InFlightLive_step; eassumption.
Qed.

End InFlightEntries.

(** X24.  In every state the resolver can reach, the in-flight map holds
    exactly the fetches whose starting call has not yet run its [finally]
    block: an entry [key -> pid] is there if and only if promise [pid]
    was started for [key] and is not finalized.  No entry is left behind
    and none is removed early. *)
Theorem in_flight_entries_are_live (st : Resolver) (key : string) (pid : nat) :
  reachable st ->
  inFlightRequests st !! key = Some pid
  <-> exists p, promises st !! pid = Some p /\ repo_id p = key /\ finalized p = false.
Proof.
  intros Hreach. split.
  - destruct Hreach as (database & events & calls & Hrun).
    apply (InFlightLive_run events (newResolver database) st calls); [| exact Hrun].
    intros k pid'. cbn. rewrite lookup_empty. discriminate.
  - intros (p & Hp & <- & Hf).
    now apply (inv_in_flight st (reachable_Invariant st Hreach)).
Qed.

Lemma in_flight_entries_are_live_witness :
  let st := fetch_started "org/model" empty_cache in
  inFlightRequests st !! "org/model" = Some 0%nat
  /\ exists p, promises st !! 0%nat = Some p /\ repo_id p = "org/model"
               /\ finalized p = false.
Proof.
  intros st.
  assert (Hcall : resolveModelProfile "org/model" empty_cache = (AwaitsFetch 0 true, st))
    by (apply (resolveModelProfile_starts_fetch "org/model" empty_cache);
        reflexivity || apply lookup_empty).
  assert (Hreach : reachable st).
  { exists (Some ∅), [ECall "org/model"], [("org/model", AwaitsFetch 0 true)].
    cbn [run step]. fold empty_cache. rewrite Hcall. reflexivity. }
  assert (Hentry : inFlightRequests st !! "org/model" = Some 0%nat)
    by apply lookup_insert_eq.
  split; [exact Hentry |].
  apply (in_flight_entries_are_live st "org/model" 0 Hreach). exact Hentry.
Defined.

(** ** The catalogue *)

Section CatalogueShape.

Lemma MODEL_PROFILES_ranges (key : string) (p : ModelProfile) :
  (key, p) ∈ MODEL_PROFILES ->
  0 < degradationOnset p < dangerZone p /\ dangerZone p < maxTokens p
  /\ 0.2 <= middleLossCoefficient p <= 0.5
  /\ 0.88 <= baseRetrievalAccuracy p <= 0.97.
Proof.
  unfold MODEL_PROFILES. rewrite !elem_of_cons, elem_of_nil.
  intros H.
  repeat (destruct H as [H | H];
          [injection H as _ ->; cbn; repeat split; lra |]).
  destruct H.
Qed.

End CatalogueShape.

(** X25.  Whatever profile the catalogue lookup returns, for a listed name
    or as the fallback, is well formed: the onset, the danger zone and the
    capacity are positive and strictly increasing, the coefficient lies in
    [0.2, 0.5] and the base accuracy in [0.88, 0.97].  Hence for such a
    profile both estimates are numbers at every token count, the
    multiplier within [0.2, 1] and the accuracy within [0.1, base]. *)
Theorem catalogue_profiles_are_well_formed (model : string) (p : ModelProfile) :
  getModelProfile model = VProfile p ->
  (0 < degradationOnset p < dangerZone p /\ dangerZone p < maxTokens p
   /\ 0.2 <= middleLossCoefficient p <= 0.5
   /\ 0.88 <= baseRetrievalAccuracy p <= 0.97)
  /\ forall t, exists q r,
       calculateQualityMultiplier t p = Fin q
       /\ estimateRetrievalAccuracy t p = Fin r
       /\ 0.2 <= q <= 1 /\ 0.1 <= r <= baseRetrievalAccuracy p.
Proof.
  intros Hget.
  assert (Hranges : 0 < degradationOnset p < dangerZone p /\ dangerZone p < maxTokens p
                    /\ 0.2 <= middleLossCoefficient p <= 0.5
                    /\ 0.88 <= baseRetrievalAccuracy p <= 0.97).
  { destruct (getModelProfile_cases model)
      as [(p' & Hown & Hp') | [(_ & Hinh) | (_ & _ & Hother)]].
    - rewrite Hget in Hp'. injection Hp' as <-.
      apply (MODEL_PROFILES_ranges model). now apply own_property_Some.
    - congruence.
    - rewrite Hget in Hother. injection Hother as ->. cbn. repeat split; lra. }
  split; [exact Hranges |].
  destruct Hranges as (Ho & Hd & Hc & Hb).
  intros t. exists (quality t p), (retrieval t p).
  split; [apply calculateQualityMultiplier_real |].
  split; [apply estimateRetrievalAccuracy_real; left; lra |].
  split; [apply quality_bounds |].
  apply retrieval_upper; lra.
Qed.

Lemma catalogue_profiles_are_well_formed_witness :
  (0 < degradationOnset claude_opus_4 < dangerZone claude_opus_4
   /\ dangerZone claude_opus_4 < maxTokens claude_opus_4
   /\ 0.2 <= middleLossCoefficient claude_opus_4 <= 0.5
   /\ 0.88 <= baseRetrievalAccuracy claude_opus_4 <= 0.97)
  /\ forall t, exists q r,
       calculateQualityMultiplier t claude_opus_4 = Fin q
       /\ estimateRetrievalAccuracy t claude_opus_4 = Fin r
       /\ 0.2 <= q <= 1 /\ 0.1 <= r <= baseRetrievalAccuracy claude_opus_4.
Proof.
  apply (catalogue_profiles_are_well_formed "claude-opus-4" claude_opus_4).
  apply claude_opus_4_in_catalog.
Defined.
